(** * Portage: discovery and reconciliation engine

    A shallow embedding of the port-discovery pipeline of [main.go]
    (listing parser, uptime formatter, resolver cache, discovery ledger,
    workspace event ledger, reconciler and the final sort stage), with the
    properties the specification states about it. *)

From Stdlib Require Import ZArith Ascii String List Lia Permutation Sorted.
From stdpp Require Import base option list gmap sets strings pretty sorting.

Local Open Scope Z_scope.

(** ** Go runtime primitives

    The part of Go's [strings], [strconv], [fmt] and [regexp] packages the
    program calls.  A Go string is a sequence of bytes: Rocq's [string]. *)
Module Go.

(** [int] is 64 bits wide on the platform the program targets. *)
Definition maxInt : Z := 9223372036854775807.
Definition minInt : Z := -9223372036854775808.

(** Two's-complement wrap-around of a mathematical integer into [int]. *)
Definition wrapInt (z : Z) : Z := (z + 2 ^ 63) mod 2 ^ 64 - 2 ^ 63.

Definition isInt (z : Z) : Prop := minInt <= z <= maxInt.

Definition byteOf (c : ascii) : N := N_of_ascii c.

Definition isDigit (c : ascii) : bool :=
  ((48 <=? byteOf c) && (byteOf c <=? 57))%N.

Definition digitVal (c : ascii) : Z := Z.of_N (byteOf c) - 48.

(** [len(s)] *)
Definition len (s : string) : Z := Z.of_nat (String.length s).

(** [strings.Split(s, sep)] for a separator of one byte. *)
Fixpoint Split (s : string) (sep : ascii) : list string :=
  match s with
  | EmptyString => [EmptyString]
  | String c rest =>
      if Ascii.eqb c sep then EmptyString :: Split rest sep
      else match Split rest sep with
           | hd :: tl => String c hd :: tl
           | [] => [String c EmptyString]
           end
  end.

(** [strings.HasPrefix] and [strings.Contains]. *)
Definition HasPrefix (s prefix : string) : bool := String.prefix prefix s.

Fixpoint Contains (s sub : string) : bool :=
  HasPrefix s sub ||
  match s with
  | EmptyString => false
  | String _ rest => Contains rest sub
  end.

(** [strings.TrimPrefix(s, prefix)] *)
Definition TrimPrefix (s prefix : string) : string :=
  if HasPrefix s prefix
  then String.substring (String.length prefix)
         (String.length s - String.length prefix) s
  else s.

(** White space as [unicode.IsSpace] sees it on UTF-8 text: the width in
    bytes of the space rune encoded at the head of [s], or [0] when the
    head of [s] is not a space.  Go's decoder consumes a malformed byte
    alone, and a lead byte never continues an earlier rune, so looking
    at each byte offset for one of these encodings finds the same runes
    as decoding the text rune by rune. *)
Definition asciiSpace (c : ascii) : bool :=
  let b := byteOf c in (((9 <=? b) && (b <=? 13)) || (b =? 32))%N.

Definition spaceWidth (s : string) : nat :=
  match s with
  | EmptyString => 0%nat
  | String c1 r1 =>
      if asciiSpace c1 then 1%nat
      else
        match r1 with
        | EmptyString => 0%nat
        | String c2 r2 =>
            let b1 := byteOf c1 in
            let b2 := byteOf c2 in
            if ((b1 =? 194) && ((b2 =? 133) || (b2 =? 160)))%N then 2%nat
            else
              match r2 with
              | EmptyString => 0%nat
              | String c3 _ =>
                  let b3 := byteOf c3 in
                  if (((b1 =? 225) && (b2 =? 154) && (b3 =? 128))
                      || ((b1 =? 226) && (b2 =? 128)
                          && (((128 <=? b3) && (b3 <=? 138))
                              || (b3 =? 168) || (b3 =? 169) || (b3 =? 175)))
                      || ((b1 =? 226) && (b2 =? 129) && (b3 =? 159))
                      || ((b1 =? 227) && (b2 =? 128) && (b3 =? 128)))%N
                  then 3%nat else 0%nat
              end
        end
  end.

Definition isEmpty (s : string) : bool :=
  match s with EmptyString => true | _ => false end.

Definition flush (cur : string) (fs : list string) : list string :=
  if isEmpty cur then fs else cur :: fs.

(** [fieldsFrom s skip] is the field that starts at the head of [s]
    (empty when the head is white space) and the fields after it;
    [skip] bytes at the head belong to a space rune already seen. *)
Fixpoint fieldsFrom (s : string) (skip : nat) : string * list string :=
  match s with
  | EmptyString => (EmptyString, [])
  | String c rest =>
      match skip with
      | S k =>
          let '(cur, fs) := fieldsFrom rest k in (EmptyString, flush cur fs)
      | O =>
          match spaceWidth s with
          | O => let '(cur, fs) := fieldsFrom rest 0 in (String c cur, fs)
          | S k =>
              let '(cur, fs) := fieldsFrom rest k in
              (EmptyString, flush cur fs)
          end
      end
  end.

(** [strings.Fields(s)] *)
Definition Fields (s : string) : list string :=
  let '(cur, fs) := fieldsFrom s 0 in flush cur fs.

(** [allSpace s skip]: [s] is a run of space runes and nothing else. *)
Fixpoint allSpace (s : string) (skip : nat) : bool :=
  match s with
  | EmptyString => match skip with O => true | S _ => false end
  | String _ rest =>
      match skip with
      | S k => allSpace rest k
      | O => match spaceWidth s with
             | O => false
             | S k => allSpace rest k
             end
      end
  end.

Fixpoint trimLeft (s : string) (skip : nat) : string :=
  match s with
  | EmptyString => EmptyString
  | String _ rest =>
      match skip with
      | S k => trimLeft rest k
      | O => match spaceWidth s with
             | O => s
             | S k => trimLeft rest k
             end
      end
  end.

Fixpoint trimRight (s : string) : string :=
  match s with
  | EmptyString => EmptyString
  | String c rest => if allSpace s 0 then EmptyString else String c (trimRight rest)
  end.

(** [strings.TrimSpace(s)] *)
Definition TrimSpace (s : string) : string := trimRight (trimLeft s 0).

(** The longest prefix of [s] whose bytes satisfy [p], and the rest. *)
Fixpoint span (p : ascii -> bool) (s : string) : string * string :=
  match s with
  | EmptyString => (EmptyString, EmptyString)
  | String c rest =>
      if p c then let '(a, b) := span p rest in (String c a, b)
      else (EmptyString, s)
  end.

(** The value of a string of decimal digits, most significant first, as
    the loop [n = n*10 + digit] computes it without a bound. *)
Fixpoint digitsValueFrom (acc : Z) (s : string) : Z :=
  match s with
  | EmptyString => acc
  | String c rest => digitsValueFrom (acc * 10 + digitVal c) rest
  end.

Definition digitsValue (s : string) : Z := digitsValueFrom 0 s.

(** Every byte of [s] satisfies [p]. *)
Fixpoint allBytes (p : ascii -> bool) (s : string) : bool :=
  match s with
  | EmptyString => true
  | String c rest => p c && allBytes p rest
  end.

Definition allDigits (s : string) : bool := allBytes isDigit s.

(** The byte [c] does not occur in [s]. *)
Definition freeOf (c : ascii) (s : string) : bool :=
  allBytes (fun x => negb (Ascii.eqb x c)) s.

(** An optional sign at the head of [s], and what follows it. *)
Definition splitSign (s : string) : string * string :=
  match s with
  | String "-" r => ("-"%string, r)
  | String "+" r => ("+"%string, r)
  | _ => (EmptyString, s)
  end.

(** [strconv.ParseInt(s, 10, 64)]: an optional sign, then one or more
    decimal digits; a value outside [int64] is a range error. *)
Definition ParseInt (s : string) : option Z :=
  let '(sign, body) := splitSign s in
  if isEmpty body || negb (allDigits body) then None
  else
    let v := digitsValue body in
    if bool_decide (sign = "-"%string)
    then (if v <=? 2 ^ 63 then Some (- v) else None)
    else (if v <=? maxInt then Some v else None).

(** [strconv.Atoi(s)] agrees with [ParseInt(s, 10, 0)] on a 64-bit
    platform (its fast path is the same computation on short inputs). *)
Definition Atoi (s : string) : option Z := ParseInt s.

(** [fmt.Sprintf("%d", n)] *)
Definition Itoa (n : Z) : string := pretty n.

(** [ss.SkipSpace] of [fmt]'s scanner as [Sscanf] sets it up: space runes
    are skipped, a newline among them is an error. *)
Fixpoint skipSpace (s : string) (skip : nat) : option string :=
  match s with
  | EmptyString => Some EmptyString
  | String c rest =>
      match skip with
      | S k => skipSpace rest k
      | O =>
          if (byteOf c =? 10)%N then None
          else match spaceWidth s with
               | O => Some s
               | S k => skipSpace rest k
               end
      end
  end.

(** [fmt.Sscanf(s, "%d", &v)]: the integer read, or [None] when the scan
    fails and leaves [v] as it was.  After the leading space an optional
    sign and the longest run of decimal digits form the token handed to
    [ParseInt]; what follows the token is left unread. *)
Definition scanInt (s : string) : option Z :=
  match skipSpace s 0 with
  | None => None
  | Some body =>
      let '(sign, r) := splitSign body in
      let '(ds, _) := span isDigit r in
      if isEmpty ds then None else ParseInt (sign +:+ ds)
  end.

(** [fmt.Sscanf(s, "%d", &v)] on a variable holding [old]. *)
Definition Sscanf_d (s : string) (old : Z) : Z :=
  match scanInt s with Some v => v | None => old end.

(** White space of the regular-expression class [\s]. *)
Definition isReSpace (c : ascii) : bool :=
  let b := byteOf c in
  ((b =? 9) || (b =? 10) || (b =? 12) || (b =? 13) || (b =? 32))%N.

End Go.

(** ** Data model *)

(** [type PortInfo struct] *)
Record PortInfo := mkPortInfo {
  Port : Z;
  PID : string;
  Command : string;
  Address : string;
  User : string;
  Path : string;
  Uptime : string;
  UptimeSeconds : Z
}.

Global Instance PortInfo_eq_dec : EqDecision PortInfo.
Proof. solve_decision. Defined.

(** ** Uptime formatter *)

(** Go's [+] and [*] on [int]. *)
Definition intAdd (x y : Z) : Z := Go.wrapInt (x + y).
Definition intMul (x y : Z) : Z := Go.wrapInt (x * y).

(** The label and the seconds [formatUptime] computes once the four
    groups are scanned (the code after its [switch]). *)
Definition uptimeLabel (days hours minutes seconds : Z) : string * Z :=
  let totalSeconds :=
    intAdd (intAdd (intAdd (intMul days 86400) (intMul hours 3600))
                   (intMul minutes 60)) seconds in
  let totalHours := intAdd (intMul days 24) hours in
  let totalMinutes := intAdd (intMul totalHours 60) minutes in
  if totalHours <? 3 then (Go.Itoa totalMinutes +:+ "m", totalSeconds)
  else if 200 <=? totalHours
       then (Go.Itoa (Z.quot totalHours 24) +:+ "d", totalSeconds)
       else (Go.Itoa totalHours +:+ "h", totalSeconds).

(** [func formatUptime(etime string) (string, int)] *)
Definition formatUptime (etime : string) : string * Z :=
  let '(days, etime) :=
    if Go.Contains etime "-" then
      let parts := Go.Split etime "-" in
      (Go.Sscanf_d (nth 0 parts EmptyString) 0, nth 1 parts EmptyString)
    else (0, etime) in
  match Go.Split etime ":" with
  | [m; s] =>
      let minutes := Go.Sscanf_d m 0 in
      let seconds := Go.Sscanf_d s 0 in
      uptimeLabel days 0 minutes seconds
  | [h; m; s] =>
      let hours := Go.Sscanf_d h 0 in
      let minutes := Go.Sscanf_d m 0 in
      let seconds := Go.Sscanf_d s 0 in
      uptimeLabel days hours minutes seconds
  | _ => (etime, 0)
  end.

(** ** Table helpers *)

(** [func truncate(s string, maxLen int) string]; [None] is the run-time
    panic of the slice expression [s[:maxLen-3]] when its bound is out of
    range. *)
Definition truncate (s : string) (maxLen : Z) : option string :=
  if Go.len s <=? maxLen then Some s
  else
    let hi := Go.wrapInt (maxLen - 3) in
    if (0 <=? hi) && (hi <=? Go.len s)
    then Some (String.substring 0 (Z.to_nat hi) s +:+ "...")
    else None.

(** ** Listing parser *)

(** [portRegex.FindStringSubmatch(line)[1]] for the expression
    [:(\d+)\s+\(LISTEN\)]: at a colon, the longest run of digits, the
    longest run of white space and the literal [(LISTEN)]; the leftmost
    colon where that succeeds gives the match. *)
Definition matchPortAt (s : string) : option string :=
  match s with
  | String ":" r =>
      let '(ds, r1) := Go.span Go.isDigit r in
      if Go.isEmpty ds then None
      else
        let '(sp, r2) := Go.span Go.isReSpace r1 in
        if Go.isEmpty sp then None
        else if Go.HasPrefix r2 "(LISTEN)" then Some ds else None
  | _ => None
  end.

Fixpoint findPort (s : string) : option string :=
  match matchPortAt s with
  | Some ds => Some ds
  | None =>
      match s with
      | EmptyString => None
      | String _ rest => findPort rest
      end
  end.

(** The key [fmt.Sprintf("%d:%s", port, pid)] of the [seen] map. *)
Definition parseKey (port : Z) (pid : string) : string :=
  Go.Itoa port +:+ ":" +:+ pid.

(** One iteration of the loop of [parseOutput] over the lines: the [seen]
    map (only ever holding [true], so a set of keys) and the slice built
    so far. *)
Definition parseStep (st : gset string * list PortInfo) (line : string)
  : gset string * list PortInfo :=
  let '(seen, ports) := st in
  if negb (Go.Contains line "LISTEN") then st
  else
    let fields := Go.Fields line in
    if (length fields <? 10)%nat then st
    else
      match findPort line with
      | None => st
      | Some digits =>
          match Go.Atoi digits with
          | None => st
          | Some port =>
              let key := parseKey port (nth 1 fields EmptyString) in
              if decide (key ∈ seen) then st
              else
                ({[ key ]} ∪ seen,
                 ports ++ [ {| Port := port;
                               Command := nth 0 fields EmptyString;
                               PID := nth 1 fields EmptyString;
                               User := nth 2 fields EmptyString;
                               Address := nth 8 fields EmptyString;
                               Path := EmptyString;
                               Uptime := EmptyString;
                               UptimeSeconds := 0 |} ])
          end
      end.

(** [func parseOutput(output string) []PortInfo] *)
Definition parseOutput (output : string) : list PortInfo :=
  snd (foldl parseStep (∅, []) (Go.Split output "010")).

(** ** Process metadata resolver *)

(** The loop of [getWorkingDirectory] over the lines of the command's
    output: the first line that starts with [n] and has more after it. *)
Fixpoint firstPathLine (lines : list string) : string :=
  match lines with
  | [] => "N/A"
  | line :: rest =>
      if Go.HasPrefix line "n" then
        let path := Go.TrimPrefix line "n" in
        if negb (Go.isEmpty path) then path else firstPathLine rest
      else firstPathLine rest
  end.

(** [getWorkingDirectory] after [cmd.Output()]: [None] is a failed
    command. *)
Definition cwdOfOutput (out : option string) : string :=
  match out with
  | None => "N/A"
  | Some o => firstPathLine (Go.Split o "010")
  end.

(** [getProcessUptime] after [cmd.Output()]. *)
Definition uptimeOfOutput (out : option string) : string * Z :=
  match out with
  | None => ("N/A", 0)
  | Some o =>
      let uptime := Go.TrimSpace o in
      if Go.isEmpty uptime then ("N/A", 0) else formatUptime uptime
  end.

(** One lookup that reached an external command, with what it returned. *)
Inductive Lookup :=
| CwdLookup (pid : string) (path : string)
| UptimeLookup (pid : string) (label : string) (seconds : Z).

Global Instance Lookup_eq_dec : EqDecision Lookup.
Proof. solve_decision. Defined.

(** The three maps of the enrichment loop in [main]. *)
Record Caches := mkCaches {
  pathCache : gmap string string;
  uptimeCache : gmap string string;
  uptimeSecondsCache : gmap string Z
}.

Definition emptyCaches : Caches := mkCaches ∅ ∅ ∅.

Section Resolver.
(** The state of the machine the commands observe, and the two
    commands: [lsof -a -p pid -d cwd -Fn] and [ps -p pid -o etime=],
    each giving its output, or [None] when it fails. *)
Context {World : Type}.
Variable lsofCwd : string -> World -> option string * World.
Variable psEtime : string -> World -> option string * World.

(** Computations that run commands; the list records, in order, every
    lookup that was made. *)
Definition Run (A : Type) : Type :=
  World * list Lookup -> A * (World * list Lookup).

Definition ret {A} (a : A) : Run A := fun st => (a, st).

Definition bind {A B} (m : Run A) (k : A -> Run B) : Run B :=
  fun st => let '(a, st') := m st in k a st'.

Local Instance Run_ret : MRet Run := @ret.
Local Instance Run_bind : MBind Run := fun A B k m => bind m k.

Definition getWorkingDirectory (pid : string) : Run string :=
  fun '(w, trace) =>
    let '(out, w') := lsofCwd pid w in
    let path := cwdOfOutput out in
    (path, (w', trace ++ [CwdLookup pid path])).

Definition getProcessUptime (pid : string) : Run (string * Z) :=
  fun '(w, trace) =>
    let '(out, w') := psEtime pid w in
    let r := uptimeOfOutput out in
    (r, (w', trace ++ [UptimeLookup pid r.1 r.2])).

(** The body of [for i := range ports] in [main]; a map read of a key
    that is absent gives the zero value. *)
Definition enrichOne (c : Caches) (p : PortInfo) : Run (PortInfo * Caches) :=
  match pathCache c !! PID p with
  | Some cachedPath =>
      ret ({| Port := Port p; PID := PID p; Command := Command p;
              Address := Address p; User := User p;
              Path := cachedPath;
              Uptime := default EmptyString (uptimeCache c !! PID p);
              UptimeSeconds := default 0 (uptimeSecondsCache c !! PID p) |},
           c)
  | None =>
      path ← getWorkingDirectory (PID p);
      u ← getProcessUptime (PID p);
      ret ({| Port := Port p; PID := PID p; Command := Command p;
              Address := Address p; User := User p;
              Path := path; Uptime := u.1; UptimeSeconds := u.2 |},
           {| pathCache := <[PID p := path]> (pathCache c);
              uptimeCache := <[PID p := u.1]> (uptimeCache c);
              uptimeSecondsCache := <[PID p := u.2]> (uptimeSecondsCache c) |})
  end.

Fixpoint enrichLoop (ports : list PortInfo) (c : Caches) : Run (list PortInfo) :=
  match ports with
  | [] => ret []
  | p :: rest =>
      r ← enrichOne c p;
      rest' ← enrichLoop rest r.2;
      ret (r.1 :: rest')
  end.

(** The enrichment pass of [main], started with empty caches and an
    empty record of lookups. *)
Definition enrich (ports : list PortInfo) (w : World)
  : list PortInfo * (World * list Lookup) :=
  enrichLoop ports emptyCaches (w, []).

(** Parsing and enriching, as [main] chains them. *)
Definition parseAndEnrich (listing : string) (w : World) : list PortInfo :=
  (enrich (parseOutput listing) w).1.

End Resolver.

(** ** What the Go runtime leaves open

    [sort.Slice] promises a sorted rearrangement and no more (its
    documentation: the sort is not guaranteed to be stable, and the
    algorithm behind it has changed between Go releases), and a [range]
    over a map visits every entry once in an order that is not specified.
    Both are relations between what goes in and what may come out. *)
Module Runtime.

Definition sortedBy {A} (less : A -> A -> bool) (l : list A) : Prop :=
  Sorted (fun a b => less b a = false) l.

(** [sort.Slice(xs, less)] may leave the slice as [ys]. *)
Definition sortSlice {A} (less : A -> A -> bool) (xs ys : list A) : Prop :=
  xs ≡ₚ ys /\ sortedBy less ys.

(** [for k, v := range m] may visit the entries in the order [l]. *)
Definition rangeMap {V} (m : gmap string V) (l : list (string * V)) : Prop :=
  l ≡ₚ map_to_list m.

End Runtime.

(** ** Final sort stage *)

(** The comparison [displayPorts] and [displayPortsJSON] hand to
    [sort.Slice]. *)
Definition portLess (sortOrder : string) (a b : PortInfo) : bool :=
  if decide (sortOrder = "port") then Port a <? Port b
  else UptimeSeconds b <? UptimeSeconds a.

(** The sort stage may turn [allPorts] into [sorted]. *)
Definition sortStage (sortOrder : string) (allPorts sorted : list PortInfo) : Prop :=
  Runtime.sortSlice (portLess sortOrder) allPorts sorted.

(** The key the stage orders by. *)
Definition sortKey (sortOrder : string) (p : PortInfo) : Z :=
  if decide (sortOrder = "port") then Port p else - UptimeSeconds p.

(** ** Discovery ledger *)

Definition tab : string := String "009" EmptyString.
Definition newline : string := String "010" EmptyString.

(** Wall-clock time.  An instant is a number of nanoseconds since the
    Unix epoch; [time.Duration] is an [int64] count of nanoseconds. *)
Module Clock.

(** Year, month and day of a day number counted from 1970-01-01
    (proleptic Gregorian calendar). *)
Definition civil (days : Z) : Z * Z * Z :=
  let z := days + 719468 in
  let era := z / 146097 in
  let doe := z mod 146097 in
  let yoe := (doe - doe / 1460 + doe / 36524 - doe / 146096) / 365 in
  let doy := doe - (365 * yoe + yoe / 4 - yoe / 100) in
  let mp := (5 * doy + 2) / 153 in
  let d := doy - (153 * mp + 2) / 5 + 1 in
  let m := if mp <? 10 then mp + 3 else mp - 9 in
  let y := yoe + era * 400 + (if m <=? 2 then 1 else 0) in
  (y, m, d).

Fixpoint zeros (n : nat) : string :=
  match n with
  | O => EmptyString
  | S k => String "0" (zeros k)
  end.

(** [appendInt(b, x, width)] of package [time]: the decimal form of
    [x], its digits padded with zeros to [width]. *)
Definition appendInt (x : Z) (width : nat) : string :=
  let ds := Go.Itoa (Z.abs x) in
  (if x <? 0 then "-" else "") +:+ zeros (width - String.length ds) +:+ ds.

(** The layout ["2006-01-02 15:04:05"] applied to local seconds. *)
Definition layout (localSeconds : Z) : string :=
  let '(y, m, d) := civil (localSeconds / 86400) in
  let r := localSeconds mod 86400 in
  appendInt y 4 +:+ "-" +:+ appendInt m 2 +:+ "-" +:+ appendInt d 2 +:+ " "
  +:+ appendInt (r / 3600) 2 +:+ ":" +:+ appendInt (r mod 3600 / 60) 2 +:+ ":"
  +:+ appendInt (r mod 60) 2.

Definition second : Z := 1000000000.

End Clock.

(** What one run of the program finds around it: whether [os.ReadFile]
    and [os.OpenFile] on the log succeed, and the reading of
    [time.Now()]. *)
Record RunEnv := mkRunEnv {
  readOk : bool;
  openOk : bool;
  now : Z
}.

Section Ledger.
(** The offset of the local time zone, in seconds east of UTC, in force
    at an instant given in Unix seconds. *)
Variable zoneOffset : Z -> Z.

(** [t.Format("2006-01-02 15:04:05")] *)
Definition formatTime (t : Z) : string :=
  let unix := t / Clock.second in
  Clock.layout (unix + zoneOffset unix).

(** [now.Add(-time.Duration(port.UptimeSeconds) * time.Second)] *)
Definition startTime (now : Z) (p : PortInfo) : Z :=
  now + intMul (Go.wrapInt (- UptimeSeconds p)) Clock.second.

(** The line written for a record. *)
Definition logLine (now : Z) (p : PortInfo) : string :=
  formatTime (startTime now p) +:+ tab +:+ Go.Itoa (Port p) +:+ tab
  +:+ PID p +:+ tab +:+ Command p +:+ tab +:+ Path p +:+ newline.

(** The key [fmt.Sprintf("%d:%s", port.Port, port.Path)]. *)
Definition logKey (p : PortInfo) : string :=
  Go.Itoa (Port p) +:+ ":" +:+ Path p.

(** The body of the loop that loads [seenCombos] from the log. *)
Definition seenStep (seenCombos : gset string) (line : string) : gset string :=
  if Go.isEmpty line then seenCombos
  else
    let parts := Go.Split line "009" in
    if (5 <=? length parts)%nat
    then {[ nth 1 parts EmptyString +:+ ":" +:+ nth 4 parts EmptyString ]}
         ∪ seenCombos
    else seenCombos.

Definition loadSeen (data : string) : gset string :=
  foldl seenStep ∅ (Go.Split data "010").

(** The body of the loop over the ports: the keys seen and the lines
    written so far. *)
Definition logStep (now : Z) (st : gset string * list string) (p : PortInfo)
  : gset string * list string :=
  let '(seenCombos, written) := st in
  if bool_decide (Path p = "N/A") || bool_decide (Path p = "/") then st
  else if decide (logKey p ∈ seenCombos) then st
       else ({[ logKey p ]} ∪ seenCombos, written ++ [logLine now p]).

Fixpoint concatStrings (l : list string) : string :=
  match l with
  | [] => EmptyString
  | s :: rest => s +:+ concatStrings rest
  end.

(** [func logNewPorts(ports []PortInfo)] on the log file ([None]: there
    is no file yet): the file afterwards and the lines this run wrote.
    A write to the opened file is taken to succeed. *)
Definition logNewPorts (env : RunEnv) (ports : list PortInfo)
    (file : option string) : option string * list string :=
  let seenCombos :=
    match file with
    | Some data => if readOk env then loadSeen data else ∅
    | None => ∅
    end in
  if negb (openOk env) then (file, [])
  else
    let written := (foldl (logStep (now env)) (seenCombos, []) ports).2 in
    (Some (default EmptyString file +:+ concatStrings written), written).

(** Runs of the program one after the other on the same log: the file
    at the end and everything that was written, in order. *)
Fixpoint logRuns (runs : list (RunEnv * list PortInfo)) (file : option string)
  : option string * list string :=
  match runs with
  | [] => (file, [])
  | (env, ports) :: rest =>
      let '(file', written) := logNewPorts env ports file in
      let '(file'', written') := logRuns rest file' in
      (file'', written ++ written')
  end.

(** The fields of a line of the log as the program reads them back
    ([parts[0]], [parts[1]] and [parts[4]] of a line of five parts or
    more): time stamp, port and path. *)
Definition lineFields (line : string) : option (string * string * string) :=
  let parts := Go.Split line "009" in
  if (5 <=? length parts)%nat
  then Some (nth 0 parts EmptyString, nth 1 parts EmptyString,
             nth 4 parts EmptyString)
  else None.

(** The line carries this port and this path. *)
Definition lineHasKey (port : Z) (path : string) (line : string) : bool :=
  match lineFields line with
  | Some (_, p, d) => bool_decide (p = Go.Itoa port) && bool_decide (d = path)
  | None => false
  end.

End Ledger.

(** ** Workspace event ledger *)

(** [type WorkspaceEvent struct] *)
Record WorkspaceEvent := mkEvent {
  evPath : string;
  Event : string;
  Timestamp : Z
}.

Global Instance WorkspaceEvent_eq_dec : EqDecision WorkspaceEvent.
Proof. solve_decision. Defined.

(** [type closedWorkspace struct] of [displayCursorHistory] *)
Record closedWorkspace := mkClosed {
  path : string;
  closedAt : Z
}.

Global Instance closedWorkspace_eq_dec : EqDecision closedWorkspace.
Proof. solve_decision. Defined.

(** The body of the loop that fills [lastEvents]. *)
Definition lastEventStep (lastEvents : gmap string WorkspaceEvent)
    (event : WorkspaceEvent) : gmap string WorkspaceEvent :=
  match lastEvents !! evPath event with
  | Some existing =>
      if Timestamp existing <? Timestamp event
      then <[evPath event := event]> lastEvents
      else lastEvents
  | None => <[evPath event := event]> lastEvents
  end.

Definition lastEventsOf (events : list WorkspaceEvent) : gmap string WorkspaceEvent :=
  foldl lastEventStep ∅ events.

(** The loop that collects [closed], over the entries in the order the
    [range] visits them. *)
Definition closedOf (visited : list (string * WorkspaceEvent)) : list closedWorkspace :=
  omap (fun '(p, event) =>
          if decide (Event event = "close")
          then Some {| path := p; closedAt := Timestamp event |}
          else None) visited.

(** The comparison of the sort by close time, most recent first. *)
Definition closedLess (a b : closedWorkspace) : bool := closedAt b <? closedAt a.

Section History.
(** [openWindows[p]] (false for a path that is not a key), whether
    [os.Stat(p)] reports that [p] does not exist, and the limit flag. *)
Variable openWindows : string -> bool.
Variable notExist : string -> bool.
Variable cursorHistoryLimit : Z.

(** The loop over the sorted [closed] that builds [recentlyClosed]. *)
Fixpoint closedLoop (closed : list closedWorkspace) (recentlyClosed : list string)
  : list string :=
  match closed with
  | [] => recentlyClosed
  | ws :: rest =>
      if openWindows (path ws) then closedLoop rest recentlyClosed
      else if notExist (path ws) then closedLoop rest recentlyClosed
      else
        let recentlyClosed' := recentlyClosed ++ [path ws] in
        if cursorHistoryLimit <=? Z.of_nat (length recentlyClosed')
        then recentlyClosed'
        else closedLoop rest recentlyClosed'
  end.

(** [displayCursorHistory] up to the end of that loop: from the events
    read from the log, the candidates [closed] after the sort and the
    paths in [recentlyClosed]. *)
Definition closedWorkspaces (events : list WorkspaceEvent)
    (closed : list closedWorkspace) (recentlyClosed : list string) : Prop :=
  exists visited,
    Runtime.rangeMap (lastEventsOf events) visited /\
    Runtime.sortSlice closedLess (closedOf visited) closed /\
    recentlyClosed = closedLoop closed [].

End History.

(** ** Workspace reconciler *)

(** [type PortJSON struct] *)
Record PortJSON := mkPortJSON {
  jsonPort : Z;
  jsonCommand : string;
  jsonPID : string;
  jsonUptime : string;
  WorkDir : string
}.

Global Instance PortJSON_eq_dec : EqDecision PortJSON.
Proof. solve_decision. Defined.

(** [type UnifiedItem struct] *)
Record UnifiedItem := mkUnifiedItem {
  ItemType : string;
  WorkspacePath : string;
  WorkspaceName : string;
  LastActive : Z;
  Ports : list PortJSON
}.

Global Instance UnifiedItem_eq_dec : EqDecision UnifiedItem.
Proof. solve_decision. Defined.

(** [type CursorWorkspace struct]; [LastModified] is an instant. *)
Record CursorWorkspace := mkCursorWorkspace {
  wsPath : string;
  LastModified : Z
}.

(** [filepath.Base(p)] *)
Definition Base (p : string) : string :=
  if Go.isEmpty p then "."
  else
    match filter (fun e => negb (Go.isEmpty e)) (Go.Split p "/") with
    | [] => "/"
    | e :: rest => default e (last rest)
    end.

Definition portJSONOf (port : PortInfo) : PortJSON :=
  {| jsonPort := Port port; jsonCommand := Command port; jsonPID := PID port;
     jsonUptime := Uptime port; WorkDir := Path port |}.

Definition withPort (item : UnifiedItem) (pj : PortJSON) : UnifiedItem :=
  {| ItemType := ItemType item; WorkspacePath := WorkspacePath item;
     WorkspaceName := WorkspaceName item; LastActive := LastActive item;
     Ports := Ports item ++ [pj] |}.

(** The inner loop over the workspaces in the order the [range] visits
    them, up to its [break]. *)
Fixpoint firstMatch (portPath : string) (visited : list (string * UnifiedItem))
  : option (string * UnifiedItem) :=
  match visited with
  | [] => None
  | (wsPath, item) :: rest =>
      if Go.HasPrefix portPath wsPath then Some (wsPath, item)
      else firstMatch portPath rest
  end.

(** The body of the loop over [userPorts].  The map holds pointers to
    the items, so appending to the item found changes the entry. *)
Definition matchPort (workspaceMap : gmap string UnifiedItem)
    (orphanedPorts : list PortJSON) (visited : list (string * UnifiedItem))
    (port : PortInfo) : gmap string UnifiedItem * list PortJSON :=
  match firstMatch (Path port) visited with
  | Some (wsPath, item) =>
      (<[wsPath := withPort item (portJSONOf port)]> workspaceMap, orphanedPorts)
  | None => (workspaceMap, orphanedPorts ++ [portJSONOf port])
  end.

(** The loop over [userPorts]: each port with a visit of the map of its
    own. *)
Inductive matchPorts :
  gmap string UnifiedItem -> list PortJSON -> list PortInfo ->
  gmap string UnifiedItem -> list PortJSON -> Prop :=
| matchPorts_done m o : matchPorts m o [] m o
| matchPorts_next m o visited port rest m' o' :
    Runtime.rangeMap m visited ->
    matchPorts (matchPort m o visited port).1 (matchPort m o visited port).2
               rest m' o' ->
    matchPorts m o (port :: rest) m' o'.

Definition itemLess (a b : UnifiedItem) : bool := LastActive a <? LastActive b.

Definition orphanedItem (orphanedPorts : list PortJSON) : UnifiedItem :=
  {| ItemType := "orphaned"; WorkspacePath := EmptyString;
     WorkspaceName := EmptyString; LastActive := 0; Ports := orphanedPorts |}.

Section Reconciler.
(** [int64(now.Sub(t).Seconds())], a floating-point computation, as a
    function of the instant [t] a workspace was last modified. *)
Variable secondsSinceActive : Z -> Z.

(** The loop that creates the workspace items. *)
Definition workspaceMapOf (workspaces : list CursorWorkspace)
  : gmap string UnifiedItem :=
  foldl (fun m ws =>
           <[wsPath ws := {| ItemType := "workspace";
                             WorkspacePath := wsPath ws;
                             WorkspaceName := Base (wsPath ws);
                             LastActive := secondsSinceActive (LastModified ws);
                             Ports := [] |}]> m)
        ∅ workspaces.

(** [displayUnified] from the matching of the ports on: the list
    [result] it may encode. *)
Definition displayUnified (userPorts : list PortInfo)
    (workspaces : list CursorWorkspace) (result : list UnifiedItem) : Prop :=
  exists m orphanedPorts visited workspaceItems,
    matchPorts (workspaceMapOf workspaces) [] userPorts m orphanedPorts /\
    Runtime.rangeMap m visited /\
    Runtime.sortSlice itemLess visited.*2 workspaceItems /\
    result = workspaceItems ++
             match orphanedPorts with
             | [] => []
             | _ :: _ => [orphanedItem orphanedPorts]
             end.

End Reconciler.

(** ** Vocabulary of the statements *)

(** A numeric group of an elapsed time: one or more decimal digits. *)
Definition isGroup (g : string) : bool :=
  negb (Go.isEmpty g) && Go.allDigits g.

(** The value of an optional group; an absent group counts as zero. *)
Definition groupValue (g : option string) : Z :=
  match g with
  | Some g => Go.digitsValue g
  | None => 0
  end.

Definition isOptGroup (g : option string) : bool :=
  match g with
  | Some g => isGroup g
  | None => true
  end.

(** The text [[days-][hours:]minutes:seconds]. *)
Definition etimeText (days hours : option string) (minutes seconds : string) : string :=
  match days with Some d => d +:+ "-" | None => EmptyString end
  +:+ match hours with Some h => h +:+ ":" | None => EmptyString end
  +:+ minutes +:+ ":" +:+ seconds.

(** The three label tiers as the specification words them. *)
Definition tierLabel (totalHours minutes : Z) : string :=
  if totalHours <? 3 then Go.Itoa (totalHours * 60 + minutes) +:+ "m"
  else if 200 <=? totalHours then Go.Itoa (totalHours / 24) +:+ "d"
       else Go.Itoa totalHours +:+ "h".

(** The record the parser builds from a line taken alone, when the line
    yields one. *)
Definition lineRecord (line : string) : option PortInfo :=
  head (parseStep (∅, []) line).2.

(** The records the lines of a listing yield, in the order of the lines. *)
Definition lineRecords (output : string) : list PortInfo :=
  omap lineRecord (Go.Split output "010").

(** The identity key of a record. *)
Definition portPid (p : PortInfo) : Z * string := (Port p, PID p).

(** Of a list of records, those whose key is not in [seen] and has not
    occurred earlier in the list. *)
Fixpoint keepFirst (seen : gset string) (records : list PortInfo) : list PortInfo :=
  match records with
  | [] => []
  | r :: rest =>
      if decide (parseKey (Port r) (PID r) ∈ seen) then keepFirst seen rest
      else r :: keepFirst ({[ parseKey (Port r) (PID r) ]} ∪ seen) rest
  end.

(** The bytes [%d] prints: digits and the minus sign. *)
Definition isDecimalByte (c : ascii) : bool := Go.isDigit c || Ascii.eqb c "-".

(** What the working-directory lookups of [pid] returned, one entry for
    each time the lookup ran; and the same for the uptime lookups. *)
Definition cwdLookupsOf (pid : string) (trace : list Lookup) : list string :=
  omap (fun l => match l with
                 | CwdLookup p path => if decide (p = pid) then Some path else None
                 | UptimeLookup _ _ _ => None
                 end) trace.

Definition uptimeLookupsOf (pid : string) (trace : list Lookup) : list (string * Z) :=
  omap (fun l => match l with
                 | UptimeLookup p label secs =>
                     if decide (p = pid) then Some (label, secs) else None
                 | CwdLookup _ _ => None
                 end) trace.

(** The process whose metadata a lookup asked for. *)
Definition lookupPid (l : Lookup) : string :=
  match l with
  | CwdLookup pid _ => pid
  | UptimeLookup pid _ _ => pid
  end.

(** The enrichment fields of a record. *)
Definition resolved (r : PortInfo) : string * string * Z :=
  (Path r, Uptime r, UptimeSeconds r).

(** Each lookup of [pid] ran once and returned the fields [t]. *)
Definition lookedUpOnce (trace : list Lookup) (pid : string)
    (t : string * string * Z) : Prop :=
  cwdLookupsOf pid trace = [t.1.1] /\ uptimeLookupsOf pid trace = [(t.1.2, t.2)].

(** No lookup of [pid] ran. *)
Definition neverLookedUp (trace : list Lookup) (pid : string) : Prop :=
  cwdLookupsOf pid trace = [] /\ uptimeLookupsOf pid trace = [].

(** What the caches hold for [pid], as the loop reads them. *)
Definition cacheEntry (c : Caches) (pid : string) : option (string * string * Z) :=
  match pathCache c !! pid with
  | Some cachedPath =>
      Some (cachedPath, default EmptyString (uptimeCache c !! pid),
            default 0 (uptimeSecondsCache c !! pid))
  | None => None
  end.

(** The caches agree with the lookups made so far. *)
Definition cachesAgree (c : Caches) (trace : list Lookup) : Prop :=
  forall pid,
    match cacheEntry c pid with
    | Some t => lookedUpOnce trace pid t
    | None => neverLookedUp trace pid
    end.

(** A machine on which the commands answer with fixed texts: an
    instance for the examples. *)
Definition commandPrints (text : string) (_ : string) (w : unit)
  : option string * unit := (Some text, w).

Definition sampleListing : string :=
  "COMMAND PID USER FD TYPE DEVICE SIZE/OFF NODE NAME" +:+ newline
  +:+ "node 501 alice 23u IPv4 0x1234 0t0 TCP 127.0.0.1:3000 (LISTEN)" +:+ newline
  +:+ "node 501 alice 24u IPv6 0x1234 0t0 TCP [::1]:3000 (LISTEN)" +:+ newline
  +:+ "node 501 alice 25u IPv4 0x1234 0t0 TCP 127.0.0.1:9229 (LISTEN)" +:+ newline.

(** Records of equal sort key stand in [sorted] in the order they have in
    [allPorts]. *)
Definition stableOrder (sortOrder : string) (allPorts sorted : list PortInfo) : Prop :=
  forall k,
    filter (fun p => sortKey sortOrder p = k) sorted
    = filter (fun p => sortKey sortOrder p = k) allPorts.

(** Two records with the same uptime on different ports. *)
Definition webPort : PortInfo :=
  mkPortInfo 3000 "501" "node" "127.0.0.1:3000" "alice" "/Users/alice/app" "5m" 323.

Definition apiPort : PortInfo :=
  mkPortInfo 4000 "502" "ruby" "127.0.0.1:4000" "alice" "/Users/alice/api" "5m" 323.

Definition oldPort : PortInfo :=
  mkPortInfo 8080 "77" "java" "*:8080" "alice" "/Users/alice/srv" "3h" 10800.

(** The order a sort by [key] aims at. *)
Definition keyLe {A} (key : A -> Z) (a b : A) : Prop := key a <= key b.

Global Instance keyLe_dec {A} (key : A -> Z) : RelDecision (keyLe key).
Proof. intros a b. unfold keyLe. apply _. Defined.

Global Instance keyLe_total {A} (key : A -> Z) : Total (keyLe key).
Proof. intros a b. unfold keyLe. lia. Qed.

(** The scenario of the specification: a close at 100, then an open at
    200, of the same path; and two events of one path at one second. *)
Definition closeAt100 : WorkspaceEvent := mkEvent "/p/a" "close" 100.
Definition openAt200 : WorkspaceEvent := mkEvent "/p/a" "open" 200.
Definition openAt100 : WorkspaceEvent := mkEvent "/p/a" "open" 100.

(** A path is listed when it is not open in a window and exists. *)
Definition listable (openWindows notExist : string -> bool) (p : string) : Prop :=
  openWindows p = false /\ notExist p = false.

(** All the ports a list of items holds, bucket after bucket. *)
Fixpoint portsOf (items : list UnifiedItem) : list PortJSON :=
  match items with
  | [] => []
  | item :: rest => Ports item ++ portsOf rest
  end.

(** The ports held by the items of the workspace map. *)
Definition mapPorts (m : gmap string UnifiedItem) : list PortJSON :=
  portsOf (map_to_list m).*2.

(** No workspace has a path that is a prefix of the directory of the
    port. *)
Definition unmatched (workspaces : list CursorWorkspace) (port : PortInfo) : bool :=
  forallb (fun ws => negb (Go.HasPrefix (Path port) (wsPath ws))) workspaces.

(** Two items differ at most in their ports. *)
Definition sameWorkspace (a b : UnifiedItem) : Prop :=
  ItemType a = ItemType b /\ WorkspacePath a = WorkspacePath b /\
  WorkspaceName a = WorkspaceName b /\ LastActive a = LastActive b.

(** A workspace and an instant counted as its idle seconds, for the
    examples. *)
Definition appWorkspace : CursorWorkspace := mkCursorWorkspace "/Users/alice/app" 40.

(** What [displayUnified] lists for the two sample ports and the sample
    workspace: the workspace with the port under it, then the orphans. *)
Definition sampleUnified : list UnifiedItem :=
  [ {| ItemType := "workspace"; WorkspacePath := "/Users/alice/app";
       WorkspaceName := "app"; LastActive := 40;
       Ports := [portJSONOf webPort] |};
    orphanedItem [portJSONOf apiPort] ].

(** The bytes of a time stamp: those of a decimal, the space and the
    colon. *)
Definition isStampByte (c : ascii) : bool :=
  isDecimalByte c || Ascii.eqb c " " || Ascii.eqb c ":".

(** A field that holds neither a tab nor a line break. *)
Definition cleanField (s : string) : bool :=
  Go.freeOf "009" s && Go.freeOf "010" s.

(** A record whose fields can stand in a line of the log. *)
Definition cleanRecord (p : PortInfo) : Prop :=
  cleanField (PID p) = true /\ cleanField (Command p) = true /\
  cleanField (Path p) = true.

(** The text of a file made of these lines, each ended by a line break. *)
Definition joinLines (lines : list string) : string :=
  concatStrings (map (fun l => l +:+ newline) lines).

(** A log that holds complete lines only, or does not exist yet. *)
Definition completeLog (file : option string) (lines : list string) : Prop :=
  Forall (fun l => Go.freeOf "010" l = true) lines /\
  (file = Some (joinLines lines) \/ (file = None /\ lines = [])).

(** The line of a record without its line break. *)
Definition logContent (zoneOffset : Z -> Z) (now : Z) (p : PortInfo) : string :=
  formatTime zoneOffset (startTime now p) +:+ tab +:+ Go.Itoa (Port p) +:+ tab
  +:+ PID p +:+ tab +:+ Command p +:+ tab +:+ Path p.

(** The records a run writes a line for: those with a usable path whose
    key is neither in [seen] nor earlier in the list. *)
Fixpoint newRecords (seen : gset string) (ports : list PortInfo) : list PortInfo :=
  match ports with
  | [] => []
  | p :: rest =>
      if bool_decide (Path p = "N/A") || bool_decide (Path p = "/")
      then newRecords seen rest
      else if decide (logKey p ∈ seen) then newRecords seen rest
           else p :: newRecords ({[ logKey p ]} ∪ seen) rest
  end.

(** The key the loader derives from a line, when it derives one. *)
Definition lineKey (line : string) : option string :=
  if Go.isEmpty line then None
  else
    let parts := Go.Split line "009" in
    if (5 <=? length parts)%nat
    then Some (nth 1 parts EmptyString +:+ ":" +:+ nth 4 parts EmptyString)
    else None.

(** The largest uptime whose [time.Duration] fits 64 bits. *)
Definition maxDurationSeconds : Z := 9223372036.

(** A record whose path holds a tab, and a record with an uptime of
    more than 292 years; two runs at the same instant. *)
Definition tabbedPort : PortInfo :=
  mkPortInfo 3000 "501" "node" "127.0.0.1:3000" "alice"
             ("/a" +:+ tab +:+ "b") "5m" 323.

Definition ancientPort : PortInfo :=
  mkPortInfo 3000 "501" "node" "127.0.0.1:3000" "alice" "/Users/alice/app"
             "106751d" 9223372037.

Definition sampleRun : RunEnv := mkRunEnv true true 1700000000000000005.

Definition utc (_ : Z) : Z := 0.

(** Case analysis on a membership [H : x ∈ [a; b; ...]]: [tac] closes the
    goal for each element in turn. *)
Ltac each_elem H tac :=
  repeat (apply elem_of_cons in H as [->|H]; [tac|]);
  try (by apply elem_of_nil in H).

(** * The rest of the program

    The functions around the pipeline: path display and the user-port
    filter, the range and hidden-port filters, the table, the workspace
    event log with its two commands, the history views and the
    interactive model of [interactive.go]. *)

(** ** More of the Go library *)
Module Strings.

(** [s[n:]] for [n <= len(s)]. *)
Definition from (n : nat) (s : string) : string :=
  String.substring n (String.length s - n) s.

(** The text before the first [sep] and the text after it. *)
Fixpoint cut (s : string) (sep : ascii) : option (string * string) :=
  match s with
  | EmptyString => None
  | String c rest =>
      if Ascii.eqb c sep then Some (EmptyString, rest)
      else match cut rest sep with
           | Some (a, b) => Some (String c a, b)
           | None => None
           end
  end.

(** [strings.SplitN(s, sep, n)] for a separator of one byte and
    [n >= 0]: at most [n] parts, the last one the unsplit rest. *)
Fixpoint SplitN (s : string) (sep : ascii) (n : nat) : list string :=
  match n with
  | O => []
  | S k =>
      match k with
      | O => [s]
      | S _ =>
          match cut s sep with
          | Some (a, b) => a :: SplitN b sep k
          | None => [s]
          end
      end
  end.

(** [strings.Join(elems, sep)] *)
Fixpoint Join (elems : list string) (sep : string) : string :=
  match elems with
  | [] => EmptyString
  | [e] => e
  | e :: rest => e +:+ sep +:+ Join rest sep
  end.

End Strings.

(** Package [path/filepath] on a system whose separator is the slash. *)
Module Filepath.

(** One element of a path against the elements kept so far, the last
    one first: an empty element and [.] are dropped, [..] removes the
    element before it, or stays when there is none to remove and the
    path is not rooted. *)
Definition cleanStep (rooted : bool) (out : list string) (e : string)
  : list string :=
  if Go.isEmpty e || bool_decide (e = ".") then out
  else if bool_decide (e = "..") then
    match out with
    | top :: below => if bool_decide (top = "..") then e :: out else below
    | [] => if rooted then [] else [e]
    end
  else e :: out.

(** [filepath.Clean(path)] *)
Definition Clean (path : string) : string :=
  if Go.isEmpty path then "."
  else
    let rooted := Go.HasPrefix path "/" in
    let out := rev (foldl (cleanStep rooted) [] (Go.Split path "/")) in
    if rooted then "/" +:+ Strings.Join out "/"
    else if Go.isEmpty (Strings.Join out "/") then "."
         else Strings.Join out "/".

(** [filepath.Join(a, b)]: the elements from the first one that is not
    empty on, joined by slashes and cleaned. *)
Definition Join (a b : string) : string :=
  if negb (Go.isEmpty a) then Clean (a +:+ "/" +:+ b)
  else if negb (Go.isEmpty b) then Clean b
       else EmptyString.

End Filepath.

(** Package [net/url]. *)
Module Url.

Definition isHex (c : ascii) : bool :=
  let b := Go.byteOf c in
  (((48 <=? b) && (b <=? 57)) || ((97 <=? b) && (b <=? 102))
   || ((65 <=? b) && (b <=? 70)))%N.

Definition unhex (c : ascii) : N :=
  let b := Go.byteOf c in
  (if (48 <=? b) && (b <=? 57) then b - 48
   else if (97 <=? b) && (b <=? 102) then b - 97 + 10
        else if (65 <=? b) && (b <=? 70) then b - 65 + 10
             else 0)%N.

(** [url.PathUnescape(s)]: every [%] with the two hexadecimal digits
    after it becomes the byte they denote; a [%] without them is an
    error. *)
Fixpoint PathUnescape (s : string) : option string :=
  match s with
  | EmptyString => Some EmptyString
  | String "%" (String h (String l rest)) =>
      if isHex h && isHex l
      then option_map (String (ascii_of_N (unhex h * 16 + unhex l)))
                      (PathUnescape rest)
      else None
  | String "%" _ => None
  | String c rest => option_map (String c) (PathUnescape rest)
  end.

End Url.

(** ** Workspace event log: its reader and its two commands *)

(** One line of the log as [readWorkspaceLog] takes it: the event, or
    [None] for a line that is skipped. *)
Definition eventOfLine (line : string) : option WorkspaceEvent :=
  let line := Go.TrimSpace line in
  if Go.isEmpty line then None
  else
    match Strings.SplitN line "," 3 with
    | [stamp; event; p] =>
        match Go.ParseInt stamp with
        | Some timestamp =>
            Some {| Timestamp := timestamp; Event := event; evPath := p |}
        | None => None
        end
    | _ => None
    end.

(** The line [fmt.Sprintf("%d,%s,%s\n", unix, event, path)]. *)
Definition eventLine (unix : Z) (event path : string) : string :=
  Go.Itoa unix +:+ "," +:+ event +:+ "," +:+ path +:+ newline.

(** [time.Now().Unix()] *)
Definition unixOf (now : Z) : Z := now / Clock.second.

Section WorkspaceLog.
(** [os.UserHomeDir()]: the directory, or [None] when it fails. *)
Variable homeDir : option string.

(** [func readWorkspaceLog() ([]WorkspaceEvent, error)] on the log file
    ([None]: there is no file); [None] as a result is the error. *)
Definition readWorkspaceLog (env : RunEnv) (file : option string)
  : option (list WorkspaceEvent) :=
  match homeDir with
  | None => None
  | Some _ =>
      match file with
      | None => Some []
      | Some data =>
          if readOk env then Some (omap eventOfLine (Go.Split data "010"))
          else None
      end
  end.

(** [func appendWorkspaceEvent(event, path string) error]: the file
    afterwards and whether the call succeeded.  A write to the opened
    file is taken to succeed. *)
Definition appendWorkspaceEvent (env : RunEnv) (event p : string)
    (file : option string) : option string * bool :=
  match homeDir with
  | None => (file, false)
  | Some _ =>
      if negb (openOk env) then (file, false)
      else (Some (default EmptyString file
                  +:+ eventLine (unixOf (now env)) event p), true)
  end.

(** [func addWorkspaceCloseEvent(path string) error] *)
Definition addWorkspaceCloseEvent (env : RunEnv) (p : string)
    (file : option string) : option string * bool :=
  appendWorkspaceEvent env "close" p file.

(** [func removeWorkspaceCloseEvent(path string) error] *)
Definition removeWorkspaceCloseEvent (env : RunEnv) (p : string)
    (file : option string) : option string * bool :=
  appendWorkspaceEvent env "open" p file.

End WorkspaceLog.

(** ** The list of recently closed workspaces *)

(** The path of an entry of the editor's own history:
    [strings.TrimPrefix(entry.FolderURI, "file://")], decoded when it
    can be. *)
Definition decodedPath (folderURI : string) : string :=
  let p := Go.TrimPrefix folderURI "file://" in
  default p (Url.PathUnescape p).

Section RecentlyClosed.
Variable homeDir : option string.
Variable openWindows : string -> bool.
Variable notExist : string -> bool.
Variable cursorHistoryLimit : Z.

(** The loop of [displayCursorHistory] over the entries of the editor's
    history, with [seenPaths] and the list built so far. *)
Fixpoint supplementLoop (entries : list string) (seenPaths : gset string)
    (recentlyClosed : list string) : list string :=
  match entries with
  | [] => recentlyClosed
  | folderURI :: rest =>
      let p := decodedPath folderURI in
      if decide (p ∈ seenPaths)
      then supplementLoop rest seenPaths recentlyClosed
      else if openWindows p then supplementLoop rest seenPaths recentlyClosed
      else if notExist p then supplementLoop rest seenPaths recentlyClosed
      else
        let recentlyClosed' := recentlyClosed ++ [p] in
        if cursorHistoryLimit <=? Z.of_nat (length recentlyClosed')
        then recentlyClosed'
        else supplementLoop rest ({[ p ]} ∪ seenPaths) recentlyClosed'
  end.

(** [func displayCursorHistory()]: the paths it may encode, from the log
    file and the folder entries of the editor's history ([None] when
    the home directory, the database, the query or its JSON fails). *)
Definition displayCursorHistory (env : RunEnv) (file : option string)
    (history : option (list string)) (recentlyClosed : list string) : Prop :=
  exists closed fromLog,
    closedWorkspaces openWindows notExist cursorHistoryLimit
      (default [] (readWorkspaceLog homeDir env file)) closed fromLog /\
    recentlyClosed =
      if Z.of_nat (length fromLog) <? cursorHistoryLimit
      then match homeDir, history with
           | Some _, Some entries =>
               supplementLoop entries (list_to_set fromLog) fromLog
           | _, _ => fromLog
           end
      else fromLog.

End RecentlyClosed.

(** ** Path display and the user-port filter *)

(** [excludeCommands] and [excludePrefixes] of [isUserPort]. *)
Definition excludeCommands : list string := ["redis-ser"%string].

Definition excludePrefixes : list string :=
  ["/opt/"; "/usr/"; "/System/"; "/Library/"]%string.

Section Paths.
(** [os.UserHomeDir()]: the directory, or [None] when it fails (the
    call then returns the empty string with its error). *)
Variable homeDir : option string.

(** [func shortenPath(path string) string] *)
Definition shortenPath (p : string) : string :=
  if bool_decide (p = "N/A") || bool_decide (p = "-") then p
  else
    match homeDir with
    | None => p
    | Some home =>
        if Go.HasPrefix p home then "~" +:+ Go.TrimPrefix p home else p
    end.

(** [func isUserPort(port PortInfo) bool] *)
Definition isUserPort (port : PortInfo) : bool :=
  if bool_decide (Path port = "N/A") || bool_decide (Path port = "/") then false
  else if existsb (fun cmd => bool_decide (Command port = cmd)) excludeCommands
  then false
  else
    let home := default EmptyString homeDir in
    let expandedPath :=
      if Go.HasPrefix (Path port) "~/"
      then Filepath.Join home (Strings.from 2 (Path port))
      else Path port in
    if existsb (fun prefix => Go.HasPrefix expandedPath prefix) excludePrefixes
    then false
    else if Go.HasPrefix expandedPath (Filepath.Join home "Library") then false
         else true.

End Paths.

(** ** Range and hidden-port filters *)

(** [for k, v := range m] on a map with [int] keys may visit the entries
    in the order [l]. *)
Definition rangeInts {V} (m : gmap Z V) (l : list (Z * V)) : Prop :=
  l ≡ₚ map_to_list m.

(** The test [port.Port >= rangeStart && port.Port < rangeStart+1000]. *)
Definition inRange (rangeStart : Z) (port : PortInfo) : bool :=
  (rangeStart <=? Port port) && (Port port <? intAdd rangeStart 1000).

(** [func filterPorts(ports []PortInfo, ranges []int) map[int][]PortInfo] *)
Definition filterPorts (ports : list PortInfo) (ranges : list Z)
  : gmap Z (list PortInfo) :=
  let filtered :=
    foldl (fun m rangeStart => <[rangeStart := []]> m) ∅ ranges in
  foldl (fun m port =>
           foldl (fun m rangeStart =>
                    if inRange rangeStart port
                    then <[rangeStart := default [] (m !! rangeStart) ++ [port]]> m
                    else m)
                 m ranges)
        filtered ports.

(** The loop of [countTotal] over the entries in the order they are
    visited. *)
Definition countTotalOver (visited : list (Z * list PortInfo)) : Z :=
  foldl (fun total entry => intAdd total (Z.of_nat (length entry.2))) 0 visited.

(** [func countTotal(portsByRange map[int][]PortInfo) int] may return
    [total]. *)
Definition countTotal (portsByRange : gmap Z (list PortInfo)) (total : Z) : Prop :=
  exists visited,
    rangeInts portsByRange visited /\ total = countTotalOver visited.

(** [type Config struct]; [None] is the nil map, which a configuration
    file whose [hidden_ports] is [null] leaves. *)
Record Config := mkConfig {
  HiddenPorts : option (gmap string bool)
}.

(** The key [fmt.Sprintf("%d-%s", port.Port, port.PID)]. *)
Definition hiddenKey (port : PortInfo) : string :=
  Go.Itoa (Port port) +:+ "-" +:+ PID port.

(** [config.HiddenPorts[key]]: reading a nil map, or a key that is not
    there, gives [false]. *)
Definition isHidden (config : Config) (port : PortInfo) : bool :=
  match HiddenPorts config with
  | Some hidden => default false (hidden !! hiddenKey port)
  | None => false
  end.

(** The body of the loop of [filterHiddenPorts] over the ranges. *)
Definition hideStep (config : Config) (filtered : gmap Z (list PortInfo))
    (entry : Z * list PortInfo) : gmap Z (list PortInfo) :=
  <[entry.1 := filter (fun port => isHidden config port = false) entry.2]>
    filtered.

(** [func filterHiddenPorts(portsByRange, config) map[int][]PortInfo]
    may return [filtered]. *)
Definition filterHiddenPorts (portsByRange : gmap Z (list PortInfo))
    (config : Config) (filtered : gmap Z (list PortInfo)) : Prop :=
  exists visited,
    rangeInts portsByRange visited /\
    filtered = foldl (hideStep config) ∅ visited.

(** ** The table *)

(** A row handed to the table writer. *)
Record TableRow := mkTableRow {
  rowPort : Z;
  rowCommand : string;
  rowPID : string;
  rowUptime : string;
  rowAddress : string;
  rowPath : string
}.

Global Instance TableRow_eq_dec : EqDecision TableRow.
Proof. solve_decision. Defined.

(** The loop that collects [allPorts]. *)
Definition collectPorts (visited : list (Z * list PortInfo)) : list PortInfo :=
  foldl (fun allPorts entry => allPorts ++ entry.2) [] visited.

Section Table.
Variable homeDir : option string.

Definition rowOf (port : PortInfo) : TableRow :=
  let pathDisplay := shortenPath homeDir (Path port) in
  {| rowPort := Port port; rowCommand := Command port; rowPID := PID port;
     rowUptime := Uptime port; rowAddress := Address port;
     rowPath := if bool_decide (pathDisplay = "N/A") then "-" else pathDisplay |}.

(** The body of the loop of [displayPorts] that adds the rows: the
    [seen] map and the rows so far. *)
Definition rowStep (st : gset string * list TableRow) (port : PortInfo)
  : gset string * list TableRow :=
  let '(seen, rows) := st in
  if bool_decide (Path port = "/") then st
  else if decide (hiddenKey port ∈ seen) then st
       else ({[ hiddenKey port ]} ∪ seen, rows ++ [rowOf port]).

(** [func displayPorts(portsByRange, sortOrder)]: [None] when it reports
    that there are no ports, or the rows of the table and the number in
    its [Total] line. *)
Definition displayPorts (portsByRange : gmap Z (list PortInfo))
    (sortOrder : string) (out : option (list TableRow * Z)) : Prop :=
  exists visited,
    rangeInts portsByRange visited /\
    match collectPorts visited with
    | [] => out = None
    | allPorts =>
        exists sorted,
          sortStage sortOrder allPorts sorted /\
          out = Some ((foldl rowStep (∅, []) sorted).2,
                      Z.of_nat (size (foldl rowStep (∅, []) sorted).1))
    end.

(** [func displayPortsJSON(portsByRange, sortOrder)]: the records it
    may encode. *)
Definition displayPortsJSON (portsByRange : gmap Z (list PortInfo))
    (sortOrder : string) (out : list PortInfo) : Prop :=
  exists visited sorted,
    rangeInts portsByRange visited /\
    sortStage sortOrder (collectPorts visited) sorted /\
    out = filter (fun port => Path port <> "/") sorted.

End Table.

(** ** The pipeline of [main] *)
Section Main.
Context {World : Type}.
Variable lsofCwd : string -> World -> option string * World.
Variable psEtime : string -> World -> option string * World.
Variable homeDir : option string.

(** [main] from the listing to the map handed to the display: the
    records parsed and enriched, the user ports among them unless
    [--all] is given, and what the configuration hides taken out. *)
Definition mainFiltered (showAllPorts : bool) (config : Config)
    (listing : string) (w : World) (filtered : gmap Z (list PortInfo)) : Prop :=
  let ports := parseAndEnrich lsofCwd psEtime listing w in
  let userPorts :=
    if showAllPorts then ports
    else filter (fun port => isUserPort homeDir port = true) ports in
  filterHiddenPorts {[ 0 := userPorts ]} config filtered.

(** The table [main] may print in its plain mode. *)
Definition mainTable (showAllPorts : bool) (config : Config) (sortOrder : string)
    (listing : string) (w : World) (out : option (list TableRow * Z)) : Prop :=
  exists filtered,
    mainFiltered showAllPorts config listing w filtered /\
    displayPorts homeDir filtered sortOrder out.

End Main.

(** ** The interactive mode of [interactive.go] *)
Module Interactive.

(** [type model struct].  The configuration is held by pointer, and the
    model returned by [Update] holds the same pointer, so what [Update]
    writes through it is part of the model that comes back. *)
Record model := mkModel {
  ports : list PortInfo;
  cursor : Z;
  config : Config;
  message : string;
  showAll : bool
}.

(** A message to [Update]: a key, named as [msg.String()] names it, or
    a message of another type. *)
Inductive Msg :=
| KeyMsg (key : string)
| OtherMsg.

(** [func initialModel(ports []PortInfo) model], with the configuration
    [loadConfig()] returns. *)
Definition initialModel (ports : list PortInfo) (loaded : Config) : model :=
  {| ports := ports; cursor := 0; config := loaded;
     message := EmptyString; showAll := false |}.

(** [func removePort(ports []PortInfo, toRemove PortInfo) []PortInfo] *)
Definition removePort (ports : list PortInfo) (toRemove : PortInfo)
  : list PortInfo :=
  filter (fun p => Port p <> Port toRemove \/ PID p <> PID toRemove) ports.

(** The ranges [getVisiblePorts] shows when not all ports are shown. *)
Definition inMonitored (port : PortInfo) : bool :=
  ((3000 <=? Port port) && (Port port <? 4000))
  || ((4000 <=? Port port) && (Port port <? 5000))
  || ((8000 <=? Port port) && (Port port <? 9000)).

Definition isVisible (m : model) (port : PortInfo) : bool :=
  negb (isHidden (config m) port) && (showAll m || inMonitored port).

(** [func (m model) getVisiblePorts() []PortInfo] *)
Definition getVisiblePorts (m : model) : list PortInfo :=
  filter (fun port => isVisible m port = true) (ports m).

(** The guard [len(visiblePorts) > 0 && m.cursor < len(visiblePorts)]
    of [Update] and the element [visiblePorts[m.cursor]] it protects;
    an index below zero passes the guard and panics. *)
Inductive Selection :=
| NoSelection
| Selected (port : PortInfo)
| IndexPanic.

Definition selection (m : model) : Selection :=
  let visiblePorts := getVisiblePorts m in
  if (0 <? Z.of_nat (length visiblePorts))
     && (cursor m <? Z.of_nat (length visiblePorts))
  then
    if cursor m <? 0 then IndexPanic
    else match visiblePorts !! Z.to_nat (cursor m) with
         | Some port => Selected port
         | None => IndexPanic
         end
  else NoSelection.

Definition withCursor (m : model) (c : Z) : model :=
  {| ports := ports m; cursor := c; config := config m;
     message := message m; showAll := showAll m |}.

Definition withMessage (m : model) (text : string) : model :=
  {| ports := ports m; cursor := cursor m; config := config m;
     message := text; showAll := showAll m |}.

(** [if m.cursor >= len(m.getVisiblePorts()) && m.cursor > 0 { m.cursor-- }] *)
Definition adjustCursor (m : model) : model :=
  if (Z.of_nat (length (getVisiblePorts m)) <=? cursor m) && (0 <? cursor m)
  then withCursor m (cursor m - 1)
  else m.

(** [func (m model) Update(msg tea.Msg) (tea.Model, tea.Cmd)]: the model
    returned and whether the command returned is [tea.Quit]; [None] is a
    run-time panic.  [cmdErr] is what the command the key runs ([kill]
    or [open]) returns: [None] when it succeeds, or the text of its
    error.  The file [save] writes is not part of the model. *)
Definition Update (m : model) (msg : Msg) (cmdErr : option string)
  : option (model * bool) :=
  match msg with
  | OtherMsg => Some (m, false)
  | KeyMsg key =>
      if bool_decide (key = "ctrl+c") || bool_decide (key = "q")
      then Some (m, true)
      else if bool_decide (key = "up") || bool_decide (key = "k")
      then Some (if 0 <? cursor m then withCursor m (cursor m - 1) else m, false)
      else if bool_decide (key = "down") || bool_decide (key = "j")
      then Some (if cursor m <? Z.of_nat (length (getVisiblePorts m)) - 1
                 then withCursor m (cursor m + 1) else m, false)
      else if bool_decide (key = "h")
      then
        match selection m with
        | NoSelection => Some (m, false)
        | IndexPanic => None
        | Selected port =>
            match HiddenPorts (config m) with
            | None => None
            | Some hidden =>
                Some (adjustCursor
                        {| ports := ports m; cursor := cursor m;
                           config :=
                             mkConfig (Some (<[hiddenKey port := true]> hidden));
                           message :=
                             "Hidden port " +:+ Go.Itoa (Port port)
                             +:+ " (PID " +:+ PID port +:+ ")";
                           showAll := showAll m |},
                      false)
            end
        end
      else if bool_decide (key = "u")
      then Some ({| ports := ports m; cursor := 0;
                    config := mkConfig (Some ∅);
                    message := "Unhidden all ports"; showAll := showAll m |},
                 false)
      else if bool_decide (key = "a")
      then Some ({| ports := ports m; cursor := 0; config := config m;
                    message :=
                      if negb (showAll m) then "Showing ALL ports"
                      else "Showing filtered ports (3000+, 4000+, 8000+)";
                    showAll := negb (showAll m) |},
                 false)
      else if bool_decide (key = "K")
      then
        match selection m with
        | NoSelection => Some (m, false)
        | IndexPanic => None
        | Selected port =>
            match cmdErr with
            | Some err =>
                Some (withMessage m ("Failed to kill PID " +:+ PID port
                                     +:+ ": " +:+ err),
                      false)
            | None =>
                Some (adjustCursor
                        {| ports := removePort (ports m) port;
                           cursor := cursor m; config := config m;
                           message :=
                             "Killed process " +:+ Command port
                             +:+ " (PID " +:+ PID port +:+ ")";
                           showAll := showAll m |},
                      false)
            end
        end
      else if bool_decide (key = "o")
      then
        match selection m with
        | NoSelection => Some (m, false)
        | IndexPanic => None
        | Selected port =>
            let url := "http://localhost:" +:+ Go.Itoa (Port port) in
            match cmdErr with
            | Some err =>
                Some (withMessage m ("Failed to open " +:+ url +:+ ": " +:+ err),
                      false)
            | None =>
                Some (withMessage m ("Opened " +:+ url +:+ " in browser"), false)
            end
        end
      else Some (m, false)
  end.

(** The models a sequence of messages leads through, each message with
    the outcome of the command it may run; [None] when one of them
    panics.  A message after the one that quits is still taken. *)
Fixpoint run (m : model) (inputs : list (Msg * option string)) : option model :=
  match inputs with
  | [] => Some m
  | (msg, cmdErr) :: rest =>
      match Update m msg cmdErr with
      | Some (m', _) => run m' rest
      | None => None
      end
  end.

End Interactive.

(** ** [sort.Slice] as the library runs it

    The algorithm behind [sort.Slice] since Go 1.19: the
    pattern-defeating quicksort of [sort/zsortfunc.go], on the slice as
    a list and with the indices of the source.  [None] is an index out
    of range, which panics, or a loop cut off by its bound. *)
Module Sort.
Section Slice.
Context {A : Type}.
(** The comparison handed to [sort.Slice], on the elements at the two
    indices. *)
Variable less : A -> A -> bool.
(** The method [Next] of [xorshift]: the step of the generator
    [breakPatterns_func] draws its indices from, a function on [uint64]
    that is not the same in every release. *)
Variable xorshiftNext : Z -> Z.

(** [data.Less(i, j)] and [data.Swap(i, j)] *)
Definition Less (data : list A) (i j : nat) : option bool :=
  x ← data !! i; y ← data !! j; Some (less x y).

Definition Swap (data : list A) (i j : nat) : option (list A) :=
  x ← data !! i; y ← data !! j; Some (<[j := x]> (<[i := y]> data)).

(** The inner loop of [insertionSort_func]:
    [for j := i; j > a && data.Less(j, j-1); j-- { data.Swap(j, j-1) }] *)
Fixpoint insertionInner (data : list A) (a j : nat) : option (list A) :=
  match j with
  | O => Some data
  | S j' =>
      if decide (a < j)%nat then
        lt ← Less data j j';
        if lt : bool then data' ← Swap data j j'; insertionInner data' a j'
        else Some data
      else Some data
  end.

(** Its outer loop, [for i := a + 1; i < b; i++], with the number of
    rounds left. *)
Fixpoint insertionOuter (data : list A) (a i rounds : nat) : option (list A) :=
  match rounds with
  | O => Some data
  | S rounds' =>
      data' ← insertionInner data a i; insertionOuter data' a (S i) rounds'
  end.

(** [func insertionSort_func(data lessSwap, a, b int)] *)
Definition insertionSort_func (data : list A) (a b : nat) : option (list A) :=
  insertionOuter data a (a + 1) (b - (a + 1)).

(** [func siftDown_func(data lessSwap, lo, hi, first int)], [root]
    starting at [lo]. *)
Fixpoint siftDown_func (bound : nat) (data : list A) (root hi first : nat)
  : option (list A) :=
  match bound with
  | O => None
  | S bound' =>
      let child := (2 * root + 1)%nat in
      if decide (hi <= child)%nat then Some data
      else
        lt ← (if decide (child + 1 < hi)%nat
              then Less data (first + child) (first + child + 1)
              else Some false);
        let child := if lt : bool then (child + 1)%nat else child in
        down ← Less data (first + root) (first + child);
        if down : bool
        then data' ← Swap data (first + root) (first + child);
             siftDown_func bound' data' child hi first
        else Some data
  end.

(** The two loops of [heapSort_func], [i] running from [count - 1] down
    to [0]. *)
Fixpoint heapBuild (data : list A) (count hi first : nat) : option (list A) :=
  match count with
  | O => Some data
  | S i => data' ← siftDown_func (S hi) data i hi first; heapBuild data' i hi first
  end.

Fixpoint heapPop (data : list A) (count first : nat) : option (list A) :=
  match count with
  | O => Some data
  | S i =>
      data' ← Swap data first (first + i);
      data'' ← siftDown_func (S i) data' 0 i first;
      heapPop data'' i first
  end.

(** [func heapSort_func(data lessSwap, a, b int)] *)
Definition heapSort_func (data : list A) (a b : nat) : option (list A) :=
  let first := a in
  let hi := (b - a)%nat in
  data' ← heapBuild data ((hi - 1) / 2 + 1) hi first;
  heapPop data' hi first.

(** [bits.Len(uint(n))] *)
Definition bitsLen (n : nat) : nat :=
  match n with
  | O => O
  | S _ => S (Nat.log2 n)
  end.

(** [func breakPatterns_func(data lessSwap, a, b int)] *)
Definition breakPatterns_func (data : list A) (a b : nat) : option (list A) :=
  let length := (b - a)%nat in
  if decide (8 <= length)%nat then
    let modulus := 2 ^ Z.of_nat (bitsLen length) in
    let idx := (a + (length / 4) * 2 - 1)%nat in
    let other (random : Z) : nat :=
      let o := Z.to_nat (random mod modulus) in
      if decide (length <= o)%nat then (o - length)%nat else o in
    let r1 := xorshiftNext (Z.of_nat length) in
    let r2 := xorshiftNext r1 in
    let r3 := xorshiftNext r2 in
    data1 ← Swap data (idx - 1 + 0) (a + other r1);
    data2 ← Swap data1 (idx - 1 + 1) (a + other r2);
    Swap data2 (idx - 1 + 2) (a + other r3)
  else Some data.

Inductive sortedHint := unknownHint | increasingHint | decreasingHint.

(** [func order2_func(data lessSwap, a, b int, swaps *int) (int, int)],
    the counter threaded through. *)
Definition order2_func (data : list A) (a b swaps : nat)
  : option (nat * nat * nat) :=
  lt ← Less data b a;
  Some (if lt : bool then (b, a, S swaps) else (a, b, swaps)).

(** [func median_func(data lessSwap, a, b, c int, swaps *int) int] *)
Definition median_func (data : list A) (a b c swaps : nat) : option (nat * nat) :=
  '(a, b, swaps) ← order2_func data a b swaps;
  '(b, c, swaps) ← order2_func data b c swaps;
  '(a, b, swaps) ← order2_func data a b swaps;
  Some (b, swaps).

(** [func medianAdjacent_func(data lessSwap, a int, swaps *int) int] *)
Definition medianAdjacent_func (data : list A) (a swaps : nat)
  : option (nat * nat) :=
  median_func data (a - 1) a (a + 1) swaps.

(** [func choosePivot_func(data lessSwap, a, b int) (pivot int, hint sortedHint)] *)
Definition choosePivot_func (data : list A) (a b : nat)
  : option (nat * sortedHint) :=
  let l := (b - a)%nat in
  let i := (a + l / 4 * 1)%nat in
  let j := (a + l / 4 * 2)%nat in
  let k := (a + l / 4 * 3)%nat in
  '(j, swaps) ←
    (if decide (8 <= l)%nat then
       '(i, j, k, swaps) ←
         (if decide (50 <= l)%nat then
            '(i, swaps) ← medianAdjacent_func data i 0;
            '(j, swaps) ← medianAdjacent_func data j swaps;
            '(k, swaps) ← medianAdjacent_func data k swaps;
            Some (i, j, k, swaps)
          else Some (i, j, k, O));
       median_func data i j k swaps
     else Some (j, O));
  Some (j, if decide (swaps = 0)%nat then increasingHint
           else if decide (swaps = 12)%nat then decreasingHint
                else unknownHint).

(** [func reverseRange_func(data lessSwap, a, b int)] *)
Fixpoint reverseLoop (bound : nat) (data : list A) (i j : nat) : option (list A) :=
  match bound with
  | O => None
  | S bound' =>
      if decide (i < j)%nat
      then data' ← Swap data i j; reverseLoop bound' data' (S i) (j - 1)
      else Some data
  end.

Definition reverseRange_func (data : list A) (a b : nat) : option (list A) :=
  reverseLoop (S (b - a)) data a (b - 1).

(** The loops of [partialInsertionSort_func]:
    [for i < b && !data.Less(i, i-1) { i++ }], the shift of the smaller
    element to the left, [for j := i - 1; j >= 1; j--], and of the
    greater one to the right, [for j := i + 1; j < b; j++]. *)
Fixpoint skipOrdered (bound : nat) (data : list A) (i b : nat) : option nat :=
  match bound with
  | O => None
  | S bound' =>
      if decide (i < b)%nat then
        lt ← Less data i (i - 1);
        if lt : bool then Some i else skipOrdered bound' data (S i) b
      else Some i
  end.

Fixpoint shiftLeft (data : list A) (j : nat) : option (list A) :=
  match j with
  | O => Some data
  | S j' =>
      lt ← Less data j j';
      if lt : bool then data' ← Swap data j j'; shiftLeft data' j'
      else Some data
  end.

Fixpoint shiftRight (bound : nat) (data : list A) (j b : nat) : option (list A) :=
  match bound with
  | O => None
  | S bound' =>
      if decide (j < b)%nat then
        lt ← Less data j (j - 1);
        if lt : bool
        then data' ← Swap data j (j - 1); shiftRight bound' data' (S j) b
        else Some data
      else Some data
  end.

(** The loop [for j := 0; j < maxSteps; j++] with the steps left. *)
Fixpoint partialInsertionLoop (steps : nat) (data : list A) (a b i : nat)
  : option (list A * bool) :=
  match steps with
  | O => Some (data, false)
  | S steps' =>
      i ← skipOrdered (S (b - i)) data i b;
      if decide (i = b) then Some (data, true)
      else if decide (b - a < 50)%nat then Some (data, false)
      else
        data1 ← Swap data i (i - 1);
        data2 ← (if decide (2 <= i - a)%nat then shiftLeft data1 (i - 1)
                 else Some data1);
        data3 ← (if decide (2 <= b - i)%nat
                 then shiftRight (S (b - i)) data2 (i + 1) b
                 else Some data2);
        partialInsertionLoop steps' data3 a b i
  end.

(** [func partialInsertionSort_func(data lessSwap, a, b int) bool] *)
Definition partialInsertionSort_func (data : list A) (a b : nat)
  : option (list A * bool) :=
  partialInsertionLoop 5 data a b (a + 1).

(** The scans of [partition_func]:
    [for i <= j && data.Less(i, a) { i++ }] and
    [for i <= j && !data.Less(j, a) { j-- }]. *)
Fixpoint scanUp (bound : nat) (data : list A) (a i j : nat) : option nat :=
  match bound with
  | O => None
  | S bound' =>
      if decide (i <= j)%nat then
        lt ← Less data i a;
        if lt : bool then scanUp bound' data a (S i) j else Some i
      else Some i
  end.

Fixpoint scanDown (bound : nat) (data : list A) (a i j : nat) : option nat :=
  match bound with
  | O => None
  | S bound' =>
      if decide (i <= j)%nat then
        lt ← Less data j a;
        if lt : bool then Some j else scanDown bound' data a i (j - 1)
      else Some j
  end.

(** The loop [for { ... }] of [partition_func]: the slice and [j] when
    it breaks. *)
Fixpoint partitionLoop (bound : nat) (data : list A) (a i j : nat)
  : option (list A * nat) :=
  match bound with
  | O => None
  | S bound' =>
      i' ← scanUp (2 + (j - i)) data a i j;
      j' ← scanDown (2 + (j - i')) data a i' j;
      if decide (j' < i')%nat then Some (data, j')
      else data' ← Swap data i' j'; partitionLoop bound' data' a (S i') (j' - 1)
  end.

(** [func partition_func(data lessSwap, a, b, pivot int)
    (newpivot int, alreadyPartitioned bool)] *)
Definition partition_func (data : list A) (a b pivot : nat)
  : option (list A * nat * bool) :=
  data1 ← Swap data a pivot;
  i ← scanUp (S (b - a)) data1 a (a + 1) (b - 1);
  j ← scanDown (S (b - a)) data1 a i (b - 1);
  if decide (j < i)%nat then data2 ← Swap data1 j a; Some (data2, j, true)
  else
    data2 ← Swap data1 i j;
    '(data3, j') ← partitionLoop (S (b - a)) data2 a (S i) (j - 1);
    data4 ← Swap data3 j' a;
    Some (data4, j', false).

(** The scans of [partitionEqual_func]:
    [for i <= j && !data.Less(a, i) { i++ }] and
    [for i <= j && data.Less(a, j) { j-- }]. *)
Fixpoint scanUpEqual (bound : nat) (data : list A) (a i j : nat) : option nat :=
  match bound with
  | O => None
  | S bound' =>
      if decide (i <= j)%nat then
        lt ← Less data a i;
        if lt : bool then Some i else scanUpEqual bound' data a (S i) j
      else Some i
  end.

Fixpoint scanDownEqual (bound : nat) (data : list A) (a i j : nat) : option nat :=
  match bound with
  | O => None
  | S bound' =>
      if decide (i <= j)%nat then
        lt ← Less data a j;
        if lt : bool then scanDownEqual bound' data a i (j - 1) else Some j
      else Some j
  end.

Fixpoint partitionEqualLoop (bound : nat) (data : list A) (a i j : nat)
  : option (list A * nat) :=
  match bound with
  | O => None
  | S bound' =>
      i' ← scanUpEqual (2 + (j - i)) data a i j;
      j' ← scanDownEqual (2 + (j - i')) data a i' j;
      if decide (j' < i')%nat then Some (data, i')
      else data' ← Swap data i' j';
           partitionEqualLoop bound' data' a (S i') (j' - 1)
  end.

(** [func partitionEqual_func(data lessSwap, a, b, pivot int) (newpivot int)] *)
Definition partitionEqual_func (data : list A) (a b pivot : nat)
  : option (list A * nat) :=
  data1 ← Swap data a pivot;
  partitionEqualLoop (S (b - a)) data1 a (a + 1) (b - 1).

(** [func pdqsort_func(data lessSwap, a, b, limit int)]: one round of
    its loop, with the two flags the loop keeps; the call for the
    smaller part starts with both flags set. *)
Fixpoint pdqsort_func (bound : nat) (data : list A) (a b limit : nat)
    (wasBalanced wasPartitioned : bool) : option (list A) :=
  match bound with
  | O => None
  | S bound' =>
      let length := (b - a)%nat in
      if decide (length <= 12)%nat then insertionSort_func data a b
      else if decide (limit = 0)%nat then heapSort_func data a b
      else
        '(data1, limit) ←
          (if wasBalanced then Some (data, limit)
           else broken ← breakPatterns_func data a b;
                Some (broken, (limit - 1)%nat));
        '(pivot, hint) ← choosePivot_func data1 a b;
        '(data2, pivot, hint) ←
          (match hint with
           | decreasingHint =>
               reversed ← reverseRange_func data1 a b;
               Some (reversed, (b - 1 - (pivot - a))%nat, increasingHint)
           | _ => Some (data1, pivot, hint)
           end);
        '(data3, finished) ←
          (if wasBalanced && wasPartitioned
              && match hint with increasingHint => true | _ => false end
           then partialInsertionSort_func data2 a b
           else Some (data2, false));
        if finished : bool then Some data3
        else
          duplicates ←
            (if decide (0 < a)%nat
             then lt ← Less data3 (a - 1) pivot; Some (negb lt)
             else Some false);
          if duplicates : bool then
            '(data4, mid) ← partitionEqual_func data3 a b pivot;
            pdqsort_func bound' data4 mid b limit wasBalanced wasPartitioned
          else
            '(data4, mid, alreadyPartitioned) ← partition_func data3 a b pivot;
            let leftLen := (mid - a)%nat in
            let rightLen := (b - mid)%nat in
            let balanceThreshold := (length / 8)%nat in
            if decide (leftLen < rightLen)%nat then
              data5 ← pdqsort_func bound' data4 a mid limit true true;
              pdqsort_func bound' data5 (mid + 1) b limit
                           (bool_decide (balanceThreshold <= leftLen)%nat)
                           alreadyPartitioned
            else
              data5 ← pdqsort_func bound' data4 (mid + 1) b limit true true;
              pdqsort_func bound' data5 a mid limit
                           (bool_decide (balanceThreshold <= rightLen)%nat)
                           alreadyPartitioned
  end.

(** [func Slice(x any, less func(i, j int) bool)] *)
Definition Slice (data : list A) : option (list A) :=
  let n := length data in
  pdqsort_func (S n) data 0 n (bitsLen n) true true.

End Slice.
End Sort.

(** The sort stage as it runs: [sort.Slice] on [allPorts] with the
    comparison of the sort order. *)
Definition sortStageRun (xorshiftNext : Z -> Z) (sortOrder : string)
    (allPorts : list PortInfo) : option (list PortInfo) :=
  Sort.Slice (portLess sortOrder) xorshiftNext allPorts.

(** ** Vocabulary of the further statements *)

(** A byte that can stand in the encoding of a space rune. *)
Definition spaceByte (c : ascii) : bool :=
  Go.asciiSpace c || (128 <=? Go.byteOf c)%N.

(** The first [k] bytes of [s] are there and are not ASCII. *)
Fixpoint highPrefix (k : nat) (s : string) : bool :=
  match k with
  | O => true
  | S k' =>
      match s with
      | EmptyString => false
      | String c r => (128 <=? Go.byteOf c)%N && highPrefix k' r
      end
  end.

(** The line of an event without its line break. *)
Definition eventContent (unix : Z) (event p : string) : string :=
  Go.Itoa unix +:+ "," +:+ event +:+ "," +:+ p.

(** A home directory, and a run that can open and read its files, for
    the examples. *)
Definition aliceHome : option string := Some "/Users/alice"%string.

(** Of the folder entries of the editor's history, the decoded paths
    that can be listed and are neither in [seen] nor earlier among the
    entries. *)
Fixpoint eligible (openWindows notExist : string -> bool) (seen : gset string)
    (entries : list string) : list string :=
  match entries with
  | [] => []
  | folderURI :: rest =>
      let p := decodedPath folderURI in
      if decide (p ∈ seen) then eligible openWindows notExist seen rest
      else if openWindows p then eligible openWindows notExist seen rest
      else if notExist p then eligible openWindows notExist seen rest
      else p :: eligible openWindows notExist ({[ p ]} ∪ seen) rest
  end.

(** The number of paths a limit lets through: the loops stop after the
    first path once the limit is reached, so never before one path. *)
Definition roomFor (cursorHistoryLimit : Z) (listed : nat) : nat :=
  Z.to_nat (Z.max 1 (cursorHistoryLimit - Z.of_nat listed)).

(** Nothing is open in a window, and every path exists. *)
Definition noWindow (_ : string) : bool := false.
Definition allExist (_ : string) : bool := false.

(** Folder entries of the editor's history: one twice, one with an
    escaped space. *)
Definition sampleHistory : list string :=
  ["file:///p/b"; "file:///p/b"; "file:///p/c%20d"; "file:///p/e"]%string.

(** Of the records in the order of the table, those that get a row:
    the path is not the root and the key is neither in [seen] nor
    earlier in the list. *)
Fixpoint shownFirst (seen : gset string) (records : list PortInfo)
  : list PortInfo :=
  match records with
  | [] => []
  | r :: rest =>
      if bool_decide (Path r = "/") then shownFirst seen rest
      else if decide (hiddenKey r ∈ seen) then shownFirst seen rest
           else r :: shownFirst ({[ hiddenKey r ]} ∪ seen) rest
  end.

(** The ports the configuration does not hide. *)
Definition notHidden (config : Config) (ports : list PortInfo) : list PortInfo :=
  filter (fun port => isHidden config port = false) ports.

(** A configuration that hides nothing, and one that hides the port of
    the first sample record. *)
Definition noConfig : Config := mkConfig None.

Definition hideWeb : Config := mkConfig (Some {[ "3000-501"%string := true ]}).

(** The cursor is on a row of the list shown, or at the top when the
    list is empty. *)
Definition cursorOnRow (m : Interactive.model) : Prop :=
  0 <= Interactive.cursor m /\
  (Interactive.cursor m = 0 \/
   Interactive.cursor m < Z.of_nat (length (Interactive.getVisiblePorts m))).

(** The log of the scenario: a close of [/p/a] at 100, then an open at
    200. *)
Definition scenarioLog : string :=
  "100,close,/p/a" +:+ newline +:+ "200,open,/p/a" +:+ newline.

(** ** Lines of the listing *)

(** A byte of a column of the listing: ASCII and not white space. *)
Definition columnByte (c : ascii) : bool := negb (spaceByte c).

(** A column: one or more such bytes. *)
Definition isColumn (s : string) : bool :=
  negb (Go.isEmpty s) && Go.allBytes columnByte s.

(** The gap between two columns: one or more blanks. *)
Definition isGap (s : string) : bool :=
  negb (Go.isEmpty s) && Go.allBytes (fun c => Ascii.eqb c " ") s.

(** The text of columns that are each followed by a gap, and of a last
    column. *)
Fixpoint joinColumns (columns : list (string * string)) (lastColumn : string)
  : string :=
  match columns with
  | [] => lastColumn
  | (column, gap) :: rest => column +:+ gap +:+ joinColumns rest lastColumn
  end.

(** What [lsof -i -P -n] prints for a listening socket: the columns
    COMMAND, PID, USER, FD, TYPE, DEVICE, SIZE/OFF and NODE, then the
    name, which is the host, a colon and the port in decimal, and
    [(LISTEN)]; [lsGaps] are the blanks after each of the nine
    columns. *)
Record ListenLine := mkListenLine {
  lsCommand : string;
  lsPID : string;
  lsUser : string;
  lsFD : string;
  lsType : string;
  lsDevice : string;
  lsSize : string;
  lsNode : string;
  lsHost : string;
  lsPort : Z;
  lsGaps : list string
}.

Definition lsName (l : ListenLine) : string :=
  lsHost l +:+ ":" +:+ Go.Itoa (lsPort l).

Definition lsColumns (l : ListenLine) : list string :=
  [lsCommand l; lsPID l; lsUser l; lsFD l; lsType l; lsDevice l; lsSize l;
   lsNode l].

Definition listenText (l : ListenLine) : string :=
  joinColumns (zip (lsColumns l ++ [lsName l]) (lsGaps l)) "(LISTEN)".

(** The line is well formed: nine gaps, the eight columns before the
    name without a colon, and a TCP port. *)
Definition listenOk (l : ListenLine) : bool :=
  (length (lsGaps l) =? 9)%nat && forallb isGap (lsGaps l)
  && forallb (fun column => isColumn column && Go.freeOf ":" column) (lsColumns l)
  && isColumn (lsHost l)
  && (1 <=? lsPort l) && (lsPort l <=? 65535).

(** A line of the listing: one that does not mention [LISTEN] (the
    header, a connection, a UDP socket), or the line of a listening
    socket. *)
Definition listingLine (line : string) : Prop :=
  Go.Contains line "LISTEN" = false \/
  exists l, listenOk l = true /\ line = listenText l.

(** The record the parser should build from the line of a listening
    socket. *)
Definition listenRecord (l : ListenLine) : PortInfo :=
  {| Port := lsPort l; Command := lsCommand l; PID := lsPID l;
     User := lsUser l; Address := lsName l; Path := EmptyString;
     Uptime := EmptyString; UptimeSeconds := 0 |}.

(** The fields of a record the parser fills. *)
Definition parsedFields (r : PortInfo) : Z * string * string * string * string :=
  (Port r, Command r, PID r, User r, Address r).

(** One blank, and the two listening lines of [sampleListing]. *)
Definition blank : string := " ".

Definition sampleListen (fd type host : string) (port : Z) : ListenLine :=
  mkListenLine "node" "501" "alice" fd type "0x1234" "0t0" "TCP" host port
               (replicate 9 blank).

(** ** Vocabulary of the sort stage *)

(** The list with [x] put in: [rl] holds the elements before [x] from
    the last to the first, and [x] goes past those it is less than. *)
Fixpoint sink {A} (less : A -> A -> bool) (x : A) (rl : list A) : list A :=
  match rl with
  | [] => [x]
  | y :: rl' => if less x y then y :: sink less x rl' else x :: rl
  end.

(** The elements put in one after the other, the last first. *)
Definition sinkAll {A} (less : A -> A -> bool) (rl data : list A) : list A :=
  foldl (fun rl x => sink less x rl) rl data.

(** Twelve records of one uptime on the ports from 3000 on, and after
    them a record of a longer uptime. *)
Definition workerPort (i : nat) : PortInfo :=
  mkPortInfo (3000 + Z.of_nat i) (Go.Itoa (500 + Z.of_nat i)) "node"
             "127.0.0.1" "alice" "/Users/alice/app" "5m" 323.

Definition crowd : list PortInfo := (workerPort <$> seq 0 12) ++ [oldPort].

(** * Properties *)

(** ** The embedding at work *)
Section Examples.

Example Split_example : Go.Split "1:23:45" ":" = ["1"; "23"; "45"]%string.
Proof. reflexivity. Qed.

Example Fields_example :
  Go.Fields "node   501 alice  23u " = ["node"; "501"; "alice"; "23u"]%string.
Proof. reflexivity. Qed.

Example scanInt_example : Go.scanInt " 059 rest" = Some 59.
Proof. reflexivity. Qed.

Example layout_epoch : Clock.layout 0 = "1970-01-01 00:00:00"%string.
Proof. by vm_compute. Qed.

Example layout_leap_day : Clock.layout 951782400 = "2000-02-29 00:00:00"%string.
Proof. by vm_compute. Qed.

Example formatUptime_days : formatUptime "3-12:34:56" = ("84h"%string, 304496).
Proof. by vm_compute. Qed.

Example parseOutput_sample :
  parseOutput sampleListing
  = [ {| Port := 3000; PID := "501"; Command := "node";
         Address := "127.0.0.1:3000"; User := "alice"; Path := EmptyString;
         Uptime := EmptyString; UptimeSeconds := 0 |};
      {| Port := 9229; PID := "501"; Command := "node";
         Address := "127.0.0.1:9229"; User := "alice"; Path := EmptyString;
         Uptime := EmptyString; UptimeSeconds := 0 |} ].
Proof. by vm_compute. Qed.

Example Base_example : Base "/Users/alice/app" = "app"%string.
Proof. by vm_compute. Qed.

End Examples.


(** ** Facts about strings *)
Section StringFacts.

Lemma app_cons c (a b : string) : String c a +:+ b = String c (a +:+ b).
Proof. reflexivity. Qed.

Lemma app_empty_l (b : string) : EmptyString +:+ b = b.
Proof. reflexivity. Qed.

Lemma app_empty_r (a : string) : a +:+ EmptyString = a.
Proof. induction a as [|c a IH]; [done|]. by rewrite app_cons, IH. Qed.

Lemma app_assoc_str (a b c : string) : (a +:+ b) +:+ c = a +:+ (b +:+ c).
Proof. induction a as [|x a IH]; [done|]. by rewrite !app_cons, IH. Qed.

Lemma length_app_str (a b : string) :
  String.length (a +:+ b) = (String.length a + String.length b)%nat.
Proof. induction a as [|x a IH]; [done|]. rewrite app_cons. simpl. by rewrite IH. Qed.

Lemma length_substring0 (n : nat) (s : string) :
  (n <= String.length s)%nat -> String.length (String.substring 0 n s) = n.
Proof.
  revert s. induction n as [|n IH]; intros [|c s] Hn; simpl in *; try lia; try done.
  rewrite IH; lia.
Qed.

Lemma allBytes_app p (a b : string) :
  Go.allBytes p (a +:+ b) = Go.allBytes p a && Go.allBytes p b.
Proof.
  induction a as [|x a IH]; [done|].
  rewrite app_cons. simpl. rewrite IH. by rewrite andb_assoc.
Qed.

Lemma allBytes_weaken (p q : ascii -> bool) (s : string) :
  (forall c, p c = true -> q c = true) ->
  Go.allBytes p s = true -> Go.allBytes q s = true.
Proof.
  intros Hpq. induction s as [|c s IH]; [done|]. simpl.
  intros [Hc Hs]%andb_true_iff. rewrite (Hpq _ Hc). simpl. auto.
Qed.

Lemma Split_free (s : string) (c : ascii) :
  Go.freeOf c s = true -> Go.Split s c = [s].
Proof.
  unfold Go.freeOf. induction s as [|x s IH]; [done|]. simpl.
  intros [Hx Hs]%andb_true_iff. apply negb_true_iff in Hx. rewrite Hx.
  by rewrite (IH Hs).
Qed.

Lemma Split_app (a b : string) (c : ascii) :
  Go.freeOf c a = true ->
  Go.Split (a +:+ String c b) c = a :: Go.Split b c.
Proof.
  unfold Go.freeOf. induction a as [|x a IH].
  - intros _. rewrite app_empty_l. simpl. by rewrite Ascii.eqb_refl.
  - intros [Hx Ha]%andb_true_iff. apply negb_true_iff in Hx.
    rewrite app_cons. cbn [Go.Split]. rewrite Hx. by rewrite (IH Ha).
Qed.

Lemma Split_not_nil (s : string) (c : ascii) : Go.Split s c <> [].
Proof.
  destruct s as [|x s]; [done|]. simpl.
  destruct (Ascii.eqb x c); [done|]. by destruct (Go.Split s c).
Qed.

Lemma Contains_byte (s : string) (c : ascii) :
  Go.Contains s (String c EmptyString) = negb (Go.freeOf c s).
Proof.
  unfold Go.freeOf. induction s as [|x s IH]; [done|].
  simpl. rewrite IH. unfold Go.HasPrefix. simpl.
  destruct (ascii_dec c x) as [->|Hne].
  - rewrite Ascii.eqb_refl. simpl. by destruct s.
  - assert (Ascii.eqb x c = false) as -> by (apply Ascii.eqb_neq; congruence).
    done.
Qed.

End StringFacts.

(** ** Facts about integers and digits *)
Section NumberFacts.

Lemma wrapInt_id (z : Z) : Go.isInt z -> Go.wrapInt z = z.
Proof.
  unfold Go.isInt, Go.wrapInt, Go.minInt, Go.maxInt. intros Hz.
  rewrite Z.mod_small; lia.
Qed.

Lemma intAdd_exact (x y : Z) : Go.isInt (x + y) -> intAdd x y = x + y.
Proof. apply wrapInt_id. Qed.

Lemma intMul_exact (x y : Z) : Go.isInt (x * y) -> intMul x y = x * y.
Proof. apply wrapInt_id. Qed.

Lemma isDigit_range (c : ascii) :
  Go.isDigit c = true -> (48 <= Go.byteOf c <= 57)%N.
Proof.
  unfold Go.isDigit. intros [H1 H2]%andb_true_iff.
  apply N.leb_le in H1, H2. lia.
Qed.

Lemma digitVal_range (c : ascii) :
  Go.isDigit c = true -> 0 <= Go.digitVal c <= 9.
Proof. intros H%isDigit_range. unfold Go.digitVal. lia. Qed.

Lemma isDigit_cases (c : ascii) :
  Go.isDigit c = true ->
  c ∈ ["0"; "1"; "2"; "3"; "4"; "5"; "6"; "7"; "8"; "9"]%char.
Proof.
  destruct c as [[] [] [] [] [] [] [] []]; intros H;
    try (by vm_compute in H); set_solver.
Qed.

Lemma digitsValueFrom_ge (s : string) (acc : Z) :
  Go.allDigits s = true -> 0 <= acc -> acc <= Go.digitsValueFrom acc s.
Proof.
  unfold Go.allDigits. revert acc.
  induction s as [|c s IH]; intros acc Hs Hacc; simpl in *; [lia|].
  apply andb_true_iff in Hs as [Hc Hs]. apply digitVal_range in Hc.
  specialize (IH (acc * 10 + Go.digitVal c) Hs). lia.
Qed.

Lemma digitsValue_nonneg (s : string) :
  Go.allDigits s = true -> 0 <= Go.digitsValue s.
Proof. intros Hs. by apply (digitsValueFrom_ge s 0). Qed.

Lemma span_allBytes p (s : string) :
  Go.allBytes p s = true -> Go.span p s = (s, EmptyString).
Proof.
  induction s as [|c s IH]; [done|]. simpl.
  intros [Hc Hs]%andb_true_iff. by rewrite Hc, (IH Hs).
Qed.

Lemma isGroup_inv (g : string) :
  isGroup g = true ->
  exists c r, g = String c r /\ Go.isDigit c = true /\ Go.allDigits r = true.
Proof.
  unfold isGroup, Go.allDigits. destruct g as [|c r]; [done|]. simpl.
  intros [Hc Hr]%andb_true_iff. eauto.
Qed.

Lemma isGroup_allDigits (g : string) : isGroup g = true -> Go.allDigits g = true.
Proof. unfold isGroup. by intros [_ ?]%andb_true_iff. Qed.

Lemma spaceWidth_digit (c : ascii) (r : string) :
  Go.isDigit c = true -> Go.spaceWidth (String c r) = 0%nat.
Proof.
  intros Hc%isDigit_cases.
  each_elem Hc ltac:(by destruct r as [|c2 [|c3 r3]]).
Qed.

Lemma skipSpace_digit (c : ascii) (r : string) :
  Go.isDigit c = true -> Go.skipSpace (String c r) 0 = Some (String c r).
Proof.
  intros Hc. cbn [Go.skipSpace]. rewrite (spaceWidth_digit c r Hc).
  apply isDigit_range in Hc.
  destruct (N.eqb_spec (Go.byteOf c) 10) as [E|_]; [lia|done].
Qed.

Lemma splitSign_digit (c : ascii) (r : string) :
  Go.isDigit c = true -> Go.splitSign (String c r) = (EmptyString, String c r).
Proof.
  intros Hc%isDigit_cases. each_elem Hc ltac:(done).
Qed.

(** Parsing a numeric group gives its value when that fits an [int]. *)
Lemma ParseInt_group (g : string) :
  isGroup g = true -> Go.digitsValue g <= Go.maxInt ->
  Go.ParseInt g = Some (Go.digitsValue g).
Proof.
  intros Hg Hmax. pose proof (isGroup_allDigits g Hg) as Hall.
  destruct (isGroup_inv g Hg) as (c & r & -> & Hc & Hr).
  unfold Go.ParseInt. rewrite (splitSign_digit c r Hc), Hall.
  cbn [Go.isEmpty orb negb]. rewrite bool_decide_false by done.
  apply Z.leb_le in Hmax. by rewrite Hmax.
Qed.

(** Scanning a numeric group with [%d] reads its value. *)
Lemma scanInt_group (g : string) :
  isGroup g = true -> Go.digitsValue g <= Go.maxInt ->
  Go.scanInt g = Some (Go.digitsValue g).
Proof.
  intros Hg Hmax. pose proof (isGroup_allDigits g Hg) as Hall.
  destruct (isGroup_inv g Hg) as (c & r & -> & Hc & Hr).
  unfold Go.scanInt. rewrite (skipSpace_digit c r Hc), (splitSign_digit c r Hc).
  rewrite (span_allBytes _ _ Hall). cbn [Go.isEmpty]. rewrite app_empty_l.
  by apply ParseInt_group.
Qed.

Lemma Sscanf_group (g : string) (old : Z) :
  isGroup g = true -> Go.digitsValue g <= Go.maxInt ->
  Go.Sscanf_d g old = Go.digitsValue g.
Proof. intros Hg Hmax. unfold Go.Sscanf_d. by rewrite scanInt_group. Qed.

End NumberFacts.

(** ** Uptime formatter *)
Section Uptime.

(** Without overflow the label and the seconds are those of the
    specification's arithmetic. *)
Lemma uptimeLabel_exact (days hours minutes seconds : Z) :
  0 <= days -> 0 <= hours -> 0 <= minutes -> 0 <= seconds ->
  days * 86400 + hours * 3600 + minutes * 60 + seconds <= Go.maxInt ->
  uptimeLabel days hours minutes seconds =
    (tierLabel (days * 24 + hours) minutes,
     days * 86400 + hours * 3600 + minutes * 60 + seconds).
Proof.
  intros Hd Hh Hm Hs Hmax. unfold uptimeLabel, tierLabel.
  assert (Hr : forall z, 0 <= z <= Go.maxInt -> Go.isInt z)
    by (unfold Go.isInt, Go.minInt, Go.maxInt; lia).
  unfold Go.maxInt in *.
  rewrite (intMul_exact days 86400) by (apply Hr; lia).
  rewrite (intMul_exact hours 3600) by (apply Hr; lia).
  rewrite (intMul_exact minutes 60) by (apply Hr; lia).
  rewrite (intMul_exact days 24) by (apply Hr; lia).
  rewrite (intAdd_exact (days * 86400)) by (apply Hr; lia).
  rewrite (intAdd_exact (days * 86400 + hours * 3600)) by (apply Hr; lia).
  rewrite (intAdd_exact (days * 86400 + hours * 3600 + minutes * 60))
    by (apply Hr; lia).
  rewrite (intAdd_exact (days * 24)) by (apply Hr; lia).
  rewrite (intMul_exact (days * 24 + hours)) by (apply Hr; lia).
  rewrite (intAdd_exact ((days * 24 + hours) * 60)) by (apply Hr; lia).
  rewrite Z.quot_div_nonneg by lia. by repeat case_match.
Qed.

Lemma digit_not_dash (c : ascii) :
  Go.isDigit c = true -> negb (Ascii.eqb c "-") = true.
Proof.
  intros Hc%isDigit_range. apply negb_true_iff, Ascii.eqb_neq.
  intros ->. vm_compute in Hc. destruct Hc as [Hc _]. by apply Hc.
Qed.

Lemma digit_not_colon (c : ascii) :
  Go.isDigit c = true -> negb (Ascii.eqb c ":") = true.
Proof.
  intros Hc%isDigit_range. apply negb_true_iff, Ascii.eqb_neq.
  intros ->. vm_compute in Hc. destruct Hc as [_ Hc]. by apply Hc.
Qed.

Lemma group_free_dash (g : string) : isGroup g = true -> Go.freeOf "-" g = true.
Proof.
  intros Hg%isGroup_allDigits. revert Hg. apply allBytes_weaken, digit_not_dash.
Qed.

Lemma group_free_colon (g : string) : isGroup g = true -> Go.freeOf ":" g = true.
Proof.
  intros Hg%isGroup_allDigits. revert Hg. apply allBytes_weaken, digit_not_colon.
Qed.

Lemma freeOf_app (c : ascii) (a b : string) :
  Go.freeOf c (a +:+ b) = Go.freeOf c a && Go.freeOf c b.
Proof. apply allBytes_app. Qed.

(** The text after the days prefix splits into its groups. *)
Lemma Split_clock (hours : option string) (minutes seconds : string) :
  isOptGroup hours = true -> isGroup minutes = true -> isGroup seconds = true ->
  Go.Split (match hours with Some h => h +:+ ":" | None => EmptyString end
            +:+ minutes +:+ ":" +:+ seconds) ":"
  = match hours with
    | Some h => [h; minutes; seconds]
    | None => [minutes; seconds]
    end.
Proof.
  intros Hh Hm Hs.
  assert (Hms : Go.Split (minutes +:+ ":" +:+ seconds) ":" = [minutes; seconds]).
  { change (minutes +:+ ":" +:+ seconds) with (minutes +:+ String ":" seconds).
    rewrite Split_app by by apply group_free_colon.
    by rewrite Split_free by by apply group_free_colon. }
  destruct hours as [h|]; [|done].
  rewrite app_assoc_str.
  change (":" +:+ minutes +:+ ":" +:+ seconds)
    with (String ":" (minutes +:+ ":" +:+ seconds)).
  rewrite Split_app by by apply group_free_colon. by rewrite Hms.
Qed.

Lemma clock_free_dash (hours : option string) (minutes seconds : string) :
  isOptGroup hours = true -> isGroup minutes = true -> isGroup seconds = true ->
  Go.freeOf "-" (match hours with Some h => h +:+ ":" | None => EmptyString end
                 +:+ minutes +:+ ":" +:+ seconds) = true.
Proof.
  intros Hh Hm Hs. rewrite !freeOf_app.
  rewrite (group_free_dash _ Hm), (group_free_dash _ Hs).
  destruct hours as [h|]; [|done].
  rewrite freeOf_app, (group_free_dash _ Hh). done.
Qed.

(** What [formatUptime] returns on a text of the elapsed-time format. *)
Lemma formatUptime_etimeText (days hours : option string) (minutes seconds : string) :
  isOptGroup days = true -> isOptGroup hours = true ->
  isGroup minutes = true -> isGroup seconds = true ->
  groupValue days * 86400 + groupValue hours * 3600
    + Go.digitsValue minutes * 60 + Go.digitsValue seconds <= Go.maxInt ->
  formatUptime (etimeText days hours minutes seconds) =
    (tierLabel (groupValue days * 24 + groupValue hours) (Go.digitsValue minutes),
     groupValue days * 86400 + groupValue hours * 3600
       + Go.digitsValue minutes * 60 + Go.digitsValue seconds).
Proof.
  intros Hd Hh Hm Hs Hmax.
  pose proof (digitsValue_nonneg _ (isGroup_allDigits _ Hm)) as Hm0.
  pose proof (digitsValue_nonneg _ (isGroup_allDigits _ Hs)) as Hs0.
  assert (Hd0 : 0 <= groupValue days).
  { destruct days; simpl; [by apply digitsValue_nonneg, isGroup_allDigits|lia]. }
  assert (Hh0 : 0 <= groupValue hours).
  { destruct hours; simpl; [by apply digitsValue_nonneg, isGroup_allDigits|lia]. }
  pose proof (Split_clock hours minutes seconds Hh Hm Hs) as Hsplit.
  pose proof (clock_free_dash hours minutes seconds Hh Hm Hs) as Hfree.
  unfold etimeText, formatUptime.
  set (clock := match hours with Some h => h +:+ ":" | None => EmptyString end
                +:+ minutes +:+ ":" +:+ seconds) in *.
  assert (Hstep :
    (if Go.Contains (match days with Some d => d +:+ "-" | None => EmptyString end
                     +:+ clock) "-"
     then (Go.Sscanf_d (nth 0 (Go.Split (match days with Some d => d +:+ "-"
                                                     | None => EmptyString end
                                         +:+ clock) "-") EmptyString) 0,
           nth 1 (Go.Split (match days with Some d => d +:+ "-"
                                       | None => EmptyString end
                           +:+ clock) "-") EmptyString)
     else (0, match days with Some d => d +:+ "-" | None => EmptyString end
              +:+ clock))
    = (groupValue days, clock)).
  { destruct days as [d|]; cbn [groupValue isOptGroup] in *.
    - rewrite app_assoc_str. change ("-" +:+ clock) with (String "-" clock).
      rewrite Contains_byte, freeOf_app. cbn [Go.freeOf Go.allBytes].
      rewrite Ascii.eqb_refl. cbn [negb andb]. rewrite andb_false_r. cbn [negb].
      rewrite Split_app by by apply group_free_dash.
      rewrite Split_free by done. cbn [nth].
      rewrite Sscanf_group; [done|done|lia].
    - rewrite app_empty_l, Contains_byte, Hfree. done. }
  rewrite Hstep, Hsplit.
  destruct hours as [h|]; cbn [groupValue isOptGroup] in *.
  - rewrite !Sscanf_group by (done || lia).
    apply uptimeLabel_exact; lia.
  - rewrite !Sscanf_group by (done || lia).
    rewrite (uptimeLabel_exact (groupValue days) 0) by lia.
    do 2 f_equal; lia.
Qed.

(** C4, as the code has it: on every well-formed elapsed time (numeric
    groups) whose total of seconds is in the range of [int],
    [formatUptime] returns the minutes label below three hours, the days
    label from two hundred hours on and the hours label between, with
    the total of seconds; and the four boundary values of the
    specification. *)
Theorem formatUptime_tiers :
  (forall (days hours : option string) (minutes seconds : string),
      isOptGroup days = true -> isOptGroup hours = true ->
      isGroup minutes = true -> isGroup seconds = true ->
      let d := groupValue days in
      let h := groupValue hours in
      let m := Go.digitsValue minutes in
      let s := Go.digitsValue seconds in
      let totalHours := d * 24 + h in
      d * 86400 + h * 3600 + m * 60 + s <= Go.maxInt ->
      formatUptime (etimeText days hours minutes seconds) =
        (if totalHours <? 3 then Go.Itoa (totalHours * 60 + m) +:+ "m"
         else if 200 <=? totalHours then Go.Itoa (totalHours / 24) +:+ "d"
              else Go.Itoa totalHours +:+ "h",
         d * 86400 + h * 3600 + m * 60 + s)) /\
  formatUptime "2:59:59" = ("179m", 10799) /\
  formatUptime "3:00:00" = ("3h", 10800) /\
  formatUptime "199:00:00" = ("199h", 716400) /\
  formatUptime "200:00:00" = ("8d", 720000).
Proof.
  split; [|by vm_compute].
  intros days hours minutes seconds Hd Hh Hm Hs d h m s totalHours Hmax.
  by apply formatUptime_etimeText.
Qed.

(** A well-formed elapsed time with a days prefix, in the hours tier. *)
Lemma formatUptime_tiers_witness :
  formatUptime "3-12:34:56" = ("84h", 304496).
Proof.
  exact (proj1 formatUptime_tiers (Some "3") (Some "12") "34" "56"
           eq_refl eq_refl eq_refl eq_refl ltac:(by vm_compute)).
Defined.

(** C4 as stated fails beyond the range of [int]: of a well-formed
    elapsed time of 2562047788015216 hours the seconds wrap to a
    negative number that is not the total, and a group of twenty digits
    is not scanned at all, so that the hours count as zero and the
    minutes label is returned. *)
Lemma formatUptime_total_wraps :
  isGroup "2562047788015216" = true /\
  isGroup "99999999999999999999" = true /\
  (formatUptime (etimeText None (Some "2562047788015216") "00" "00")
   = ("106751991167300d", -9223372036854774016)) /\
  ((formatUptime (etimeText None (Some "2562047788015216") "00" "00")).2
   <> Go.digitsValue "2562047788015216" * 3600) /\
  (formatUptime (etimeText None (Some "99999999999999999999") "00" "00")
   = ("0m", 0)) /\
  (tierLabel (Go.digitsValue "99999999999999999999") 0
   = "4166666666666666666d"%string).
Proof. repeat split; by vm_compute. Qed.

(** Without a dash in it, a text that does not split into two or three
    groups comes back unchanged with zero seconds. *)
Lemma formatUptime_passthrough (etime : string) :
  Go.freeOf "-" etime = true ->
  length (Go.Split etime ":") <> 2%nat ->
  length (Go.Split etime ":") <> 3%nat ->
  formatUptime etime = (etime, 0).
Proof.
  intros Hfree H2 H3. unfold formatUptime.
  rewrite Contains_byte, Hfree. cbn [negb].
  destruct (Go.Split etime ":") as [|a [|b [|c [|e l]]]]; simpl in *; done.
Qed.

(** C5: with a days prefix before a malformed remainder the text that
    comes back is the remainder, not the input. *)
Theorem formatUptime_days_prefix_not_passed_through :
  formatUptime "3-12" = ("12", 0) /\ formatUptime "3-12" <> ("3-12", 0).
Proof. split; by vm_compute. Qed.

End Uptime.

(** ** Table helpers *)
Section Truncate.

(** C10: for [maxLen >= 3], [truncate] returns [s] when it fits and
    otherwise its first [maxLen-3] bytes followed by three dots, a
    result never longer than [maxLen]; for [maxLen < 3] and a longer
    [s] the slice expression panics. *)
Theorem truncate_total_from_3 (s : string) (maxLen : Z) :
  Go.isInt maxLen -> Go.len s + 3 <= Go.maxInt ->
  (3 <= maxLen ->
     (Go.len s <= maxLen -> truncate s maxLen = Some s) /\
     (maxLen < Go.len s ->
        truncate s maxLen
        = Some (String.substring 0 (Z.to_nat (maxLen - 3)) s +:+ "...")) /\
     (exists r, truncate s maxLen = Some r /\ Go.len r <= maxLen)) /\
  (maxLen < 3 -> maxLen < Go.len s -> truncate s maxLen = None).
Proof.
  unfold Go.isInt, Go.minInt, Go.maxInt, Go.len. intros Hint Hlen.
  unfold truncate, Go.len. split.
  - intros H3.
    assert (Hw : Go.wrapInt (maxLen - 3) = maxLen - 3).
    { apply wrapInt_id. unfold Go.isInt, Go.minInt, Go.maxInt. lia. }
    assert (Hlong : maxLen < Z.of_nat (String.length s) ->
              (if Z.of_nat (String.length s) <=? maxLen then Some s
               else if (0 <=? Go.wrapInt (maxLen - 3))
                       && (Go.wrapInt (maxLen - 3) <=? Z.of_nat (String.length s))
                    then Some (String.substring 0 (Z.to_nat (Go.wrapInt (maxLen - 3))) s
                               +:+ "...")
                    else None)
              = Some (String.substring 0 (Z.to_nat (maxLen - 3)) s +:+ "...")).
    { intros Hlt. rewrite Hw.
      destruct (Z.leb_spec (Z.of_nat (String.length s)) maxLen); [lia|].
      destruct (Z.leb_spec 0 (maxLen - 3)); [|lia].
      destruct (Z.leb_spec (maxLen - 3) (Z.of_nat (String.length s))); [|lia].
      done. }
    split; [|split].
    + intros Hle. by destruct (Z.leb_spec (Z.of_nat (String.length s)) maxLen); [|lia].
    + done.
    + destruct (Z_le_gt_dec (Z.of_nat (String.length s)) maxLen) as [Hle|Hgt].
      * exists s. split; [|done].
        by destruct (Z.leb_spec (Z.of_nat (String.length s)) maxLen); [|lia].
      * eexists. split; [apply Hlong; lia|].
        rewrite length_app_str, length_substring0 by lia. simpl. lia.
  - intros H3 Hlt.
    destruct (Z.leb_spec (Z.of_nat (String.length s)) maxLen); [lia|].
    destruct (Z_le_gt_dec (-9223372036854775808) (maxLen - 3)) as [Hin|Hout].
    + rewrite wrapInt_id by (unfold Go.isInt, Go.minInt, Go.maxInt; lia).
      by destruct (Z.leb_spec 0 (maxLen - 3)); [lia|].
    + assert (Go.wrapInt (maxLen - 3) = maxLen - 3 + 2 ^ 64) as ->.
      { unfold Go.wrapInt.
        replace (maxLen - 3 + 2 ^ 63) with (maxLen - 3 + 2 ^ 64 + 2 ^ 63 + -1 * 2 ^ 64)
          by lia.
        rewrite Z.mod_add by lia. rewrite Z.mod_small; lia. }
      destruct (Z.leb_spec (maxLen - 3 + 2 ^ 64) (Z.of_nat (String.length s))); [lia|].
      by rewrite andb_false_r.
Qed.

(** A text too long for eight bytes is cut to five bytes and three dots;
    for two bytes the slice expression panics. *)
Lemma truncate_total_from_3_witness :
  truncate "hello world" 8 = Some "hello..." /\ truncate "hello world" 2 = None.
Proof.
  pose proof (truncate_total_from_3 "hello world" 8
                ltac:(by vm_compute) ltac:(by vm_compute)) as [H8 _].
  pose proof (truncate_total_from_3 "hello world" 2
                ltac:(by vm_compute) ltac:(by vm_compute)) as [_ H2].
  split.
  - exact (proj1 (proj2 (H8 ltac:(lia))) ltac:(by vm_compute)).
  - exact (H2 ltac:(lia) ltac:(by vm_compute)).
Defined.

End Truncate.

(** ** Decimal rendering *)
Section Decimal.

Lemma pretty_N_char_digit (y : N) : Go.isDigit (pretty_N_char y) = true.
Proof.
  destruct (decide (y < 9)%N) as [Hlt|Hge].
  - assert (y = 0 \/ y = 1 \/ y = 2 \/ y = 3 \/ y = 4 \/ y = 5 \/ y = 6
            \/ y = 7 \/ y = 8)%N as Hy by lia.
    repeat (destruct Hy as [->|Hy]; [done|]). by subst.
  - destruct y as [|p]; [lia|].
    do 4 (destruct p as [p|p|]; try lia; try done).
Qed.

Lemma pretty_N_go_bytes (p : ascii -> bool) (x : N) (s : string) :
  (forall c, Go.isDigit c = true -> p c = true) ->
  Go.allBytes p s = true -> Go.allBytes p (pretty_N_go x s) = true.
Proof.
  intros Hp. revert s.
  induction (N.lt_wf_0 x) as [x _ IH]. intros s Hs.
  destruct (decide (0 < x)%N) as [Hpos|Hzero].
  - rewrite pretty_N_go_step by done. apply IH.
    + by apply N.div_lt.
    + simpl. by rewrite Hp, Hs by apply pretty_N_char_digit.
  - assert (x = 0%N) as -> by lia. by rewrite pretty_N_go_0.
Qed.

Lemma pretty_N_bytes (p : ascii -> bool) (x : N) :
  (forall c, Go.isDigit c = true -> p c = true) ->
  Go.allBytes p (pretty x) = true.
Proof.
  intros Hp. unfold pretty, pretty_N. case_decide.
  - simpl. by rewrite Hp.
  - by apply pretty_N_go_bytes.
Qed.

(** [%d] prints digits, after a minus sign for a negative number. *)
Lemma Itoa_bytes (z : Z) : Go.allBytes isDecimalByte (Go.Itoa z) = true.
Proof.
  assert (Hd : forall c, Go.isDigit c = true -> isDecimalByte c = true).
  { intros c Hc. unfold isDecimalByte. by rewrite Hc. }
  unfold Go.Itoa, pretty, pretty_Z. destruct z as [|p|p].
  - done.
  - by apply pretty_N_bytes.
  - change ("-" +:+ pretty (N.pos p)) with (String "-" (pretty (N.pos p))).
    simpl. by apply pretty_N_bytes.
Qed.

Lemma Itoa_free (c : ascii) (z : Z) :
  isDecimalByte c = false -> Go.freeOf c (Go.Itoa z) = true.
Proof.
  intros Hc. apply (allBytes_weaken isDecimalByte); [|apply Itoa_bytes].
  intros x Hx. apply negb_true_iff, Ascii.eqb_neq. by intros ->; congruence.
Qed.

Lemma Itoa_inj (x y : Z) : Go.Itoa x = Go.Itoa y -> x = y.
Proof. apply pretty_Z_inj. Qed.

(** A text cut at the first occurrence of a byte is cut in one way. *)
Lemma app_sep_inj (c : ascii) (a a' b b' : string) :
  Go.freeOf c a = true -> Go.freeOf c a' = true ->
  a +:+ String c b = a' +:+ String c b' -> a = a' /\ b = b'.
Proof.
  unfold Go.freeOf. revert a'.
  induction a as [|x a IH]; intros [|x' a'] Ha Ha' Heq; simpl in *.
  - rewrite !app_empty_l in Heq. by simplify_eq.
  - rewrite app_empty_l, app_cons in Heq. simplify_eq.
    by rewrite Ascii.eqb_refl in Ha'.
  - rewrite app_empty_l, app_cons in Heq. simplify_eq.
    by rewrite Ascii.eqb_refl in Ha.
  - rewrite !app_cons in Heq. injection Heq as -> Heq.
    apply andb_true_iff in Ha as [_ Ha]. apply andb_true_iff in Ha' as [_ Ha'].
    destruct (IH a' Ha Ha' Heq) as [-> ->]. done.
Qed.

Lemma parseKey_inj (p p' : Z) (pid pid' : string) :
  parseKey p pid = parseKey p' pid' -> p = p' /\ pid = pid'.
Proof.
  unfold parseKey. intros Heq.
  change (":" +:+ pid) with (String ":" pid) in Heq.
  change (":" +:+ pid') with (String ":" pid') in Heq.
  apply app_sep_inj in Heq as [Hp ->]; [|by apply Itoa_free..].
  split; [by apply Itoa_inj|done].
Qed.

End Decimal.

(** ** Listing parser *)
Section Parser.

(** A step of the parser adds the record of the line unless its key was
    seen. *)
Lemma parseStep_lineRecord (seen : gset string) (ports : list PortInfo)
    (line : string) :
  parseStep (seen, ports) line =
    match lineRecord line with
    | None => (seen, ports)
    | Some r =>
        if decide (parseKey (Port r) (PID r) ∈ seen) then (seen, ports)
        else ({[ parseKey (Port r) (PID r) ]} ∪ seen, ports ++ [r])
    end.
Proof.
  unfold lineRecord, parseStep.
  destruct (negb (Go.Contains line "LISTEN")); [done|].
  destruct (length (Go.Fields line) <? 10)%nat; [done|].
  destruct (findPort line) as [digits|]; [|done].
  destruct (Go.Atoi digits) as [port|]; [|done].
  destruct (decide (_ ∈ (∅ : gset string))) as [Hin|_];
    [by apply elem_of_empty in Hin|].
  done.
Qed.

Lemma parseLoop_keepFirst (lines : list string) (seen : gset string)
    (ports : list PortInfo) :
  (foldl parseStep (seen, ports) lines).2
  = ports ++ keepFirst seen (omap lineRecord lines).
Proof.
  revert seen ports. induction lines as [|line lines IH]; intros seen ports.
  - simpl. by rewrite app_nil_r.
  - cbn [foldl]. rewrite parseStep_lineRecord.
    change (omap lineRecord (line :: lines))
      with (match lineRecord line with
            | Some y => y :: omap lineRecord lines
            | None => omap lineRecord lines
            end).
    destruct (lineRecord line) as [r|]; [|apply IH].
    cbn [keepFirst]. case_decide; [apply IH|].
    rewrite IH. by rewrite <- app_assoc.
Qed.

Lemma parseOutput_keepFirst (output : string) :
  parseOutput output = keepFirst ∅ (lineRecords output).
Proof. unfold parseOutput. by rewrite parseLoop_keepFirst. Qed.

Lemma keepFirst_fresh (records : list PortInfo) (seen : gset string) (r : PortInfo) :
  r ∈ keepFirst seen records -> parseKey (Port r) (PID r) ∉ seen.
Proof.
  revert seen. induction records as [|c rest IH]; intros seen Hr; simpl in Hr.
  - by apply elem_of_nil in Hr.
  - case_decide as Hc; [by apply IH|].
    apply elem_of_cons in Hr as [->|Hr]; [done|].
    apply IH in Hr. set_solver.
Qed.

Lemma keepFirst_NoDup (records : list PortInfo) (seen : gset string) :
  NoDup (portPid <$> keepFirst seen records).
Proof.
  revert seen. induction records as [|c rest IH]; intros seen; simpl.
  - constructor.
  - case_decide as Hc; [apply IH|].
    rewrite fmap_cons. constructor; [|apply IH].
    intros (r & Heq & Hr)%list_elem_of_fmap.
    apply keepFirst_fresh in Hr. unfold portPid in Heq.
    injection Heq as Hp Hpid. rewrite <- Hp, <- Hpid in Hr. set_solver.
Qed.

Lemma keepFirst_sublist (records : list PortInfo) (seen : gset string) :
  sublist (keepFirst seen records) records.
Proof.
  revert seen. induction records as [|c rest IH]; intros seen; simpl.
  - constructor.
  - case_decide; [by apply sublist_cons|by apply sublist_skip].
Qed.

Lemma keepFirst_is_first (records : list PortInfo) (seen : gset string)
    (r : PortInfo) :
  r ∈ keepFirst seen records ->
  exists before after,
    records = before ++ r :: after /\
    forall x, x ∈ before -> portPid x <> portPid r.
Proof.
  revert seen. induction records as [|c rest IH]; intros seen Hr; simpl in Hr.
  - by apply elem_of_nil in Hr.
  - case_decide as Hc.
    + pose proof (keepFirst_fresh _ _ _ Hr) as Hfresh.
      destruct (IH _ Hr) as (before & after & -> & Hbefore).
      exists (c :: before), after. split; [done|].
      intros x [->|Hx]%elem_of_cons; [|by apply Hbefore].
      unfold portPid. intros Heq. injection Heq as Hp Hpid.
      by rewrite Hp, Hpid in Hc.
    + apply elem_of_cons in Hr as [->|Hr].
      * exists [], rest. split; [done|]. intros x Hx. by apply elem_of_nil in Hx.
      * pose proof (keepFirst_fresh _ _ _ Hr) as Hfresh.
        destruct (IH _ Hr) as (before & after & -> & Hbefore).
        exists (c :: before), after. split; [done|].
        intros x [->|Hx]%elem_of_cons; [|by apply Hbefore].
        unfold portPid. intros Heq. injection Heq as Hp Hpid.
        rewrite Hp, Hpid in Hfresh. set_solver.
Qed.

Lemma keepFirst_covers (records : list PortInfo) (seen : gset string)
    (c : PortInfo) :
  c ∈ records ->
  parseKey (Port c) (PID c) ∈ seen \/
  exists r, r ∈ keepFirst seen records /\ portPid r = portPid c.
Proof.
  revert seen. induction records as [|x rest IH]; intros seen Hc.
  - by apply elem_of_nil in Hc.
  - simpl. apply elem_of_cons in Hc as [->|Hc].
    + case_decide; [by left|]. right. exists x. split; [left|done].
    + case_decide as Hx.
      * apply IH; done.
      * destruct (IH ({[parseKey (Port x) (PID x)]} ∪ seen) Hc)
          as [Hin|(r & Hr & Heq)].
        -- apply elem_of_union in Hin as [Hin|Hin]; [|by left].
           apply elem_of_singleton in Hin. apply parseKey_inj in Hin as [Hp Hpid].
           right. exists x. split; [left|]. unfold portPid. by rewrite Hp, Hpid.
        -- right. exists r. split; [by right|done].
Qed.

(** C2: the records [parseOutput] returns have pairwise different
    (port, PID) keys; each is the record of the first line that yields
    its key; every key some line yields is kept; and the records stand
    in the order of their lines. *)
Theorem parseOutput_dedup_first (output : string) :
  NoDup (portPid <$> parseOutput output) /\
  sublist (parseOutput output) (lineRecords output) /\
  (forall r, r ∈ parseOutput output ->
     exists before after,
       lineRecords output = before ++ r :: after /\
       forall x, x ∈ before -> portPid x <> portPid r) /\
  (forall c, c ∈ lineRecords output ->
     exists r, r ∈ parseOutput output /\ portPid r = portPid c).
Proof.
  rewrite parseOutput_keepFirst. split; [|split; [|split]].
  - apply keepFirst_NoDup.
  - apply keepFirst_sublist.
  - intros r. apply keepFirst_is_first.
  - intros c Hc. destruct (keepFirst_covers _ ∅ _ Hc) as [Hin|Hr]; [|done].
    by apply elem_of_empty in Hin.
Qed.

(** The port of a record is a decimal the listing shows that fits an
    [int]: it is not negative. *)
Lemma Atoi_digits_range (ds : string) (port : Z) :
  Go.allDigits ds = true -> Go.Atoi ds = Some port -> 0 <= port <= Go.maxInt.
Proof.
  unfold Go.Atoi, Go.ParseInt. intros Hds.
  assert (Hsign : Go.splitSign ds = (EmptyString, ds)).
  { destruct ds as [|c r]; [done|]. apply splitSign_digit.
    unfold Go.allDigits in Hds. simpl in Hds. by apply andb_true_iff in Hds as [? _]. }
  rewrite Hsign, Hds. destruct (Go.isEmpty ds); [done|]. cbn [orb negb].
  rewrite bool_decide_false by done.
  destruct (Z.leb_spec (Go.digitsValue ds) Go.maxInt); [|done].
  intros [= <-]. split; [by apply digitsValue_nonneg|done].
Qed.

Lemma span_fst_allBytes p (s : string) : Go.allBytes p (Go.span p s).1 = true.
Proof.
  induction s as [|c s IH]; [done|]. simpl.
  destruct (p c) eqn:Hc; [|done].
  destruct (Go.span p s) as [a b]. simpl in *. by rewrite Hc, IH.
Qed.

Lemma findPort_digits (line ds : string) :
  findPort line = Some ds -> Go.allDigits ds = true.
Proof.
  induction line as [|c line IH].
  - simpl. done.
  - cbn [findPort]. destruct (matchPortAt (String c line)) as [d|] eqn:Hm.
    + intros [= <-]. unfold matchPortAt in Hm.
      destruct (Ascii.eqb_spec c ":") as [->|Hne].
      * pose proof (span_fst_allBytes Go.isDigit line) as Hall.
        destruct (Go.span Go.isDigit line) as [a b]. simpl in Hall.
        destruct (Go.isEmpty a); [done|].
        destruct (Go.span Go.isReSpace b) as [sp r2].
        destruct (Go.isEmpty sp); [done|].
        destruct (Go.HasPrefix r2 "(LISTEN)"); [|done].
        by injection Hm as <-.
      * exfalso. destruct c as [[] [] [] [] [] [] [] []]; try done.
    + apply IH.
Qed.

Lemma lineRecord_port (line : string) (r : PortInfo) :
  lineRecord line = Some r -> 0 <= Port r <= Go.maxInt /\ UptimeSeconds r = 0.
Proof.
  unfold lineRecord, parseStep.
  destruct (negb (Go.Contains line "LISTEN")); [done|].
  destruct (length (Go.Fields line) <? 10)%nat; [done|].
  destruct (findPort line) as [digits|] eqn:Hf; [|done].
  destruct (Go.Atoi digits) as [port|] eqn:Ha; [|done].
  destruct (decide (_ ∈ (∅ : gset string))) as [Hin|_];
    [by apply elem_of_empty in Hin|].
  simpl. intros [= <-]. simpl.
  split; [|done]. eapply Atoi_digits_range; [|done]. by eapply findPort_digits.
Qed.

Lemma parseOutput_port (output : string) (r : PortInfo) :
  r ∈ parseOutput output -> 0 <= Port r <= Go.maxInt.
Proof.
  intros Hr.
  assert (Hc : r ∈ lineRecords output).
  { eapply (sublist_subseteq (parseOutput output)); [|done].
    rewrite parseOutput_keepFirst. apply keepFirst_sublist. }
  apply list_elem_of_omap in Hc as (line & _ & Hline).
  by apply lineRecord_port in Hline as [? _].
Qed.

End Parser.

(** ** Process metadata resolver *)
Section ResolverFacts.
Context {World : Type}.
Variable lsofCwd : string -> World -> option string * World.
Variable psEtime : string -> World -> option string * World.

Local Abbreviation enrichOne := (enrichOne lsofCwd psEtime).
Local Abbreviation enrichLoop := (enrichLoop lsofCwd psEtime).
Local Abbreviation enrich := (enrich lsofCwd psEtime).

Lemma enrichLoop_cons (p : PortInfo) (rest : list PortInfo) (c : Caches)
    (st : World * list Lookup) :
  enrichLoop (p :: rest) c st =
    let '(r, st1) := enrichOne c p st in
    let '(rest', st2) := enrichLoop rest r.2 st1 in
    (r.1 :: rest', st2).
Proof. reflexivity. Qed.

Lemma cwdLookupsOf_app (pid : string) (t1 t2 : list Lookup) :
  cwdLookupsOf pid (t1 ++ t2) = cwdLookupsOf pid t1 ++ cwdLookupsOf pid t2.
Proof. apply omap_app. Qed.

Lemma uptimeLookupsOf_app (pid : string) (t1 t2 : list Lookup) :
  uptimeLookupsOf pid (t1 ++ t2) = uptimeLookupsOf pid t1 ++ uptimeLookupsOf pid t2.
Proof. apply omap_app. Qed.

(** A cache hit: no command runs and the record takes the cached
    fields. *)
Lemma enrichOne_hit (c : Caches) (p : PortInfo) (st : World * list Lookup)
    (t : string * string * Z) :
  cacheEntry c (PID p) = Some t ->
  exists p', enrichOne c p st = ((p', c), st) /\
             PID p' = PID p /\ resolved p' = t.
Proof.
  unfold cacheEntry, enrichOne. destruct (pathCache c !! PID p) as [cp|]; [|done].
  intros [= <-]. eexists. split; [reflexivity|]. done.
Qed.

(** A cache miss: each command runs once, the record takes what they
    returned and the caches keep it under the process id. *)
Lemma enrichOne_miss (c : Caches) (p : PortInfo) (w : World) (trace : list Lookup) :
  cacheEntry c (PID p) = None ->
  exists p' c' w' t,
    enrichOne c p (w, trace) =
      ((p', c'), (w', trace ++ [CwdLookup (PID p) t.1.1;
                                UptimeLookup (PID p) t.1.2 t.2])) /\
    PID p' = PID p /\ resolved p' = t /\
    cacheEntry c' (PID p) = Some t /\
    forall pid, pid <> PID p -> cacheEntry c' pid = cacheEntry c pid.
Proof.
  unfold cacheEntry at 1, enrichOne.
  destruct (pathCache c !! PID p) as [cp|] eqn:Hc; [done|]. intros _.
  unfold mbind, Run_bind, bind, mret, Run_ret, ret.
  unfold getWorkingDirectory, getProcessUptime.
  destruct (lsofCwd (PID p) w) as [out1 w1].
  destruct (psEtime (PID p) w1) as [out2 w2].
  eexists _, _, w2, (cwdOfOutput out1, (uptimeOfOutput out2).1, (uptimeOfOutput out2).2).
  split; [cbn; by rewrite <- app_assoc|].
  split; [done|]. split; [done|]. split.
  - unfold cacheEntry. cbn. by rewrite !lookup_insert_eq.
  - intros pid Hne. unfold cacheEntry. cbn. by rewrite !lookup_insert_ne.
Qed.

(** The loop from any state in which the caches agree with the lookups
    made so far. *)
Lemma enrichLoop_memoized (ports : list PortInfo) :
  forall (c : Caches) (w : World) (trace : list Lookup),
    cachesAgree c trace ->
    let res := enrichLoop ports c (w, trace) in
    PID <$> res.1 = PID <$> ports /\
    (forall l, l ∈ res.2.2 -> l ∈ trace \/ lookupPid l ∈ PID <$> ports) /\
    forall pid,
      match cacheEntry c pid with
      | Some t =>
          lookedUpOnce res.2.2 pid t /\
          forall r, r ∈ res.1 -> PID r = pid -> resolved r = t
      | None =>
          if decide (pid ∈ PID <$> ports)
          then exists t, lookedUpOnce res.2.2 pid t /\
                         forall r, r ∈ res.1 -> PID r = pid -> resolved r = t
          else neverLookedUp res.2.2 pid
      end.
Proof.
  induction ports as [|p rest IH]; intros c w trace Hagree.
  - cbn. split; [done|]. split; [by left|]. intros pid.
    specialize (Hagree pid). destruct (cacheEntry c pid) as [t|].
    + split; [done|]. intros r Hr. by apply elem_of_nil in Hr.
    + done.
  - rewrite enrichLoop_cons.
    destruct (cacheEntry c (PID p)) as [tp|] eqn:Hp.
    + (* hit *)
      destruct (enrichOne_hit c p (w, trace) tp Hp) as (p' & -> & Hpid & Hres).
      cbn [fst snd]. specialize (IH c w trace Hagree).
      destruct (enrichLoop rest c (w, trace)) as [rest' st2] eqn:Hrest.
      cbn [fst snd] in *. destruct IH as (IHpid & IHtr & IH).
      split; [by rewrite !fmap_cons, Hpid, IHpid|].
      split.
      { intros l Hl. destruct (IHtr l Hl) as [?|?]; [by left|right].
        rewrite fmap_cons. by right. }
      intros pid. specialize (IH pid).
      destruct (cacheEntry c pid) as [t|] eqn:Hc.
      * destruct IH as [Honce Hall]. split; [done|].
        intros r [->|Hr]%elem_of_cons Hr'; [|by apply Hall].
        rewrite Hpid in Hr'. subst pid. congruence.
      * rewrite fmap_cons.
        destruct (decide (pid ∈ PID <$> rest)) as [Hin|Hnin].
        -- rewrite decide_True by by right.
           destruct IH as (t & Honce & Hall). exists t. split; [done|].
           intros r [->|Hr]%elem_of_cons Hr'; [|by apply Hall].
           rewrite Hpid in Hr'. subst pid. congruence.
        -- rewrite decide_False; [done|].
           intros [->|?]%elem_of_cons; [congruence|done].
    + (* miss *)
      destruct (enrichOne_miss c p w trace Hp)
        as (p' & c' & w' & tp & -> & Hpid & Hres & Hnew & Hold).
      cbn [fst snd].
      set (trace' := trace ++ [CwdLookup (PID p) tp.1.1;
                               UptimeLookup (PID p) tp.1.2 tp.2]) in *.
      assert (Hcwd : forall pid, cwdLookupsOf pid trace' =
                cwdLookupsOf pid trace ++ (if decide (PID p = pid) then [tp.1.1] else [])).
      { intros pid. unfold trace'. rewrite cwdLookupsOf_app. f_equal.
        cbn. by case_decide. }
      assert (Hup : forall pid, uptimeLookupsOf pid trace' =
                uptimeLookupsOf pid trace
                ++ (if decide (PID p = pid) then [(tp.1.2, tp.2)] else [])).
      { intros pid. unfold trace'. rewrite uptimeLookupsOf_app. f_equal.
        cbn. by case_decide. }
      assert (Hagree' : cachesAgree c' trace').
      { intros pid. destruct (decide (pid = PID p)) as [->|Hne].
        - rewrite Hnew. specialize (Hagree (PID p)). rewrite Hp in Hagree.
          destruct Hagree as [H1 H2]. unfold lookedUpOnce.
          rewrite Hcwd, Hup, H1, H2. by rewrite !decide_True by done.
        - rewrite (Hold pid Hne). specialize (Hagree pid).
          destruct (cacheEntry c pid) as [t|]; destruct Hagree as [H1 H2];
            unfold lookedUpOnce, neverLookedUp;
            rewrite Hcwd, Hup, H1, H2, !decide_False by done; done. }
      specialize (IH c' w' trace' Hagree').
      destruct (enrichLoop rest c' (w', trace')) as [rest' st2] eqn:Hrest.
      cbn [fst snd] in *. destruct IH as (IHpid & IHtr & IH).
      split; [by rewrite !fmap_cons, Hpid, IHpid|].
      split.
      { intros l Hl. rewrite fmap_cons.
        destruct (IHtr l Hl) as [Hl'|?]; [|right; by right].
        unfold trace' in Hl'. apply elem_of_app in Hl' as [?|Hl']; [by left|].
        apply elem_of_cons in Hl' as [->|Hl']; [right; by left|].
        apply elem_of_cons in Hl' as [->|Hl']; [right; by left|].
        by apply elem_of_nil in Hl'. }
      intros pid. specialize (IH pid). rewrite fmap_cons.
      destruct (decide (pid = PID p)) as [->|Hne].
      * rewrite Hp, Hnew in *. rewrite decide_True by by left.
        destruct IH as [Honce Hall]. exists tp. split; [done|].
        intros r [->|Hr]%elem_of_cons Hr'; [done|by apply Hall].
      * rewrite (Hold pid Hne) in IH.
        destruct (cacheEntry c pid) as [t|] eqn:Hc.
        -- destruct IH as [Honce Hall]. split; [done|].
           intros r [->|Hr]%elem_of_cons Hr'; [congruence|by apply Hall].
        -- destruct (decide (pid ∈ PID <$> rest)) as [Hin|Hnin].
           ++ rewrite decide_True by by right.
              destruct IH as (t & Honce & Hall). exists t. split; [done|].
              intros r [->|Hr]%elem_of_cons Hr'; [congruence|by apply Hall].
           ++ rewrite decide_False; [done|].
              intros [->|?]%elem_of_cons; done.
Qed.

(** C3: in one enrichment pass the working-directory lookup and the
    uptime lookup each run exactly once for every process id among the
    records and never for another one, and every record of a process
    carries the path, label and seconds those two lookups returned. *)
Theorem enrich_memoized (ports : list PortInfo) (w : World) :
  let enriched := (enrich ports w).1 in
  let trace := (enrich ports w).2.2 in
  PID <$> enriched = PID <$> ports /\
  (forall l, l ∈ trace -> lookupPid l ∈ PID <$> ports) /\
  forall pid, pid ∈ PID <$> ports ->
    exists path label seconds,
      cwdLookupsOf pid trace = [path] /\
      uptimeLookupsOf pid trace = [(label, seconds)] /\
      forall r, r ∈ enriched -> PID r = pid ->
        Path r = path /\ Uptime r = label /\ UptimeSeconds r = seconds.
Proof.
  assert (Hagree : cachesAgree emptyCaches []).
  { intros pid. unfold cacheEntry, emptyCaches. cbn. by rewrite lookup_empty. }
  destruct (enrichLoop_memoized ports emptyCaches w [] Hagree) as (Hpid & Htr & Hall).
  cbn zeta. unfold enrich. split; [done|]. split.
  - intros l Hl. destruct (Htr l Hl) as [Hnil|?]; [|done].
    by apply elem_of_nil in Hnil.
  - intros pid Hin. specialize (Hall pid).
    unfold cacheEntry, emptyCaches in Hall. cbn in Hall.
    rewrite lookup_empty in Hall. rewrite decide_True in Hall by done.
    destruct Hall as ([[path label] seconds] & [Hc Hu] & Hrec).
    exists path, label, seconds. split; [done|]. split; [done|].
    intros r Hr Hrpid. specialize (Hrec r Hr Hrpid).
    unfold resolved in Hrec. by injection Hrec as -> -> ->.
Qed.

End ResolverFacts.

(** ** Ranges of the record fields *)
Section Ranges.

Lemma Split_length (s : string) (c : ascii) (p : string) :
  p ∈ Go.Split s c -> (String.length p <= String.length s)%nat.
Proof.
  revert p. induction s as [|x s IH]; intros p Hp; simpl in *.
  - apply list_elem_of_singleton in Hp as ->. done.
  - destruct (Ascii.eqb x c).
    + apply elem_of_cons in Hp as [->|Hp]; [simpl; lia|].
      specialize (IH p Hp). lia.
    + pose proof (Split_not_nil s c) as Hne.
      destruct (Go.Split s c) as [|hd tl]; [done|].
      apply elem_of_cons in Hp as [->|Hp].
      * specialize (IH hd ltac:(left)). simpl. lia.
      * specialize (IH p ltac:(by right)). lia.
Qed.

Lemma Split_free_parts (s : string) (c d : ascii) (p : string) :
  Go.freeOf d s = true -> p ∈ Go.Split s c -> Go.freeOf d p = true.
Proof.
  unfold Go.freeOf. revert p.
  induction s as [|x s IH]; intros p Hs Hp; simpl in *.
  - apply list_elem_of_singleton in Hp as ->. done.
  - apply andb_true_iff in Hs as [Hx Hs]. destruct (Ascii.eqb x c).
    + apply elem_of_cons in Hp as [->|Hp]; [done|]. by apply IH.
    + pose proof (Split_not_nil s c) as Hne.
      destruct (Go.Split s c) as [|hd tl]; [done|].
      apply elem_of_cons in Hp as [->|Hp].
      * simpl. rewrite Hx. apply IH; [done|left].
      * apply IH; [done|by right].
Qed.

Lemma Split_parts_free (s : string) (c : ascii) (p : string) :
  p ∈ Go.Split s c -> Go.freeOf c p = true.
Proof.
  unfold Go.freeOf. revert p. induction s as [|x s IH]; intros p Hp; simpl in *.
  - apply list_elem_of_singleton in Hp as ->. done.
  - destruct (Ascii.eqb x c) eqn:Hx.
    + apply elem_of_cons in Hp as [->|Hp]; [done|]. by apply IH.
    + pose proof (Split_not_nil s c) as Hne.
      destruct (Go.Split s c) as [|hd tl]; [done|].
      apply elem_of_cons in Hp as [->|Hp].
      * simpl. rewrite Hx. apply IH. left.
      * apply IH. by right.
Qed.

Lemma digitsValueFrom_bound (s : string) (acc : Z) :
  Go.allDigits s = true -> 0 <= acc ->
  Go.digitsValueFrom acc s < (acc + 1) * 10 ^ Z.of_nat (String.length s).
Proof.
  unfold Go.allDigits. revert acc.
  induction s as [|c s IH]; intros acc Hs Hacc.
  - simpl. lia.
  - cbn [Go.allBytes] in Hs. apply andb_true_iff in Hs as [Hc Hs].
    apply digitVal_range in Hc. cbn [Go.digitsValueFrom String.length].
    specialize (IH (acc * 10 + Go.digitVal c) Hs ltac:(lia)).
    rewrite Nat2Z.inj_succ, Z.pow_succ_r by lia.
    assert (0 < 10 ^ Z.of_nat (String.length s)) by (apply Z.pow_pos_nonneg; lia).
    nia.
Qed.

Lemma skipSpace_suffix (s : string) (skip : nat) (body : string) :
  Go.skipSpace s skip = Some body ->
  (String.length body <= String.length s)%nat /\
  (Go.freeOf "-" s = true -> Go.freeOf "-" body = true).
Proof.
  unfold Go.freeOf. revert skip body.
  induction s as [|c s IH]; intros skip body Hb.
  - simpl in Hb. by injection Hb as <-.
  - cbn [Go.skipSpace] in Hb. destruct skip as [|k].
    + destruct (Go.byteOf c =? 10)%N; [done|].
      destruct (Go.spaceWidth (String c s)) as [|k].
      * by injection Hb as <-.
      * destruct (IH _ _ Hb) as [Hlen Hfree]. split; [simpl; lia|].
        simpl. intros [_ ?]%andb_true_iff. auto.
    + destruct (IH _ _ Hb) as [Hlen Hfree]. split; [simpl; lia|].
      simpl. intros [_ ?]%andb_true_iff. auto.
Qed.

Lemma span_length p (s : string) :
  (String.length (Go.span p s).1 <= String.length s)%nat.
Proof.
  induction s as [|c s IH]; [done|]. simpl.
  destruct (p c); [|simpl; lia].
  destruct (Go.span p s) as [a b]. simpl in *. lia.
Qed.

Lemma splitSign_cases (s : string) :
  (exists r, s = String "-" r /\ Go.splitSign s = ("-"%string, r)) \/
  (exists r, s = String "+" r /\ Go.splitSign s = ("+"%string, r)) \/
  Go.splitSign s = (EmptyString, s).
Proof.
  destruct s as [|c r]; [by right; right|].
  destruct (ascii_dec c "-") as [->|Hm]; [left; by eexists|].
  destruct (ascii_dec c "+") as [->|Hp]; [right; left; by eexists|].
  right; right.
  destruct c as [[] [] [] [] [] [] [] []]; done.
Qed.

(** What [%d] reads from a text without a minus sign lies between zero
    and the power of ten of the length of the text. *)
Lemma scanInt_range (s : string) (v : Z) :
  Go.freeOf "-" s = true -> Go.scanInt s = Some v ->
  0 <= v < 10 ^ Z.of_nat (String.length s).
Proof.
  intros Hfree. unfold Go.scanInt.
  destruct (Go.skipSpace s 0) as [body|] eqn:Hbody; [|done].
  destruct (skipSpace_suffix _ _ _ Hbody) as [Hlen Hfb]. specialize (Hfb Hfree).
  assert (Hsign : exists sign r,
             Go.splitSign body = (sign, r) /\ sign <> "-"%string /\
             (sign = EmptyString \/ sign = "+"%string) /\
             (String.length r <= String.length body)%nat).
  { destruct (splitSign_cases body) as [(r & -> & _)|[(r & -> & ->)| ->]].
    - unfold Go.freeOf in Hfb. simpl in Hfb. done.
    - exists "+"%string, r. repeat split; [done|by right|simpl; lia].
    - exists EmptyString, body. repeat split; [done|by left|lia]. }
  destruct Hsign as (sign & r & -> & Hnd & Hsg & Hr).
  pose proof (span_fst_allBytes Go.isDigit r) as Hall.
  pose proof (span_length Go.isDigit r) as Hsl.
  destruct (Go.span Go.isDigit r) as [ds rest]. simpl in Hall, Hsl.
  destruct ds as [|d ds']; [done|]. cbn [Go.isEmpty].
  assert (Hd : Go.isDigit d = true) by by apply andb_true_iff in Hall as [? _].
  assert (Hsplit : Go.splitSign (sign +:+ String d ds') = (sign, String d ds')).
  { destruct Hsg as [-> | ->]; [|done]. rewrite app_empty_l. by apply splitSign_digit. }
  unfold Go.ParseInt. rewrite Hsplit. fold (Go.allDigits (String d ds')).
  unfold Go.allDigits at 1. rewrite Hall. cbn [Go.isEmpty orb negb].
  rewrite bool_decide_false by done.
  destruct (Z.leb_spec (Go.digitsValue (String d ds')) Go.maxInt); [|done].
  intros [= <-]. split; [by apply digitsValue_nonneg|].
  pose proof (digitsValueFrom_bound (String d ds') 0 Hall ltac:(lia)) as Hb.
  unfold Go.digitsValue.
  assert (10 ^ Z.of_nat (String.length (String d ds'))
          <= 10 ^ Z.of_nat (String.length s)) by (apply Z.pow_le_mono_r; lia).
  lia.
Qed.

Lemma Sscanf_range (s : string) (n : Z) :
  Go.freeOf "-" s = true -> Z.of_nat (String.length s) <= n ->
  0 <= Go.Sscanf_d s 0 < 10 ^ n.
Proof.
  intros Hfree Hn. unfold Go.Sscanf_d.
  assert (0 < 10 ^ n) by (apply Z.pow_pos_nonneg; lia).
  destruct (Go.scanInt s) as [v|] eqn:Hv; [|lia].
  pose proof (scanInt_range s v Hfree Hv).
  assert (10 ^ Z.of_nat (String.length s) <= 10 ^ n) by (apply Z.pow_le_mono_r; lia).
  lia.
Qed.

(** Groups below ten to the fourteenth give a total that fits an [int]. *)
Lemma uptimeLabel_nonneg (days hours minutes seconds : Z) :
  0 <= days < 10 ^ 14 -> 0 <= hours < 10 ^ 14 ->
  0 <= minutes < 10 ^ 14 -> 0 <= seconds < 10 ^ 14 ->
  0 <= (uptimeLabel days hours minutes seconds).2.
Proof.
  intros Hd Hh Hm Hs.
  rewrite uptimeLabel_exact; [simpl; lia|lia..|unfold Go.maxInt; lia].
Qed.

(** On a text of at most fourteen bytes the seconds [formatUptime]
    returns are not negative. *)
Lemma formatUptime_nonneg (etime : string) :
  (String.length etime <= 14)%nat -> 0 <= (formatUptime etime).2.
Proof.
  intros Hlen. unfold formatUptime.
  set (de := if Go.Contains etime "-"
             then (Go.Sscanf_d (nth 0 (Go.Split etime "-") EmptyString) 0,
                   nth 1 (Go.Split etime "-") EmptyString)
             else (0, etime)).
  assert (Hde : 0 <= de.1 < 10 ^ 14 /\ Go.freeOf "-" de.2 = true /\
                (String.length de.2 <= 14)%nat).
  { unfold de. rewrite Contains_byte.
    destruct (Go.freeOf "-" etime) eqn:Hfree; cbn [negb fst snd].
    - split; [lia|done].
    - pose proof (Split_not_nil etime "-") as Hne.
      assert (Hparts : forall i, (String.length (nth i (Go.Split etime "-") EmptyString)
                                  <= 14)%nat /\
                                 Go.freeOf "-" (nth i (Go.Split etime "-") EmptyString) = true).
      { intros i.
        destruct (nth_in_or_default i (Go.Split etime "-") EmptyString) as [Hin| ->].
        - apply list_elem_of_In in Hin. split.
          + pose proof (Split_length _ _ _ Hin). lia.
          + by eapply Split_parts_free.
        - split; [simpl; lia|done]. }
      destruct (Hparts 0%nat) as [Hl0 Hf0]. destruct (Hparts 1%nat) as [Hl1 Hf1].
      split; [apply Sscanf_range; [done|lia]|done]. }
  destruct de as [days etime']. cbn [fst snd] in Hde.
  destruct Hde as (Hdays & Hfree & Hlen').
  assert (Hgroup : forall g, g ∈ Go.Split etime' ":" -> 0 <= Go.Sscanf_d g 0 < 10 ^ 14).
  { intros g Hg. apply Sscanf_range.
    - by eapply Split_free_parts.
    - pose proof (Split_length _ _ _ Hg). lia. }
  destruct (Go.Split etime' ":") as [|a [|b [|c [|e l]]]]; try (simpl; lia).
  - apply uptimeLabel_nonneg; [done|lia|apply Hgroup..];
      first [by left | by right; left].
  - apply uptimeLabel_nonneg; [done|apply Hgroup..];
      first [by left | by right; left | by do 2 right; left].
Qed.

Lemma trimLeft_length (s : string) (skip : nat) :
  (String.length (Go.trimLeft s skip) <= String.length s)%nat.
Proof.
  revert skip. induction s as [|c s IH]; intros skip; [done|].
  cbn [Go.trimLeft]. destruct skip as [|k].
  - destruct (Go.spaceWidth (String c s)); [done|].
    specialize (IH n). simpl. lia.
  - specialize (IH k). simpl. lia.
Qed.

Lemma trimRight_length (s : string) :
  (String.length (Go.trimRight s) <= String.length s)%nat.
Proof.
  induction s as [|c s IH]; [done|]. cbn [Go.trimRight].
  destruct (Go.allSpace (String c s) 0); simpl; lia.
Qed.

Lemma TrimSpace_length (s : string) :
  (String.length (Go.TrimSpace s) <= String.length s)%nat.
Proof.
  unfold Go.TrimSpace.
  pose proof (trimRight_length (Go.trimLeft s 0)).
  pose proof (trimLeft_length s 0). lia.
Qed.

(** The seconds [getProcessUptime] derives from the output of [ps]. *)
Lemma uptimeOfOutput_nonneg (out : option string) :
  match out with
  | Some o => (String.length (Go.TrimSpace o) <= 14)%nat
  | None => True
  end ->
  0 <= (uptimeOfOutput out).2.
Proof.
  destruct out as [o|]; [|done]. intros Hlen. unfold uptimeOfOutput.
  destruct (Go.isEmpty (Go.TrimSpace o)); [done|]. by apply formatUptime_nonneg.
Qed.

End Ranges.

(** ** Ranges along the pipeline *)
Section PipelineRanges.
Context {World : Type}.
Variable lsofCwd : string -> World -> option string * World.
Variable psEtime : string -> World -> option string * World.

(** Every elapsed time [ps] prints has, once trimmed, at most fourteen
    bytes. *)
Hypothesis psEtime_short :
  forall pid w,
    match (psEtime pid w).1 with
    | Some o => (String.length (Go.TrimSpace o) <= 14)%nat
    | None => True
    end.

Lemma enrichLoop_ranges (ports : list PortInfo) :
  forall (c : Caches) (st : World * list Lookup),
    (forall pid v, uptimeSecondsCache c !! pid = Some v -> 0 <= v) ->
    Forall2 (fun r p => Port r = Port p /\ 0 <= UptimeSeconds r)
            (enrichLoop lsofCwd psEtime ports c st).1 ports.
Proof.
  induction ports as [|p rest IH]; intros c [w trace] Hc.
  - constructor.
  - rewrite enrichLoop_cons. unfold enrichOne.
    destruct (pathCache c !! PID p) as [cp|].
    + unfold ret. cbn [fst snd]. specialize (IH c (w, trace) Hc).
      destruct (enrichLoop lsofCwd psEtime rest c (w, trace)) as [rest' st2].
      constructor; [|done]. split; [done|]. cbn.
      destruct (uptimeSecondsCache c !! PID p) as [v|] eqn:Hv; [by eapply Hc|done].
    + unfold mbind, Run_bind, bind, mret, Run_ret, ret.
      unfold getWorkingDirectory, getProcessUptime.
      destruct (lsofCwd (PID p) w) as [out1 w1].
      pose proof (psEtime_short (PID p) w1) as Hshort.
      destruct (psEtime (PID p) w1) as [out2 w2]. cbn [fst snd] in *.
      pose proof (uptimeOfOutput_nonneg out2 Hshort) as Hnn.
      match goal with
      | |- context [enrichLoop lsofCwd psEtime rest ?c' ?st'] =>
          specialize (IH c' st');
          destruct (enrichLoop lsofCwd psEtime rest c' st') as [rest' st2]
      end.
      constructor; [done|]. apply IH. cbn. intros pid v.
      destruct (decide (pid = PID p)) as [->|Hne].
      * rewrite lookup_insert_eq. by intros [= <-].
      * rewrite lookup_insert_ne by done. apply Hc.
Qed.

End PipelineRanges.

(** ** What a sort by a key determines *)
Section SortFacts.
Context {A : Type} (key : A -> Z) (less : A -> A -> bool).
Hypothesis less_key : forall a b, less a b = (key a <? key b).

Lemma sortedBy_keys (l : list A) :
  Runtime.sortedBy less l -> Sorted Z.le (key <$> l).
Proof.
  unfold Runtime.sortedBy. apply Sorted_fmap.
  intros a b Hab. rewrite less_key in Hab. by apply Z.ltb_ge in Hab.
Qed.

Lemma keys_sortedBy (l : list A) :
  Sorted (keyLe key) l -> Runtime.sortedBy less l.
Proof.
  unfold Runtime.sortedBy. induction 1 as [|a l Hs IH Hhd]; constructor; [done|].
  destruct Hhd as [|b l Hab]; constructor.
  rewrite less_key. by apply Z.ltb_ge.
Qed.

(** [sort.Slice] returns: some rearrangement meets its contract. *)
Lemma sortSlice_total (xs : list A) : exists ys, Runtime.sortSlice less xs ys.
Proof.
  exists (merge_sort (keyLe key) xs). split.
  - symmetry. apply merge_sort_Permutation.
  - apply keys_sortedBy. apply Sorted_merge_sort. apply _.
Qed.

Lemma sortSlice_ascending (xs ys : list A) :
  Runtime.sortSlice less xs ys ->
  forall i j a b, (i < j)%nat -> ys !! i = Some a -> ys !! j = Some b ->
                  key a <= key b.
Proof.
  intros [_ Hs%sortedBy_keys] i j a b Hij Ha Hb.
  apply (Sorted_StronglySorted _) in Hs.
  assert (Hi : (key <$> ys) !! i = Some (key a)) by by rewrite list_lookup_fmap, Ha.
  assert (Hj : (key <$> ys) !! j = Some (key b)) by by rewrite list_lookup_fmap, Hb.
  clear Ha Hb. revert i j Hij Hi Hj. generalize (key a) (key b) (key <$> ys) Hs.
  clear. intros x y l Hs. induction Hs as [|z l Hs IH Hall]; intros i j Hij Hi Hj.
  - done.
  - destruct j as [|j]; [lia|]. destruct i as [|i].
    + simpl in *. injection Hi as ->.
      rewrite Forall_forall in Hall. apply Hall.
      apply list_elem_of_lookup. eauto.
    + simpl in *. apply (IH i j); [lia|done..].
Qed.

End SortFacts.

(** ** Final sort stage *)
Section SortStage.

Lemma portLess_key (sortOrder : string) (a b : PortInfo) :
  portLess sortOrder a b = (sortKey sortOrder a <? sortKey sortOrder b).
Proof.
  unfold portLess, sortKey. case_decide; [done|].
  destruct (Z.ltb_spec (UptimeSeconds b) (UptimeSeconds a));
    destruct (Z.ltb_spec (- UptimeSeconds a) (- UptimeSeconds b)); lia.
Qed.

End SortStage.

(** ** Workspace event ledger *)
Section LastEvents.

Lemma lastEventsOf_snoc (events : list WorkspaceEvent) (e : WorkspaceEvent) :
  lastEventsOf (events ++ [e]) = lastEventStep (lastEventsOf events) e.
Proof. unfold lastEventsOf. by rewrite foldl_app. Qed.

(** What [lastEvents] holds for a path: nothing when no event names the
    path, and otherwise the first, in the order of the log, of its events
    with the largest timestamp. *)
Lemma lastEventsOf_spec (events : list WorkspaceEvent) (p : string) :
  match lastEventsOf events !! p with
  | None => forall e, e ∈ events -> evPath e <> p
  | Some e =>
      evPath e = p /\
      exists before after,
        events = before ++ e :: after /\
        (forall x, x ∈ before -> evPath x = p -> Timestamp x < Timestamp e) /\
        (forall x, x ∈ after -> evPath x = p -> Timestamp x <= Timestamp e)
  end.
Proof.
  induction events as [|x events IH] using rev_ind.
  - unfold lastEventsOf. simpl. rewrite lookup_empty.
    intros e He. by apply elem_of_nil in He.
  - rewrite lastEventsOf_snoc. unfold lastEventStep.
    destruct (decide (evPath x = p)) as [Hx|Hx].
    + subst p. destruct (lastEventsOf events !! evPath x) as [ex|] eqn:Hex.
      * destruct IH as (Hpath & before & after & -> & Hbefore & Hafter).
        destruct (Z.ltb_spec (Timestamp ex) (Timestamp x)) as [Hlt|Hge].
        -- rewrite lookup_insert_eq. split; [done|].
           exists (before ++ ex :: after), []. split; [done|]. split.
           ++ intros y Hy Hyp. apply elem_of_app in Hy as [Hy|Hy].
              ** specialize (Hbefore y Hy Hyp). lia.
              ** apply elem_of_cons in Hy as [->|Hy]; [done|].
                 specialize (Hafter y Hy Hyp). lia.
           ++ intros y Hy. by apply elem_of_nil in Hy.
        -- rewrite Hex. split; [done|].
           exists before, (after ++ [x]). split; [by rewrite <- app_assoc|].
           split; [done|].
           intros y Hy Hyp. apply elem_of_app in Hy as [Hy|Hy]; [by apply Hafter|].
           apply list_elem_of_singleton in Hy as ->. lia.
      * rewrite lookup_insert_eq. split; [done|].
        exists events, []. split; [done|]. split.
        -- intros y Hy Hyp. by specialize (IH y Hy).
        -- intros y Hy. by apply elem_of_nil in Hy.
    + assert (Hsame : (match lastEventsOf events !! evPath x with
                       | Some existing =>
                           if Timestamp existing <? Timestamp x
                           then <[evPath x:=x]> (lastEventsOf events)
                           else lastEventsOf events
                       | None => <[evPath x:=x]> (lastEventsOf events)
                       end) !! p = lastEventsOf events !! p).
      { destruct (lastEventsOf events !! evPath x) as [ex|];
          [destruct (Timestamp ex <? Timestamp x)|]; by rewrite ?lookup_insert_ne. }
      rewrite Hsame. destruct (lastEventsOf events !! p) as [e|].
      * destruct IH as (Hpath & before & after & -> & Hbefore & Hafter).
        split; [done|]. exists before, (after ++ [x]).
        split; [by rewrite <- app_assoc|]. split; [done|].
        intros y Hy Hyp. apply elem_of_app in Hy as [Hy|Hy]; [by apply Hafter|].
        apply list_elem_of_singleton in Hy as ->. done.
      * intros e He. apply elem_of_app in He as [He|He]; [by apply IH|].
        apply list_elem_of_singleton in He as ->. done.
Qed.

Lemma lastEventsOf_Some (events : list WorkspaceEvent) (p : string) (e : WorkspaceEvent) :
  lastEventsOf events !! p = Some e ->
  e ∈ events /\ evPath e = p /\
  (forall x, x ∈ events -> evPath x = p -> Timestamp x <= Timestamp e) /\
  exists before after,
    events = before ++ e :: after /\
    forall x, x ∈ before -> evPath x = p -> Timestamp x < Timestamp e.
Proof.
  intros He. pose proof (lastEventsOf_spec events p) as Hspec. rewrite He in Hspec.
  destruct Hspec as (Hpath & before & after & -> & Hbefore & Hafter).
  split; [apply elem_of_app; right; left|]. split; [done|]. split.
  - intros x Hx Hxp. apply elem_of_app in Hx as [Hx|Hx].
    + specialize (Hbefore x Hx Hxp). lia.
    + apply elem_of_cons in Hx as [->|Hx]; [lia|by apply Hafter].
  - by exists before, after.
Qed.

Lemma lastEventsOf_None (events : list WorkspaceEvent) (p : string) :
  lastEventsOf events !! p = None <-> forall e, e ∈ events -> evPath e <> p.
Proof.
  pose proof (lastEventsOf_spec events p) as Hspec. split.
  - intros Hn. by rewrite Hn in Hspec.
  - intros Hno. destruct (lastEventsOf events !! p) as [e|] eqn:He; [|done].
    apply lastEventsOf_Some in He as (Hin & Hp & _). by specialize (Hno e Hin).
Qed.

(** When one event alone has the largest timestamp of its path, it is
    kept wherever it stands in the log. *)
Lemma lastEventsOf_position (events events' : list WorkspaceEvent) (p : string)
    (e : WorkspaceEvent) :
  events' ≡ₚ events ->
  lastEventsOf events !! p = Some e ->
  (forall x, x ∈ events -> evPath x = p -> Timestamp x = Timestamp e -> x = e) ->
  lastEventsOf events' !! p = Some e.
Proof.
  intros Hperm He Huniq.
  apply lastEventsOf_Some in He as (Hin & Hp & Hmax & _).
  destruct (lastEventsOf events' !! p) as [e'|] eqn:He'.
  - apply lastEventsOf_Some in He' as (Hin' & Hp' & Hmax' & _).
    f_equal. apply Huniq; [by rewrite <- Hperm|done|].
    assert (Timestamp e <= Timestamp e') by (apply Hmax'; [by rewrite Hperm|done]).
    assert (Timestamp e' <= Timestamp e) by (apply Hmax; [by rewrite <- Hperm|done]).
    lia.
  - rewrite lastEventsOf_None in He'. exfalso. apply (He' e); [by rewrite Hperm|done].
Qed.

End LastEvents.

Section HistoryFacts.
Variable openWindows : string -> bool.
Variable notExist : string -> bool.
Variable cursorHistoryLimit : Z.

Local Abbreviation loop := (closedLoop openWindows notExist cursorHistoryLimit).
Local Abbreviation views :=
  (closedWorkspaces openWindows notExist cursorHistoryLimit).

Lemma closedLess_key (a b : closedWorkspace) :
  closedLess a b = (- closedAt a <? - closedAt b).
Proof.
  unfold closedLess.
  destruct (Z.ltb_spec (closedAt b) (closedAt a));
    destruct (Z.ltb_spec (- closedAt a) (- closedAt b)); lia.
Qed.

Lemma closedOf_elem (m : gmap string WorkspaceEvent)
    (visited : list (string * WorkspaceEvent)) (cw : closedWorkspace) :
  Runtime.rangeMap m visited ->
  cw ∈ closedOf visited <->
  exists e, m !! path cw = Some e /\ Event e = "close" /\ closedAt cw = Timestamp e.
Proof.
  unfold Runtime.rangeMap, closedOf. intros Hv. rewrite list_elem_of_omap. split.
  - intros ([p e] & Hin & Hcw). rewrite Hv in Hin. apply elem_of_map_to_list in Hin.
    case_decide as Hclose; [|done]. injection Hcw as <-. simpl. eauto.
  - intros (e & Hm & Hclose & Hat). exists (path cw, e). split.
    + rewrite Hv. by apply elem_of_map_to_list.
    + rewrite decide_True by done. destruct cw as [p t]. simpl in *. by rewrite Hat.
Qed.

(** The paths the loop adds are among the candidates, not open and on
    disk. *)
Lemma closedLoop_elem (closed : list closedWorkspace) (acc : list string) (p : string) :
  p ∈ loop closed acc ->
  p ∈ acc \/ (p ∈ path <$> closed /\ listable openWindows notExist p).
Proof.
  revert acc. induction closed as [|ws rest IH]; intros acc Hp.
  - by left.
  - rewrite fmap_cons. cbn [closedLoop] in Hp.
    destruct (openWindows (path ws)) eqn:Hopen.
    { destruct (IH _ Hp) as [?|[? ?]]; [by left|right]. split; [by right|done]. }
    destruct (notExist (path ws)) eqn:Hgone.
    { destruct (IH _ Hp) as [?|[? ?]]; [by left|right]. split; [by right|done]. }
    assert (Hhere : p ∈ acc ++ [path ws] ->
              p ∈ acc \/ (p ∈ path ws :: (path <$> rest)
                          /\ listable openWindows notExist p)).
    { intros [?|Hp']%elem_of_app; [by left|].
      apply list_elem_of_singleton in Hp' as ->. right. split; [left|done]. }
    destruct (cursorHistoryLimit <=? Z.of_nat (length (acc ++ [path ws]))).
    + by apply Hhere.
    + destruct (IH _ Hp) as [Hacc|[? ?]]; [by apply Hhere|right].
      split; [by right|done].
Qed.

(** Below the limit the loop adds every candidate that can be listed. *)
Lemma closedLoop_all (closed : list closedWorkspace) (acc : list string) :
  Z.of_nat (length acc + length closed) < cursorHistoryLimit ->
  loop closed acc
  = acc ++ filter (listable openWindows notExist) (path <$> closed).
Proof.
  revert acc. induction closed as [|ws rest IH]; intros acc Hlim.
  - simpl. by rewrite app_nil_r.
  - rewrite fmap_cons. cbn [closedLoop]. simpl in Hlim.
    destruct (openWindows (path ws)) eqn:Hopen.
    { rewrite filter_cons_False by (unfold listable; rewrite Hopen; by intros [? _]).
      apply IH. lia. }
    destruct (notExist (path ws)) eqn:Hgone.
    { rewrite filter_cons_False by (unfold listable; rewrite Hgone; by intros [_ ?]).
      apply IH. lia. }
    rewrite filter_cons_True by (unfold listable; by rewrite Hopen, Hgone).
    rewrite length_app. simpl.
    destruct (Z.leb_spec cursorHistoryLimit (Z.of_nat (length acc + 1))); [lia|].
    rewrite IH by (rewrite length_app; simpl; lia).
    by rewrite <- app_assoc.
Qed.

(** The candidates and the view have a value: the relation holds of
    some. *)
Lemma closedWorkspaces_total (events : list WorkspaceEvent) :
  exists closed recentlyClosed, views events closed recentlyClosed.
Proof.
  destruct (sortSlice_total (fun cw => - closedAt cw) closedLess closedLess_key
              (closedOf (map_to_list (lastEventsOf events)))) as [closed Hs].
  exists closed, (loop closed []), (map_to_list (lastEventsOf events)).
  split; [by unfold Runtime.rangeMap|]. split; [done|done].
Qed.

(** What the candidates and the view are. *)
Lemma closedWorkspaces_spec (events : list WorkspaceEvent)
    (closed : list closedWorkspace) (recentlyClosed : list string) :
  views events closed recentlyClosed ->
  (forall p, p ∈ path <$> closed <->
             exists e, lastEventsOf events !! p = Some e /\ Event e = "close") /\
  (forall i j a b, (i < j)%nat -> closed !! i = Some a -> closed !! j = Some b ->
                   closedAt b <= closedAt a) /\
  (forall p, p ∈ recentlyClosed ->
             p ∈ path <$> closed /\ listable openWindows notExist p) /\
  (Z.of_nat (length closed) < cursorHistoryLimit ->
   forall p, p ∈ recentlyClosed <->
             p ∈ path <$> closed /\ listable openWindows notExist p).
Proof.
  intros (visited & Hv & Hs & ->). split; [|split; [|split]].
  - intros p. rewrite list_elem_of_fmap. split.
    + intros (cw & -> & Hcw). destruct Hs as [Hperm _]. rewrite <- Hperm in Hcw.
      apply (closedOf_elem _ _ _ Hv) in Hcw as (e & ? & ? & ?). eauto.
    + intros (e & He & Hclose).
      exists {| path := p; closedAt := Timestamp e |}. split; [done|].
      destruct Hs as [Hperm _]. rewrite <- Hperm.
      apply (closedOf_elem _ _ _ Hv). simpl. eauto.
  - intros i j a b Hij Ha Hb.
    pose proof (sortSlice_ascending (fun cw => - closedAt cw) closedLess closedLess_key
                  _ _ Hs i j a b Hij Ha Hb) as Hle.
    cbv beta in Hle. lia.
  - intros p Hp. destruct (closedLoop_elem _ _ _ Hp) as [Hnil|?]; [|done].
    by apply elem_of_nil in Hnil.
  - intros Hlim p. rewrite closedLoop_all by (simpl; lia). simpl.
    rewrite list_elem_of_filter. tauto.
Qed.

End HistoryFacts.

(** ** Workspace reconciler *)
Section MatchFacts.

Lemma portsOf_app (a b : list UnifiedItem) : portsOf (a ++ b) = portsOf a ++ portsOf b.
Proof. induction a as [|x a IH]; [done|]. simpl. by rewrite IH, app_assoc. Qed.

Lemma portsOf_Permutation (a b : list UnifiedItem) :
  a ≡ₚ b -> portsOf a ≡ₚ portsOf b.
Proof.
  induction 1 as [|x a b _ IH|x y a|a b c _ IH1 _ IH2]; simpl.
  - done.
  - by rewrite IH.
  - rewrite !app_assoc. f_equiv. apply Permutation_app_comm.
  - by rewrite IH1.
Qed.

Lemma mapPorts_insert (m : gmap string UnifiedItem) (k : string)
    (item : UnifiedItem) (pj : PortJSON) :
  m !! k = Some item ->
  mapPorts (<[k := withPort item pj]> m) ≡ₚ pj :: mapPorts m.
Proof.
  intros Hk. unfold mapPorts.
  rewrite <- (insert_delete_eq m k (withPort item pj)).
  rewrite <- (insert_delete_id m k item Hk) at 2.
  rewrite (portsOf_Permutation _ _
             (fmap_Permutation snd _ _
                (map_to_list_insert (delete k m) k (withPort item pj)
                   (lookup_delete_eq m k)))).
  rewrite (portsOf_Permutation _ _
             (fmap_Permutation snd _ _
                (map_to_list_insert (delete k m) k item (lookup_delete_eq m k)))).
  simpl. rewrite <- app_assoc. simpl.
  rewrite <- Permutation_middle. done.
Qed.

Lemma rangeMap_elem {V} (m : gmap string V) (visited : list (string * V))
    (k : string) (v : V) :
  Runtime.rangeMap m visited -> (k, v) ∈ visited <-> m !! k = Some v.
Proof. unfold Runtime.rangeMap. intros ->. apply elem_of_map_to_list. Qed.

(** The inner loop stops at the first workspace, in the order of the
    visit, whose path is a prefix of the port's directory. *)
Lemma firstMatch_Some (portPath : string) (visited : list (string * UnifiedItem))
    (k : string) (item : UnifiedItem) :
  firstMatch portPath visited = Some (k, item) <->
  exists before after,
    visited = before ++ (k, item) :: after /\
    Go.HasPrefix portPath k = true /\
    forall x, x ∈ before -> Go.HasPrefix portPath x.1 = false.
Proof.
  induction visited as [|[k' item'] rest IH]; simpl.
  - split; [done|]. intros (before & after & Heq & _). by destruct before.
  - destruct (Go.HasPrefix portPath k') eqn:Hk'.
    + split.
      * intros [= -> ->]. exists [], rest. split; [done|]. split; [done|].
        intros x Hx. by apply elem_of_nil in Hx.
      * intros ([|b before] & after & Heq & Hpre & Hbefore); simplify_eq/=.
        -- done.
        -- specialize (Hbefore (k', item') ltac:(left)).
           simpl in Hbefore. congruence.
    + rewrite IH. split.
      * intros (before & after & -> & Hpre & Hbefore).
        exists ((k', item') :: before), after. split; [done|]. split; [done|].
        intros x [->|Hx]%elem_of_cons; [done|by apply Hbefore].
      * intros ([|b before] & after & Heq & Hpre & Hbefore); simplify_eq/=.
        -- congruence.
        -- exists before, after. split; [done|].
           split; [done|]. intros x Hx. apply Hbefore. by right.
Qed.

Lemma firstMatch_None (portPath : string) (visited : list (string * UnifiedItem)) :
  firstMatch portPath visited = None <->
  forall x, x ∈ visited -> Go.HasPrefix portPath x.1 = false.
Proof.
  induction visited as [|[k' item'] rest IH]; simpl.
  - split; [|done]. intros _ x Hx. by apply elem_of_nil in Hx.
  - destruct (Go.HasPrefix portPath k') eqn:Hk'.
    + split; [done|]. intros Hall. specialize (Hall (k', item') ltac:(left)).
      simpl in Hall. congruence.
    + rewrite IH. split.
      * intros Hall x [->|Hx]%elem_of_cons; [done|by apply Hall].
      * intros Hall x Hx. apply Hall. by right.
Qed.

(** One port: it goes to the item of a workspace whose path is a prefix
    of its directory, or to the orphans when there is no such
    workspace. *)
Lemma matchPort_spec (m : gmap string UnifiedItem) (o : list PortJSON)
    (visited : list (string * UnifiedItem)) (port : PortInfo) :
  Runtime.rangeMap m visited ->
  (exists k item,
      m !! k = Some item /\ Go.HasPrefix (Path port) k = true /\
      matchPort m o visited port = (<[k := withPort item (portJSONOf port)]> m, o)) \/
  ((forall k, is_Some (m !! k) -> Go.HasPrefix (Path port) k = false) /\
   matchPort m o visited port = (m, o ++ [portJSONOf port])).
Proof.
  intros Hv. unfold matchPort.
  destruct (firstMatch (Path port) visited) as [[k item]|] eqn:Hf.
  - left. exists k, item. apply firstMatch_Some in Hf as (before & after & -> & Hpre & _).
    split; [|done]. apply (rangeMap_elem _ _ _ _ Hv).
    apply elem_of_app. right. left.
  - right. split; [|done]. intros k [item Hk].
    rewrite firstMatch_None in Hf.
    apply (Hf (k, item)). by apply (rangeMap_elem _ _ _ _ Hv).
Qed.

(** The loop over the ports. *)
Lemma matchPorts_spec (m : gmap string UnifiedItem) (o : list PortJSON)
    (ports : list PortInfo) (m' : gmap string UnifiedItem) (o' : list PortJSON) :
  matchPorts m o ports m' o' ->
  mapPorts m' ++ o' ≡ₚ (mapPorts m ++ o) ++ (portJSONOf <$> ports) /\
  (forall k, is_Some (m' !! k) <-> is_Some (m !! k)) /\
  (forall k item', m' !! k = Some item' ->
     exists item, m !! k = Some item /\ sameWorkspace item item' /\
       forall pj, pj ∈ Ports item' ->
                  pj ∈ Ports item \/ Go.HasPrefix (WorkDir pj) k = true) /\
  (forall pj, pj ∈ o' ->
     pj ∈ o \/ forall k, is_Some (m !! k) -> Go.HasPrefix (WorkDir pj) k = false).
Proof.
  induction 1 as [m o|m o visited port rest m' o' Hv Hrest IH].
  - split; [by rewrite fmap_nil, app_nil_r|]. split; [done|]. split.
    + intros k item' Hk. exists item'. split; [done|]. split; [done|]. by left.
    + intros pj Hpj. by left.
  - destruct IH as (IHperm & IHdom & IHitems & IHorph).
    destruct (matchPort_spec m o visited port Hv)
      as [(k & item & Hk & Hpre & Hstep)|[Hnone Hstep]];
      rewrite Hstep in *; cbn [fst snd] in *.
    + split; [|split; [|split]].
      * rewrite IHperm, fmap_cons. rewrite mapPorts_insert by done.
        simpl. apply Permutation_middle.
      * intros k'. rewrite IHdom.
        destruct (decide (k = k')) as [->|Hne].
        -- rewrite lookup_insert_eq. split; [by eauto|]. intros _. by eexists.
        -- by rewrite lookup_insert_ne.
      * intros k' item' Hk'. destruct (IHitems k' item' Hk') as (it & Hit & Hsame & Hports).
        destruct (decide (k = k')) as [->|Hne].
        -- rewrite lookup_insert_eq in Hit. injection Hit as <-.
           exists item. split; [done|]. split; [done|].
           intros pj Hpj. destruct (Hports pj Hpj) as [Hin|?]; [|by right].
           simpl in Hin. apply elem_of_app in Hin as [?|Hin]; [by left|].
           apply list_elem_of_singleton in Hin as ->. by right.
        -- rewrite lookup_insert_ne in Hit by done. exists it. done.
      * intros pj Hpj. destruct (IHorph pj Hpj) as [?|Hno]; [by left|right].
        intros k' Hk'. apply Hno.
        destruct (decide (k = k')) as [->|Hne];
          [rewrite lookup_insert_eq; by eexists|by rewrite lookup_insert_ne].
    + split; [|split; [|split]].
      * rewrite IHperm, fmap_cons. rewrite <- !app_assoc. done.
      * done.
      * done.
      * intros pj Hpj. destruct (IHorph pj Hpj) as [Hin|?]; [|by right].
        apply elem_of_app in Hin as [?|Hin]; [by left|].
        apply list_elem_of_singleton in Hin as ->. by right.
Qed.

(** The loop reaches an end whatever the visits. *)
Lemma matchPorts_total (ports : list PortInfo) :
  forall m o, exists m' o', matchPorts m o ports m' o'.
Proof.
  induction ports as [|port rest IH]; intros m o.
  - exists m, o. constructor.
  - destruct (IH (matchPort m o (map_to_list m) port).1
                 (matchPort m o (map_to_list m) port).2) as (m' & o' & Hrest).
    exists m', o'. apply (matchPorts_next m o (map_to_list m)); [|done].
    by unfold Runtime.rangeMap.
Qed.

Lemma itemLess_key (a b : UnifiedItem) : itemLess a b = (LastActive a <? LastActive b).
Proof. done. Qed.

Lemma unmatched_true (workspaces : list CursorWorkspace) (port : PortInfo) :
  unmatched workspaces port = true <->
  forall ws, ws ∈ workspaces -> Go.HasPrefix (Path port) (wsPath ws) = false.
Proof.
  unfold unmatched. rewrite forallb_forall. split.
  - intros Hall ws Hws. apply negb_true_iff, Hall. by apply list_elem_of_In.
  - intros Hall ws Hws. apply negb_true_iff, Hall. by apply list_elem_of_In.
Qed.

(** The orphans are the ports no workspace matches, in the order of the
    input. *)
Lemma matchPorts_orphans (workspaces : list CursorWorkspace)
    (m : gmap string UnifiedItem) (o : list PortJSON)
    (ports : list PortInfo) (m' : gmap string UnifiedItem) (o' : list PortJSON) :
  matchPorts m o ports m' o' ->
  (forall k, is_Some (m !! k) <-> k ∈ wsPath <$> workspaces) ->
  o' = o ++ (portJSONOf <$> filter (fun port => unmatched workspaces port = true) ports).
Proof.
  induction 1 as [m o|m o visited port rest m' o' Hv Hrest IH]; intros Hkeys.
  - by rewrite filter_nil, fmap_nil, app_nil_r.
  - destruct (matchPort_spec m o visited port Hv)
      as [(k & item & Hk & Hpre & Hstep)|[Hnone Hstep]];
      rewrite Hstep in *; cbn [fst snd] in *.
    + rewrite filter_cons_False.
      * apply IH. intros k'. rewrite <- Hkeys.
        destruct (decide (k = k')) as [->|Hne].
        -- rewrite lookup_insert_eq. split; [by eauto|]. intros _. by eexists.
        -- by rewrite lookup_insert_ne.
      * rewrite unmatched_true. intros Hall.
        assert (Hin : k ∈ wsPath <$> workspaces) by (apply Hkeys; by eexists).
        apply list_elem_of_fmap in Hin as (ws & -> & Hws).
        specialize (Hall ws Hws). congruence.
    + rewrite filter_cons_True.
      * rewrite fmap_cons, IH by done. by rewrite <- app_assoc.
      * rewrite unmatched_true. intros ws Hws. apply Hnone, Hkeys.
        apply list_elem_of_fmap. by exists ws.
Qed.

End MatchFacts.

Section ReconcilerFacts.
Variable secondsSinceActive : Z -> Z.

Local Abbreviation wsMap := (workspaceMapOf secondsSinceActive).

(** The workspace items before any port is matched. *)
Lemma workspaceMapOf_spec (workspaces : list CursorWorkspace) :
  (forall k item, wsMap workspaces !! k = Some item ->
     ItemType item = "workspace" /\ WorkspacePath item = k /\ Ports item = [] /\
     exists ws, ws ∈ workspaces /\ wsPath ws = k /\
                WorkspaceName item = Base k /\
                LastActive item = secondsSinceActive (LastModified ws)) /\
  (forall ws, ws ∈ workspaces -> is_Some (wsMap workspaces !! wsPath ws)).
Proof.
  unfold workspaceMapOf.
  induction workspaces as [|ws workspaces IH] using rev_ind.
  - split.
    + intros k item. simpl. by rewrite lookup_empty.
    + intros ws Hws. by apply elem_of_nil in Hws.
  - rewrite foldl_app. cbn [foldl]. destruct IH as [IH1 IH2]. split.
    + intros k item.
      destruct (decide (wsPath ws = k)) as [<-|Hne].
      * rewrite lookup_insert_eq. intros [= <-]. simpl.
        repeat split; try done. exists ws. split; [|done].
        apply elem_of_app. right. left.
      * rewrite lookup_insert_ne by done. intros Hk.
        destruct (IH1 k item Hk) as (? & ? & ? & ws' & ? & ? & ? & ?).
        repeat split; try done. exists ws'. split; [|done].
        apply elem_of_app. by left.
    + intros ws' [Hws'|Hws']%elem_of_app.
      * destruct (decide (wsPath ws = wsPath ws')) as [<-|Hne];
          [rewrite lookup_insert_eq; by eexists|].
        rewrite lookup_insert_ne by done. by apply IH2.
      * apply list_elem_of_singleton in Hws' as ->. rewrite lookup_insert_eq. by eexists.
Qed.

(** C7: every port record lands in exactly one bucket of the result:
    the bucket of a workspace whose path is a prefix of its working
    directory, the first the visit of the workspace map meets, when
    there is one, and the one orphaned bucket otherwise.  The orphaned
    bucket, present when some port matches no workspace, is the last
    item and holds exactly the ports no workspace matches, in the order
    of the input.  There is one item for each workspace path, with the
    idle seconds of a workspace of that path, and the workspace items
    stand in ascending order of their idle seconds. *)
Theorem displayUnified_partition (userPorts : list PortInfo)
    (workspaces : list CursorWorkspace) :
  (exists result, displayUnified secondsSinceActive userPorts workspaces result) /\
  (forall m o before k item after port,
      Go.HasPrefix (Path port) k = true ->
      (forall x, x ∈ before -> Go.HasPrefix (Path port) x.1 = false) ->
      matchPort m o (before ++ (k, item) :: after) port
      = (<[k := withPort item (portJSONOf port)]> m, o)) /\
  forall result, displayUnified secondsSinceActive userPorts workspaces result ->
    exists workspaceItems,
      let orphans :=
        portJSONOf <$> filter (fun port => unmatched workspaces port = true)
                              userPorts in
      result = workspaceItems
               ++ match orphans with
                  | [] => []
                  | _ :: _ => [ {| ItemType := "orphaned";
                                   WorkspacePath := EmptyString;
                                   WorkspaceName := EmptyString;
                                   LastActive := 0; Ports := orphans |} ]
                  end /\
      portsOf result ≡ₚ portJSONOf <$> userPorts /\
      (forall item, item ∈ workspaceItems ->
         ItemType item = "workspace" /\
         (exists ws, ws ∈ workspaces /\ WorkspacePath item = wsPath ws /\
                     WorkspaceName item = Base (wsPath ws) /\
                     LastActive item = secondsSinceActive (LastModified ws)) /\
         forall pj, pj ∈ Ports item ->
                    pj ∈ portJSONOf <$> userPorts /\
                    Go.HasPrefix (WorkDir pj) (WorkspacePath item) = true) /\
      NoDup (WorkspacePath <$> workspaceItems) /\
      (forall ws, ws ∈ workspaces -> wsPath ws ∈ WorkspacePath <$> workspaceItems) /\
      (forall i j a b, (i < j)%nat ->
         workspaceItems !! i = Some a -> workspaceItems !! j = Some b ->
         LastActive a <= LastActive b).
Proof.
  destruct (workspaceMapOf_spec workspaces) as [Hinit Hdom0].
  split; [|split].
  - destruct (matchPorts_total userPorts (wsMap workspaces) []) as (m & o & Hm).
    destruct (sortSlice_total LastActive itemLess itemLess_key (map_to_list m).*2)
      as [items Hs].
    eexists. exists m, o, (map_to_list m), items.
    split; [done|]. split; [by unfold Runtime.rangeMap|]. split; [done|done].
  - intros m o before k item after port Hpre Hbefore. unfold matchPort.
    assert (firstMatch (Path port) (before ++ (k, item) :: after) = Some (k, item)) as ->
      by (apply firstMatch_Some; eauto).
    done.
  - intros result (m & o & visited & items & Hm & Hv & Hs & ->).
    exists items. cbv zeta.
    destruct (matchPorts_spec _ _ _ _ _ Hm) as (Hperm & Hdom & Hitems & Horph).
    assert (Hkeys : forall k, is_Some (wsMap workspaces !! k)
                              <-> k ∈ wsPath <$> workspaces).
    { intros k. split.
      - intros [item Hk]. destruct (Hinit k item Hk) as (_ & _ & _ & ws & Hws & <- & _).
        apply list_elem_of_fmap. by exists ws.
      - intros (ws & -> & Hws)%list_elem_of_fmap. by apply Hdom0. }
    pose proof (matchPorts_orphans workspaces _ _ _ _ _ Hm Hkeys) as Ho.
    cbn [app] in Ho. rewrite <- Ho.
    destruct Hs as [Hsperm Hsorted].
    assert (Hitem : forall item, item ∈ items ->
               exists k, m !! k = Some item).
    { intros item Hin. rewrite <- Hsperm in Hin.
      apply list_elem_of_fmap in Hin as ([k it] & -> & Hin).
      exists k. by apply (rangeMap_elem _ _ _ _ Hv). }
    assert (Hall : portsOf items ++ o ≡ₚ portJSONOf <$> userPorts).
    { rewrite <- (portsOf_Permutation _ _ Hsperm).
      unfold Runtime.rangeMap in Hv.
      rewrite (portsOf_Permutation _ _ (fmap_Permutation snd _ _ Hv)).
      fold (mapPorts m). rewrite Hperm.
      assert (mapPorts (wsMap workspaces) = []) as ->.
      { unfold mapPorts.
        assert (Hnil : forall item, item ∈ (map_to_list (wsMap workspaces)).*2 ->
                                    Ports item = []).
        { intros item ([k it] & -> & Hin)%list_elem_of_fmap.
          apply elem_of_map_to_list in Hin. by destruct (Hinit k it Hin) as (_ & _ & ? & _). }
        induction ((map_to_list (wsMap workspaces)).*2) as [|x l IHl]; [done|].
        simpl. rewrite (Hnil x) by left. simpl. apply IHl.
        intros item Hin. apply Hnil. by right. }
      done. }
    assert (Hpath : forall k item, m !! k = Some item ->
               ItemType item = "workspace" /\ WorkspacePath item = k /\
               (exists ws, ws ∈ workspaces /\ wsPath ws = k /\
                           WorkspaceName item = Base k /\
                           LastActive item = secondsSinceActive (LastModified ws)) /\
               forall pj, pj ∈ Ports item -> Go.HasPrefix (WorkDir pj) k = true).
    { intros k item Hk. destruct (Hitems k item Hk) as (it0 & H0 & Hsame & Hports).
      destruct (Hinit k it0 H0) as (Hty & Hwp & Hnil & ws & Hws & Hk' & Hname & Hact).
      destruct Hsame as (Hty' & Hwp' & Hname' & Hact').
      split; [congruence|]. split; [congruence|]. split.
      { exists ws. split; [done|]. split; [done|]. split; congruence. }
      intros pj Hpj. destruct (Hports pj Hpj) as [Hold|?]; [|done].
      rewrite Hnil in Hold. by apply elem_of_nil in Hold. }
    split; [done|]. split; [|split; [|split; [|split]]].
    + rewrite portsOf_app, <- Hall. f_equiv.
      destruct o; [done|]. simpl. by rewrite app_nil_r.
    + intros item Hin. destruct (Hitem item Hin) as [k Hk].
      destruct (Hpath k item Hk) as (Hty & Hwp & (ws & Hws & Hk' & Hname & Hact) & Hpre).
      split; [done|]. split.
      { exists ws. rewrite Hwp, Hk'. done. }
      intros pj Hpj. split; [|rewrite Hwp; by apply Hpre].
      rewrite <- Hall. apply elem_of_app. left.
      clear -Hin Hpj. induction items as [|x l IH]; [by apply elem_of_nil in Hin|].
      simpl. apply elem_of_app. apply elem_of_cons in Hin as [->|Hin]; [by left|].
      right. by apply IH.
    + assert (Heq : WorkspacePath <$> visited.*2 = visited.*1).
      { apply list_eq. intros i. rewrite !list_lookup_fmap.
        destruct (visited !! i) as [[k it]|] eqn:Hi; [|done]. simpl. f_equal.
        assert (Hin : (k, it) ∈ visited) by (apply list_elem_of_lookup; eauto).
        apply (rangeMap_elem _ _ _ _ Hv) in Hin.
        by destruct (Hpath k it Hin) as (_ & ? & _). }
      rewrite <- Hsperm, Heq. unfold Runtime.rangeMap in Hv. rewrite Hv.
      apply NoDup_fst_map_to_list.
    + intros ws Hws. destruct (Hdom0 ws Hws) as [it0 H0].
      assert (is_Some (m !! wsPath ws)) as [item Hk] by (apply Hdom; by eexists).
      apply list_elem_of_fmap. exists item. split.
      * by destruct (Hpath _ _ Hk) as (_ & -> & _).
      * rewrite <- Hsperm. apply list_elem_of_fmap. exists (wsPath ws, item).
        split; [done|]. by apply (rangeMap_elem _ _ _ _ Hv).
    + intros i j a b Hij Ha Hb.
      apply (sortSlice_ascending LastActive itemLess itemLess_key
               visited.*2 items (conj Hsperm Hsorted) i j a b Hij Ha Hb).
Qed.

End ReconcilerFacts.

(** The port under the sample workspace goes to its bucket, the other
    one to the orphans; the buckets of the result hold the two ports. *)
Lemma displayUnified_partition_witness :
  displayUnified (fun t => t) [webPort; apiPort] [appWorkspace] sampleUnified /\
  portsOf sampleUnified ≡ₚ portJSONOf <$> [webPort; apiPort].
Proof.
  assert (Hrun : displayUnified (fun t => t) [webPort; apiPort] [appWorkspace]
                                sampleUnified).
  { eexists _, _, _, _. split.
    - eapply matchPorts_next; [by unfold Runtime.rangeMap|].
      eapply matchPorts_next; [by unfold Runtime.rangeMap|].
      apply matchPorts_done.
    - split; [by unfold Runtime.rangeMap|]. split.
      + split; [reflexivity|]. vm_compute. repeat constructor.
      + by vm_compute. }
  split; [exact Hrun|].
  destruct (displayUnified_partition (fun t => t) [webPort; apiPort] [appWorkspace])
    as (_ & _ & Hall).
  by destruct (Hall sampleUnified Hrun) as (items & _ & Hperm & _).
Defined.

(** ** Discovery ledger *)
Section LogText.

Lemma allBytes_zeros p (n : nat) :
  p "0"%char = true -> Go.allBytes p (Clock.zeros n) = true.
Proof. intros Hp. induction n as [|n IH]; [done|]. simpl. by rewrite Hp, IH. Qed.

Lemma appendInt_bytes (x : Z) (width : nat) :
  Go.allBytes isStampByte (Clock.appendInt x width) = true.
Proof.
  assert (Hd : forall c, isDecimalByte c = true -> isStampByte c = true).
  { intros c Hc. unfold isStampByte. by rewrite Hc. }
  unfold Clock.appendInt. rewrite !allBytes_app.
  rewrite (allBytes_zeros isStampByte) by done.
  rewrite (allBytes_weaken isDecimalByte isStampByte _ Hd (Itoa_bytes _)).
  by destruct (x <? 0).
Qed.

Lemma layout_bytes (t : Z) : Go.allBytes isStampByte (Clock.layout t) = true.
Proof.
  unfold Clock.layout. destruct (Clock.civil (t / 86400)) as [[y m] d].
  by rewrite !allBytes_app, !appendInt_bytes.
Qed.

Section Stamp.
Variable zoneOffset : Z -> Z.

Lemma formatTime_free (c : ascii) (t : Z) :
  isStampByte c = false -> Go.freeOf c (formatTime zoneOffset t) = true.
Proof.
  intros Hc. unfold formatTime.
  apply (allBytes_weaken isStampByte); [|apply layout_bytes].
  intros x Hx. apply negb_true_iff, Ascii.eqb_neq. intros ->. congruence.
Qed.

Lemma logLine_content (now : Z) (p : PortInfo) :
  logLine zoneOffset now p = logContent zoneOffset now p +:+ newline.
Proof. unfold logLine, logContent. by rewrite !app_assoc_str. Qed.

(** The line of a clean record splits at its tabs into its five
    fields. *)
Lemma Split_logContent (now : Z) (p : PortInfo) :
  cleanRecord p ->
  Go.Split (logContent zoneOffset now p) "009"
  = [formatTime zoneOffset (startTime now p); Go.Itoa (Port p); PID p; Command p;
     Path p].
Proof.
  intros (Hpid & Hcmd & Hpath). unfold cleanField in *.
  apply andb_true_iff in Hpid as [Hpid _]. apply andb_true_iff in Hcmd as [Hcmd _].
  apply andb_true_iff in Hpath as [Hpath _].
  unfold logContent, tab.
  repeat match goal with
         | |- context [String "009" EmptyString +:+ ?s] =>
             change (String "009" EmptyString +:+ s) with (String "009" s)
         end.
  rewrite Split_app by by apply formatTime_free.
  rewrite Split_app by by apply Itoa_free.
  rewrite Split_app by done. rewrite Split_app by done.
  by rewrite Split_free.
Qed.

Lemma logContent_no_newline (now : Z) (p : PortInfo) :
  cleanRecord p -> Go.freeOf "010" (logContent zoneOffset now p) = true.
Proof.
  intros (Hpid & Hcmd & Hpath). unfold cleanField in *.
  apply andb_true_iff in Hpid as [_ Hpid]. apply andb_true_iff in Hcmd as [_ Hcmd].
  apply andb_true_iff in Hpath as [_ Hpath].
  unfold logContent. rewrite !freeOf_app, Hpid, Hcmd, Hpath.
  rewrite formatTime_free by done. rewrite Itoa_free by done. done.
Qed.

Lemma logContent_not_empty (now : Z) (p : PortInfo) :
  Go.isEmpty (logContent zoneOffset now p) = false.
Proof.
  unfold logContent, tab.
  change (String "009" EmptyString +:+ ?s) with (String "009" s).
  by destruct (formatTime zoneOffset (startTime now p)).
Qed.

Lemma lineFields_logContent (now : Z) (p : PortInfo) :
  cleanRecord p ->
  lineFields (logContent zoneOffset now p)
  = Some (formatTime zoneOffset (startTime now p), Go.Itoa (Port p), Path p).
Proof. intros Hp. unfold lineFields. by rewrite Split_logContent. Qed.

Lemma lineKey_logContent (now : Z) (p : PortInfo) :
  cleanRecord p -> lineKey (logContent zoneOffset now p) = Some (logKey p).
Proof.
  intros Hp. unfold lineKey. rewrite logContent_not_empty.
  by rewrite Split_logContent.
Qed.

(** A line of a clean record carries a port and a path exactly when
    they are the record's. *)
Lemma lineHasKey_logContent (now : Z) (p : PortInfo) (port : Z) (path : string) :
  cleanRecord p ->
  lineHasKey port path (logContent zoneOffset now p) = true ->
  logKey p = Go.Itoa port +:+ ":" +:+ path.
Proof.
  intros Hp. unfold lineHasKey. rewrite lineFields_logContent by done.
  intros [H1 H2]%andb_true_iff.
  apply bool_decide_eq_true in H1. apply bool_decide_eq_true in H2.
  unfold logKey. by rewrite H1, H2.
Qed.

(** Within the range of [time.Duration] the start time is the
    observation time less the uptime. *)
Lemma startTime_exact (now : Z) (p : PortInfo) :
  0 <= UptimeSeconds p <= maxDurationSeconds ->
  startTime now p = now - UptimeSeconds p * Clock.second.
Proof.
  unfold maxDurationSeconds, startTime, Clock.second. intros Hu.
  rewrite (wrapInt_id (- UptimeSeconds p))
    by (unfold Go.isInt, Go.minInt, Go.maxInt; lia).
  rewrite intMul_exact by (unfold Go.isInt, Go.minInt, Go.maxInt; lia). lia.
Qed.

End Stamp.

Lemma concatStrings_app (a b : list string) :
  concatStrings (a ++ b) = concatStrings a +:+ concatStrings b.
Proof.
  induction a as [|x a IH]; [done|]. simpl. by rewrite IH, app_assoc_str.
Qed.

Lemma joinLines_app (a b : list string) :
  joinLines (a ++ b) = joinLines a +:+ joinLines b.
Proof. unfold joinLines. by rewrite map_app, concatStrings_app. Qed.

(** A file of complete lines splits into those lines and an empty
    rest. *)
Lemma Split_joinLines (lines : list string) :
  Forall (fun l => Go.freeOf "010" l = true) lines ->
  Go.Split (joinLines lines) "010" = lines ++ [EmptyString].
Proof.
  induction 1 as [|l lines Hl _ IH]; [done|].
  unfold joinLines in *. cbn [map concatStrings].
  rewrite app_assoc_str. unfold newline at 1.
  change (String "010" EmptyString +:+ ?s) with (String "010" s).
  rewrite Split_app by done. by rewrite IH.
Qed.

Lemma seenStep_lineKey (seen : gset string) (line : string) :
  seenStep seen line
  = match lineKey line with Some k => {[ k ]} ∪ seen | None => seen end.
Proof.
  unfold seenStep, lineKey. destruct (Go.isEmpty line); [done|].
  by destruct (5 <=? length (Go.Split line "009"))%nat.
Qed.

Lemma foldl_seenStep (lines : list string) (seen : gset string) :
  foldl seenStep seen lines = seen ∪ list_to_set (omap lineKey lines).
Proof.
  revert seen. induction lines as [|l lines IH]; intros seen.
  - simpl. set_solver.
  - cbn [foldl]. rewrite IH, seenStep_lineKey.
    change (omap lineKey (l :: lines))
      with (match lineKey l with
            | Some k => k :: omap lineKey lines
            | None => omap lineKey lines
            end).
    destruct (lineKey l) as [k|]; [|done]. set_solver.
Qed.

(** The keys the loader derives from a file of complete lines. *)
Lemma loadSeen_joinLines (lines : list string) :
  Forall (fun l => Go.freeOf "010" l = true) lines ->
  loadSeen (joinLines lines) = list_to_set (omap lineKey lines).
Proof.
  intros Hl. unfold loadSeen. rewrite Split_joinLines by done.
  rewrite foldl_seenStep, omap_app. set_solver.
Qed.

End LogText.

Section LogRuns.
Variable zoneOffset : Z -> Z.

Local Abbreviation line := (logLine zoneOffset).
Local Abbreviation content := (logContent zoneOffset).

(** The loop over the ports writes the lines of the new records. *)
Lemma foldl_logStep (now : Z) (ports : list PortInfo) (seen : gset string)
    (written : list string) :
  (foldl (logStep zoneOffset now) (seen, written) ports).2
  = written ++ (line now <$> newRecords seen ports).
Proof.
  revert seen written. induction ports as [|p rest IH]; intros seen written.
  - simpl. by rewrite app_nil_r.
  - cbn [foldl newRecords]. unfold logStep at 2.
    destruct (bool_decide (Path p = "N/A") || bool_decide (Path p = "/")); [apply IH|].
    case_decide; [apply IH|].
    rewrite IH, fmap_cons. by rewrite <- app_assoc.
Qed.

Lemma newRecords_spec (ports : list PortInfo) (seen : gset string) :
  NoDup (logKey <$> newRecords seen ports) /\
  forall r, r ∈ newRecords seen ports ->
            r ∈ ports /\ Path r <> "N/A" /\ Path r <> "/" /\ logKey r ∉ seen.
Proof.
  revert seen. induction ports as [|p rest IH]; intros seen; cbn [newRecords].
  - split; [constructor|]. intros r Hr. by apply elem_of_nil in Hr.
  - destruct (bool_decide (Path p = "N/A") || bool_decide (Path p = "/")) eqn:Hskip.
    { destruct (IH seen) as [Hnd Hall]. split; [done|].
      intros r Hr. destruct (Hall r Hr) as (? & ? & ? & ?). split; [by right|done]. }
    apply orb_false_iff in Hskip as [Hna Hroot].
    apply bool_decide_eq_false in Hna. apply bool_decide_eq_false in Hroot.
    case_decide as Hseen.
    { destruct (IH seen) as [Hnd Hall]. split; [done|].
      intros r Hr. destruct (Hall r Hr) as (? & ? & ? & ?). split; [by right|done]. }
    destruct (IH ({[logKey p]} ∪ seen)) as [Hnd Hall]. split.
    + rewrite fmap_cons. constructor; [|done].
      intros (r & Hk & Hr)%list_elem_of_fmap.
      destruct (Hall r Hr) as (_ & _ & _ & Hnot). rewrite Hk in Hnot. set_solver.
    + intros r [->|Hr]%elem_of_cons; [split; [left|done]|].
      destruct (Hall r Hr) as (? & ? & ? & Hnot).
      split; [by right|]. split; [done|]. split; [done|]. set_solver.
Qed.

(** One run on a log of complete lines: it writes the lines of the new
    records and leaves a log of complete lines. *)
Lemma logNewPorts_spec (env : RunEnv) (ports : list PortInfo)
    (file : option string) (lines : list string) :
  completeLog file lines -> readOk env = true -> Forall cleanRecord ports ->
  exists new,
    (logNewPorts zoneOffset env ports file).2 = line (now env) <$> new /\
    completeLog (logNewPorts zoneOffset env ports file).1
                (lines ++ (content (now env) <$> new)) /\
    NoDup (logKey <$> new) /\
    forall r, r ∈ new ->
      r ∈ ports /\ Path r <> "N/A" /\ Path r <> "/" /\
      logKey r ∉ (list_to_set (omap lineKey lines) : gset string).
Proof.
  intros [Hlines Hfile] Hread Hclean. unfold logNewPorts. rewrite Hread.
  destruct (openOk env); cbn [negb].
  - set (seen := match file with
                 | Some data => loadSeen data
                 | None => ∅
                 end).
    assert (Hseen : seen = list_to_set (omap lineKey lines)).
    { unfold seen. destruct Hfile as [-> | [-> ->]]; [by apply loadSeen_joinLines|done]. }
    rewrite foldl_logStep. cbn [app fst snd].
    destruct (newRecords_spec ports seen) as [Hnd Hall].
    exists (newRecords seen ports). split; [done|]. split; [|split; [done|]].
    + assert (Hnew : Forall cleanRecord (newRecords seen ports)).
      { apply Forall_forall. intros r Hr. destruct (Hall r Hr) as (Hin & _).
        rewrite Forall_forall in Hclean. by apply Hclean. }
      split.
      * apply Forall_app. split; [done|]. apply Forall_fmap.
        eapply Forall_impl; [exact Hnew|]. intros r Hr.
        exact (logContent_no_newline zoneOffset (now env) r Hr).
      * left. f_equal. rewrite joinLines_app.
        assert (Htext : concatStrings (line (now env) <$> newRecords seen ports)
                        = joinLines (content (now env) <$> newRecords seen ports)).
        { unfold joinLines. f_equal. rewrite <- list_fmap_compose.
          apply list_fmap_ext. intros i r _. apply logLine_content. }
        rewrite Htext. by destruct Hfile as [-> | [-> ->]].
    + intros r Hr. rewrite <- Hseen. by apply Hall.
  - exists []. cbn [fst snd]. rewrite fmap_nil, app_nil_r.
    split; [done|]. split; [done|]. split; [constructor|].
    intros r Hr. by apply elem_of_nil in Hr.
Qed.

Lemma omap_lineKey_content (now : Z) (new : list PortInfo) :
  Forall cleanRecord new ->
  omap lineKey (content now <$> new) = logKey <$> new.
Proof.
  induction 1 as [|r new Hr _ IH]; [done|].
  rewrite !fmap_cons.
  change (omap lineKey (content now r :: (content now <$> new)))
    with (match lineKey (content now r) with
          | Some k => k :: omap lineKey (content now <$> new)
          | None => omap lineKey (content now <$> new)
          end).
  by rewrite lineKey_logContent, IH.
Qed.

(** Runs one after the other: what was written are the lines of records,
    each with the instant of its run, whose keys differ from one another
    and from the keys the log held at the start. *)
Lemma logRuns_spec (runs : list (RunEnv * list PortInfo)) :
  forall (file : option string) (lines : list string),
    completeLog file lines ->
    Forall (fun run => readOk run.1 = true /\ Forall cleanRecord run.2) runs ->
    exists logged : list (Z * PortInfo),
      (logRuns zoneOffset runs file).2 = ((fun x => line x.1 x.2) <$> logged) /\
      NoDup ((fun x => logKey x.2) <$> logged) /\
      forall x, x ∈ logged ->
        cleanRecord x.2 /\ Path x.2 <> "N/A" /\ Path x.2 <> "/" /\
        (logKey x.2 ∉ (list_to_set (omap lineKey lines) : gset string)) /\
        exists env ports, (env, ports) ∈ runs /\ x.1 = now env /\ x.2 ∈ ports.
Proof.
  induction runs as [|[env ports] rest IH]; intros file lines Hlog Hruns.
  - exists []. cbn. split; [done|]. split; [constructor|].
    intros x Hx. by apply elem_of_nil in Hx.
  - apply Forall_cons in Hruns as [[Hread Hclean] Hrest]. cbn [fst snd] in *.
    destruct (logNewPorts_spec env ports file lines Hlog Hread Hclean)
      as (new & Hwritten & Hlog' & Hnd & Hnew).
    cbn [logRuns].
    destruct (logNewPorts zoneOffset env ports file) as [file' written] eqn:Hrun.
    cbn [fst snd] in *.
    destruct (IH file' _ Hlog' Hrest) as (logged & Hw & Hnd' & Hlogged).
    destruct (logRuns zoneOffset rest file') as [file'' written'] eqn:Hruns'.
    cbn [fst snd] in *.
    assert (Hcleannew : Forall cleanRecord new).
    { apply Forall_forall. intros r Hr. destruct (Hnew r Hr) as (Hin & _).
      rewrite Forall_forall in Hclean. by apply Hclean. }
    exists (((fun r => (now env, r)) <$> new) ++ logged).
    split; [|split].
    + rewrite fmap_app, Hw, Hwritten. f_equal.
      rewrite <- list_fmap_compose. apply list_fmap_ext. intros i r _. reflexivity.
    + rewrite fmap_app. apply NoDup_app. split; [|split; [|done]].
      * rewrite <- list_fmap_compose. done.
      * intros k Hk1 Hk2.
        rewrite <- list_fmap_compose in Hk1.
        apply list_elem_of_fmap in Hk2 as (x & -> & Hx).
        destruct (Hlogged x Hx) as (_ & _ & _ & Hnot & _). apply Hnot.
        rewrite omap_app, omap_lineKey_content by done.
        rewrite list_to_set_app. apply elem_of_union. right.
        by apply elem_of_list_to_set.
    + intros x [Hx|Hx]%elem_of_app.
      * apply list_elem_of_fmap in Hx as (r & -> & Hr). cbn [fst snd].
        destruct (Hnew r Hr) as (Hin & Hna & Hroot & Hnot).
        rewrite Forall_forall in Hcleannew.
        split; [by apply Hcleannew|]. split; [done|]. split; [done|]. split; [done|].
        exists env, ports. split; [left|done].
      * destruct (Hlogged x Hx) as (Hc & Hna & Hroot & Hnot & env' & ports' & Hin & Hnow & Hp).
        split; [done|]. split; [done|]. split; [done|]. split.
        -- intros Hk. apply Hnot. rewrite omap_app, list_to_set_app.
           apply elem_of_union. by left.
        -- exists env', ports'. split; [by right|done].
Qed.

Lemma filter_key_absent {A} (f : A -> string) (k : string) (l : list A) :
  k ∉ f <$> l -> filter (fun x => f x = k) l = [].
Proof.
  induction l as [|x l IH]; [done|]. rewrite fmap_cons. intros Hk.
  rewrite filter_cons_False by (intros <-; apply Hk; left).
  apply IH. intros Hin. apply Hk. by right.
Qed.

Lemma filter_key_NoDup {A} (f : A -> string) (k : string) (l : list A) :
  NoDup (f <$> l) -> (length (filter (fun x => f x = k) l) <= 1)%nat.
Proof.
  induction l as [|x l IH]; [simpl; lia|].
  rewrite fmap_cons. intros [Hx Hnd]%NoDup_cons.
  destruct (decide (f x = k)) as [Hk|Hk].
  - rewrite filter_cons_True by done. simpl.
    rewrite filter_key_absent by by rewrite <- Hk. simpl. lia.
  - rewrite filter_cons_False by done. by apply IH.
Qed.

End LogRuns.

Section AppendOnce.
Variable zoneOffset : Z -> Z.

Lemma filter_fmap_key {A} (P : string -> Prop) `{!forall s, Decision (P s)}
    (g : A -> string) (f : A -> string) (k : string) (l : list A) :
  (forall x, x ∈ l -> P (g x) -> f x = k) ->
  (length (filter P (g <$> l)) <= length (filter (fun x => f x = k) l))%nat.
Proof.
  induction l as [|x l IH]; intros Hall; [done|].
  rewrite fmap_cons.
  assert (Hrest : forall y, y ∈ l -> P (g y) -> f y = k)
    by (intros y Hy; apply Hall; by right).
  specialize (IH Hrest).
  destruct (decide (P (g x))) as [Hp|Hp].
  - rewrite filter_cons_True by done.
    rewrite (filter_cons_True (fun y => f y = k)) by (apply Hall; [left|done]).
    simpl. lia.
  - rewrite filter_cons_False by done.
    destruct (decide (f x = k)).
    + rewrite (filter_cons_True (fun y => f y = k)) by done. simpl. lia.
    + by rewrite (filter_cons_False (fun y => f y = k)) by done.
Qed.

(** C1, as the code has it: when the log holds complete lines, every
    run can read it and no record has a tab or a line break in its
    process id, command or path, all the runs together append at most one
    line with a given port and path; and every line a run appends is the
    line of one of its records with a usable path, its time stamp being
    the observation time less the record's uptime whenever that uptime
    fits [time.Duration] (up to 9223372036 seconds). *)
Theorem logNewPorts_append_once :
  (forall (runs : list (RunEnv * list PortInfo)) (file : option string)
          (lines : list string) (port : Z) (path : string),
      completeLog file lines ->
      Forall (fun run => readOk run.1 = true /\ Forall cleanRecord run.2) runs ->
      (length (filter (fun l => lineHasKey port path l = true)
                 (Go.Split (concatStrings (logRuns zoneOffset runs file).2) "010"))
       <= 1)%nat) /\
  (forall (env : RunEnv) (ports : list PortInfo) (file : option string) (w : string),
      w ∈ (logNewPorts zoneOffset env ports file).2 ->
      exists p,
        p ∈ ports /\ Path p <> "N/A" /\ Path p <> "/" /\
        w = logContent zoneOffset (now env) p +:+ newline /\
        (cleanRecord p -> 0 <= UptimeSeconds p <= maxDurationSeconds ->
         lineFields (logContent zoneOffset (now env) p)
         = Some (formatTime zoneOffset (now env - UptimeSeconds p * Clock.second),
                 Go.Itoa (Port p), Path p))).
Proof.
  split.
  - intros runs file lines port path Hlog Hruns.
    destruct (logRuns_spec zoneOffset runs file lines Hlog Hruns)
      as (logged & -> & Hnd & Hlogged).
    assert (Htext : concatStrings ((fun x => logLine zoneOffset x.1 x.2) <$> logged)
                    = joinLines ((fun x => logContent zoneOffset x.1 x.2) <$> logged)).
    { unfold joinLines. f_equal. rewrite <- list_fmap_compose.
      apply list_fmap_ext. intros i x _. apply logLine_content. }
    rewrite Htext, Split_joinLines.
    + rewrite filter_app, length_app.
      assert (Hlast : filter (fun l => lineHasKey port path l = true) [EmptyString] = [])
        by done.
      rewrite Hlast. simpl. rewrite Nat.add_0_r.
      etrans; [|apply (filter_key_NoDup (fun x => logKey x.2)
                         (Go.Itoa port +:+ ":" +:+ path) logged Hnd)].
      apply filter_fmap_key. intros x Hx Hhas.
      destruct (Hlogged x Hx) as (Hclean & _).
      by eapply lineHasKey_logContent.
    + apply Forall_fmap, Forall_forall. intros x Hx.
      destruct (Hlogged x Hx) as (Hclean & _).
      exact (logContent_no_newline zoneOffset x.1 x.2 Hclean).
  - intros env ports file w. unfold logNewPorts.
    destruct (openOk env); cbn [negb fst snd];
      [|intros Hw; by apply elem_of_nil in Hw].
    rewrite foldl_logStep. cbn [app].
    intros (p & -> & Hp)%list_elem_of_fmap.
    match type of Hp with
    | p ∈ newRecords ?seen ports =>
        destruct (proj2 (newRecords_spec ports seen) p Hp) as (Hin & Hna & Hroot & _)
    end.
    exists p. split; [done|]. split; [done|]. split; [done|].
    split; [apply logLine_content|].
    intros Hclean Hup. rewrite lineFields_logContent by done.
    by rewrite startTime_exact.
Qed.

End AppendOnce.

(** A record that occurs twice in a first run and once in a second run
    is logged once. *)
Lemma logNewPorts_append_once_witness :
  (length (filter (fun l => lineHasKey 3000 "/Users/alice/app" l = true)
             (Go.Split (concatStrings
                          (logRuns utc [(sampleRun, [webPort; webPort]);
                                        (sampleRun, [webPort])] None).2) "010"))
   <= 1)%nat.
Proof.
  apply (proj1 (logNewPorts_append_once utc)
           [(sampleRun, [webPort; webPort]); (sampleRun, [webPort])] None []).
  - split; [constructor|]. by right.
  - assert (Hweb : cleanRecord webPort) by (repeat split; by vm_compute).
    repeat constructor; done.
Defined.

(** C1 as stated fails: a record whose path holds a tab is logged again
    by the next run, both lines reading as port 3000 and path [/a]; and
    for an uptime beyond the range of [time.Duration] the time stamp is
    not the observation time less the uptime. *)
Lemma logNewPorts_tab_logged_twice :
  length (filter (fun l => lineHasKey 3000 "/a" l = true)
            (Go.Split (concatStrings
                         (logRuns utc [(sampleRun, [tabbedPort]);
                                       (sampleRun, [tabbedPort])] None).2) "010"))
  = 2%nat /\
  (logNewPorts utc sampleRun [ancientPort] None).2
  = [logContent utc (now sampleRun) ancientPort +:+ newline] /\
  lineFields (logContent utc (now sampleRun) ancientPort)
  = Some ("2316-02-24 22:00:36"%string, "3000"%string, "/Users/alice/app"%string) /\
  formatTime utc (now sampleRun - UptimeSeconds ancientPort * Clock.second)
  = "1731-08-05 22:26:03"%string.
Proof. repeat split; by vm_compute. Qed.

(** * Further properties *)

(** ** Decimal text read back *)
Section DecimalRoundTrip.

Lemma digitsValueFrom_app (a b : string) (acc : Z) :
  Go.digitsValueFrom acc (a +:+ b)
  = Go.digitsValueFrom (Go.digitsValueFrom acc a) b.
Proof.
  revert acc. induction a as [|c a IH]; intros acc; [done|].
  rewrite app_cons. simpl. apply IH.
Qed.

Lemma digitVal_pretty_N_char (y : N) :
  (y < 10)%N -> Go.digitVal (pretty_N_char y) = Z.of_N y.
Proof.
  intros Hy.
  assert (y = 0 \/ y = 1 \/ y = 2 \/ y = 3 \/ y = 4 \/ y = 5 \/ y = 6
          \/ y = 7 \/ y = 8 \/ y = 9)%N as Hc by lia.
  repeat (destruct Hc as [->|Hc]; [done|]). by subst.
Qed.

(** The digits [pretty_N_go] puts before [s] count for [x] above the
    value of [s]. *)
Lemma digitsValueFrom_pretty_N_go (x : N) :
  forall (s : string) (acc : Z),
    Go.digitsValueFrom acc (pretty_N_go x s)
    = Go.digitsValueFrom
        (if decide (x = 0%N) then acc
         else Go.digitsValueFrom acc (pretty_N_go x EmptyString)) s.
Proof.
  induction (N.lt_wf_0 x) as [x _ IH]. intros s acc.
  destruct (decide (x = 0%N)) as [->|Hx].
  - by rewrite pretty_N_go_0.
  - assert (Hlt : (x `div` 10 < x)%N) by (apply N.div_lt; lia).
    rewrite !(pretty_N_go_step x) by lia.
    rewrite (IH _ Hlt (String _ s)), (IH _ Hlt (String _ EmptyString)).
    by destruct (decide (x `div` 10 = 0)%N).
Qed.

Lemma digitsValue_pretty_N_go (x : N) :
  x <> 0%N -> Go.digitsValue (pretty_N_go x EmptyString) = Z.of_N x.
Proof.
  induction (N.lt_wf_0 x) as [x _ IH]. intros Hx.
  unfold Go.digitsValue in *.
  rewrite pretty_N_go_step by lia.
  rewrite digitsValueFrom_pretty_N_go.
  pose proof (N.mod_lt x 10 ltac:(lia)) as Hmod.
  pose proof (N.div_mod x 10 ltac:(lia)) as Hdiv.
  destruct (decide (x `div` 10 = 0)%N) as [Hq|Hq].
  - simpl. rewrite digitVal_pretty_N_char by done. lia.
  - rewrite IH by (try apply N.div_lt; lia).
    simpl. rewrite digitVal_pretty_N_char by done. lia.
Qed.

Lemma digitsValue_pretty_N (x : N) :
  Go.digitsValue (pretty x) = Z.of_N x.
Proof.
  unfold pretty, pretty_N. case_decide as Hx.
  - by subst.
  - by apply digitsValue_pretty_N_go.
Qed.

Lemma pretty_N_not_empty (x : N) : Go.isEmpty (pretty x) = false.
Proof.
  destruct (pretty x) as [|c r] eqn:Heq; [|done].
  assert (Hv := digitsValue_pretty_N x). rewrite Heq in Hv.
  assert (x = 0%N) as -> by (unfold Go.digitsValue in Hv; simpl in Hv; lia).
  done.
Qed.

Lemma pretty_N_allDigits (x : N) : Go.allDigits (pretty x) = true.
Proof. by apply pretty_N_bytes. Qed.

Lemma pretty_N_group (x : N) : isGroup (pretty x) = true.
Proof.
  unfold isGroup. by rewrite pretty_N_not_empty, pretty_N_allDigits.
Qed.

Lemma ParseInt_minus (g : string) :
  isGroup g = true -> Go.digitsValue g <= 2 ^ 63 ->
  Go.ParseInt (String "-" g) = Some (- Go.digitsValue g).
Proof.
  intros Hg Hv. unfold Go.ParseInt. cbn [Go.splitSign].
  unfold isGroup in Hg. apply andb_true_iff in Hg as [Hne Hd].
  apply negb_true_iff in Hne. rewrite Hne, Hd. cbn [negb orb].
  rewrite bool_decide_eq_true_2 by done.
  by rewrite (proj2 (Z.leb_le _ _)) by done.
Qed.

(** What [%d] writes, [strconv.ParseInt] reads. *)
Lemma ParseInt_Itoa (z : Z) : Go.isInt z -> Go.ParseInt (Go.Itoa z) = Some z.
Proof.
  intros [Hlo Hhi]. unfold Go.minInt, Go.maxInt in *.
  destruct z as [|p|p]; [done| |].
  - change (Go.Itoa (Z.pos p)) with (pretty (N.pos p)).
    rewrite ParseInt_group.
    + by rewrite digitsValue_pretty_N.
    + apply pretty_N_group.
    + rewrite digitsValue_pretty_N. unfold Go.maxInt. lia.
  - change (Go.Itoa (Z.neg p)) with (String "-" (pretty (N.pos p))).
    rewrite ParseInt_minus.
    + by rewrite digitsValue_pretty_N.
    + apply pretty_N_group.
    + rewrite digitsValue_pretty_N. lia.
Qed.

(** The text of a number starts with a digit or with the minus sign. *)
Lemma Itoa_head (z : Z) :
  exists c r, Go.Itoa z = String c r /\ isDecimalByte c = true.
Proof.
  pose proof (Itoa_bytes z) as Hb.
  destruct (Go.Itoa z) as [|c r] eqn:Heq.
  - exfalso. destruct z as [|p|p]; [done| |done].
    change (Go.Itoa (Z.pos p)) with (pretty (N.pos p)) in Heq.
    pose proof (pretty_N_not_empty (N.pos p)) as Hne. by rewrite Heq in Hne.
  - exists c, r. split; [done|]. simpl in Hb. by destruct (isDecimalByte c).
Qed.

End DecimalRoundTrip.

(** ** White space at the ends of a text *)
Section TrimFacts.

Lemma spaceWidth_high (c : ascii) (r : string) (k : nat) :
  Go.spaceWidth (String c r) = S k ->
  spaceByte c = true /\ highPrefix k r = true.
Proof.
  unfold spaceByte. cbn [Go.spaceWidth].
  destruct (Go.asciiSpace c) eqn:Hc.
  { intros [= <-]. done. }
  destruct r as [|c2 r2]; [done|].
  destruct ((Go.byteOf c =? 194)%N
            && ((Go.byteOf c2 =? 133)%N || (Go.byteOf c2 =? 160)%N)) eqn:H2.
  { intros [= <-]. cbn [highPrefix].
    apply andb_true_iff in H2 as [H1 H2]. apply N.eqb_eq in H1.
    apply orb_true_iff in H2 as [H2|H2]; apply N.eqb_eq in H2;
      rewrite H1, H2; done. }
  destruct r2 as [|c3 r3]; [done|].
  match goal with |- (if ?b then _ else _) = _ -> _ => destruct b eqn:H3 end;
    [|done].
  intros [= <-]. cbn [highPrefix].
  assert (128 <= Go.byteOf c /\ 128 <= Go.byteOf c2 /\ 128 <= Go.byteOf c3)%N
    as (H1 & H2' & H3').
  { repeat match goal with
           | H : (_ || _) = true |- _ => apply orb_true_iff in H as [H|H]
           | H : (_ && _) = true |- _ => apply andb_true_iff in H as [? H]
           | H : (_ =? _)%N = true |- _ => apply N.eqb_eq in H
           | H : (_ <=? _)%N = true |- _ => apply N.leb_le in H
           end; lia. }
  rewrite (proj2 (N.leb_le _ _) H1), (proj2 (N.leb_le _ _) H2'),
    (proj2 (N.leb_le _ _) H3'). by rewrite orb_true_r.
Qed.

(** A run of space runes is made of space bytes. *)
Lemma allSpace_bytes (s : string) :
  forall k, highPrefix k s = true -> Go.allSpace s k = true ->
            Go.allBytes spaceByte s = true.
Proof.
  induction s as [|c r IH]; intros k Hk Hs; [done|].
  destruct k as [|k].
  - cbn [Go.allSpace] in Hs.
    destruct (Go.spaceWidth (String c r)) as [|k'] eqn:Hw; [done|].
    apply spaceWidth_high in Hw as [Hc Hr].
    cbn [Go.allBytes]. rewrite Hc. simpl. by apply (IH k').
  - cbn [Go.allSpace highPrefix] in *.
    apply andb_true_iff in Hk as [Hc Hk].
    cbn [Go.allBytes]. unfold spaceByte at 1. rewrite Hc, orb_true_r. simpl.
    by apply (IH k).
Qed.

(** A text that holds a byte no space rune has is not a run of space. *)
Lemma allSpace_false (s : string) :
  Go.allBytes spaceByte s = false -> Go.allSpace s 0 = false.
Proof.
  intros Hb. destruct (Go.allSpace s 0) eqn:Hs; [|done].
  by rewrite (allSpace_bytes s 0) in Hb.
Qed.

Lemma spaceWidth_plain (c : ascii) (r : string) :
  spaceByte c = false -> Go.spaceWidth (String c r) = 0%nat.
Proof.
  intros Hc. destruct (Go.spaceWidth (String c r)) as [|k] eqn:Hw; [done|].
  apply spaceWidth_high in Hw as [Hc' _]. congruence.
Qed.

Lemma trimLeft_plain (c : ascii) (r : string) :
  spaceByte c = false -> Go.trimLeft (String c r) 0 = String c r.
Proof. intros Hc. cbn [Go.trimLeft]. by rewrite spaceWidth_plain. Qed.

(** White space is trimmed from the right up to the last byte that no
    space rune has. *)
Lemma trimRight_after (a : string) (c : ascii) (s : string) :
  spaceByte c = false ->
  Go.trimRight (a +:+ String c s) = a +:+ String c (Go.trimRight s).
Proof.
  intros Hc. induction a as [|x a IH].
  - rewrite !app_empty_l. cbn [Go.trimRight].
    rewrite allSpace_false; [done|]. cbn [Go.allBytes]. by rewrite Hc.
  - rewrite !app_cons. cbn [Go.trimRight].
    assert (Go.allSpace (String x (a +:+ String c s)) 0 = false) as ->.
    { apply allSpace_false. cbn [Go.allBytes]. rewrite allBytes_app.
      cbn [Go.allBytes]. rewrite Hc.
      by destruct (spaceByte x), (Go.allBytes spaceByte a). }
    by rewrite IH.
Qed.

Lemma trimRight_fixed_suffix (c : ascii) (s : string) :
  Go.trimRight (String c s) = String c s -> Go.trimRight s = s.
Proof.
  cbn [Go.trimRight]. destruct (Go.allSpace (String c s) 0); [done|].
  by intros [= ->].
Qed.

Lemma trimRight_no_newline (s : string) :
  Go.freeOf "010" s = true -> Go.freeOf "010" (Go.trimRight s) = true.
Proof.
  induction s as [|c r IH]; [done|]. intros Hs.
  cbn [Go.trimRight]. destruct (Go.allSpace (String c r) 0); [done|].
  unfold Go.freeOf in *. cbn [Go.allBytes] in *.
  apply andb_true_iff in Hs as [Hc Hr]. rewrite Hc. simpl. by apply IH.
Qed.

Lemma decimal_not_space (c : ascii) : isDecimalByte c = true -> spaceByte c = false.
Proof.
  unfold isDecimalByte. intros Hc. apply orb_true_iff in Hc as [Hc|Hc].
  - apply isDigit_cases in Hc. each_elem Hc ltac:(done).
  - apply Ascii.eqb_eq in Hc as ->. done.
Qed.

End TrimFacts.

(** ** Cutting a text at a byte *)
Section CutFacts.

Lemma cut_app (a b : string) (c : ascii) :
  Go.freeOf c a = true -> Strings.cut (a +:+ String c b) c = Some (a, b).
Proof.
  induction a as [|x a IH]; intros Hfree.
  - rewrite app_empty_l. cbn [Strings.cut]. by rewrite Ascii.eqb_refl.
  - unfold Go.freeOf in Hfree. cbn [Go.allBytes] in Hfree.
    apply andb_true_iff in Hfree as [Hx Ha].
    rewrite app_cons. cbn [Strings.cut].
    apply negb_true_iff in Hx. rewrite Hx. by rewrite IH.
Qed.

Lemma SplitN_three (a b rest : string) (c : ascii) :
  Go.freeOf c a = true -> Go.freeOf c b = true ->
  Strings.SplitN (a +:+ String c (b +:+ String c rest)) c 3 = [a; b; rest].
Proof.
  intros Ha Hb. cbn [Strings.SplitN]. rewrite cut_app by done.
  by rewrite cut_app by done.
Qed.

End CutFacts.

(** ** Workspace event log *)
Section WorkspaceLogFacts.
Variable homeDir : option string.

Lemma eventLine_content (unix : Z) (event p : string) :
  eventLine unix event p = eventContent unix event p +:+ newline.
Proof.
  unfold eventLine, eventContent. by rewrite !app_assoc_str.
Qed.

Lemma eventContent_no_newline (unix : Z) (event p : string) :
  Go.freeOf "010" event = true -> Go.freeOf "010" p = true ->
  Go.freeOf "010" (eventContent unix event p) = true.
Proof.
  intros He Hp. unfold eventContent.
  rewrite !freeOf_app, He, Hp, Itoa_free by done. done.
Qed.

(** A line the program wrote is read as the event it was written for,
    the path without the white space at its end. *)
Lemma eventOfLine_content (unix : Z) (event p : string) :
  Go.isInt unix -> Go.freeOf "," event = true ->
  eventOfLine (eventContent unix event p)
  = Some {| Timestamp := unix; Event := event; evPath := Go.trimRight p |}.
Proof.
  intros Hint Hev. unfold eventOfLine, eventContent, Go.TrimSpace.
  destruct (Itoa_head unix) as (c & r & Hhead & Hc).
  assert (Hfree : Go.freeOf "," (Go.Itoa unix) = true) by by apply Itoa_free.
  assert (Htrim : Go.trimRight
                    (Go.trimLeft (Go.Itoa unix +:+ "," +:+ event +:+ "," +:+ p) 0)
                  = Go.Itoa unix
                    +:+ String "," (event +:+ String "," (Go.trimRight p))).
  { rewrite Hhead, app_cons, trimLeft_plain by by apply decimal_not_space.
    rewrite <- app_cons, <- Hhead.
    change ("," +:+ event +:+ "," +:+ p)
      with (String "," (event +:+ String "," p)).
    replace (Go.Itoa unix +:+ String "," (event +:+ String "," p))
      with ((Go.Itoa unix +:+ String "," event) +:+ String "," p).
    2:{ by rewrite app_assoc_str, app_cons. }
    rewrite trimRight_after by done.
    by rewrite app_assoc_str, app_cons. }
  rewrite Htrim.
  assert (Go.isEmpty (Go.Itoa unix
                      +:+ String "," (event +:+ String "," (Go.trimRight p)))
          = false) as ->.
  { by rewrite Hhead, app_cons. }
  rewrite SplitN_three by done. by rewrite ParseInt_Itoa.
Qed.

Lemma eventOfLine_empty : eventOfLine EmptyString = None.
Proof. done. Qed.

(** The events of a log of complete lines. *)
Lemma readWorkspaceLog_lines (env : RunEnv) (file : option string)
    (lines : list string) :
  is_Some homeDir -> completeLog file lines -> readOk env = true ->
  readWorkspaceLog homeDir env file = Some (omap eventOfLine lines).
Proof.
  intros [home ->] [Hlines Hfile] Hread. unfold readWorkspaceLog.
  destruct Hfile as [->|[-> ->]]; [|done].
  rewrite Hread, Split_joinLines by done.
  by rewrite omap_app, app_nil_r.
Qed.

Lemma appendWorkspaceEvent_lines (env : RunEnv) (event p : string)
    (file : option string) (lines : list string) :
  is_Some homeDir -> completeLog file lines -> openOk env = true ->
  Go.freeOf "010" event = true -> Go.freeOf "010" p = true ->
  (appendWorkspaceEvent homeDir env event p file).2 = true /\
  completeLog (appendWorkspaceEvent homeDir env event p file).1
              (lines ++ [eventContent (unixOf (now env)) event p]).
Proof.
  intros [home ->] [Hlines Hfile] Hopen He Hp. unfold appendWorkspaceEvent.
  rewrite Hopen. cbn [negb fst snd]. split; [done|]. split.
  - apply Forall_app. split; [done|]. constructor; [|done].
    by apply eventContent_no_newline.
  - left. f_equal. rewrite joinLines_app, eventLine_content.
    destruct Hfile as [->|[-> ->]]; cbn [default].
    + f_equal. unfold joinLines. simpl. by rewrite app_empty_r.
    + unfold joinLines. simpl. by rewrite app_empty_r.
Qed.

(** X1.  Appending an event to a log of complete lines and reading the
    log again gives the events read before and then the new event, with
    the second of the call as its time stamp and the path without the
    white space at its end; the log stays one of complete lines.  The
    event name must hold no comma and neither text a line break. *)
Theorem readWorkspaceLog_append (env env' : RunEnv) (file : option string)
    (lines : list string) (event p : string) :
  is_Some homeDir -> completeLog file lines ->
  openOk env = true -> readOk env' = true ->
  Go.isInt (unixOf (now env)) ->
  Go.freeOf "," event = true -> Go.freeOf "010" event = true ->
  Go.freeOf "010" p = true ->
  let after := appendWorkspaceEvent homeDir env event p file in
  after.2 = true /\
  completeLog after.1 (lines ++ [eventContent (unixOf (now env)) event p]) /\
  exists before,
    readWorkspaceLog homeDir env' file = Some before /\
    readWorkspaceLog homeDir env' after.1
    = Some (before ++ [ {| Timestamp := unixOf (now env); Event := event;
                           evPath := Go.trimRight p |} ]).
Proof.
  intros Hhome Hlog Hopen Hread Hint Hcomma Hev Hp after.
  destruct (appendWorkspaceEvent_lines env event p file lines)
    as [Hok Hafter]; try done.
  split; [done|]. split; [done|].
  exists (omap eventOfLine lines). split.
  - by apply readWorkspaceLog_lines.
  - unfold after. rewrite (readWorkspaceLog_lines env' _ _ Hhome Hafter Hread).
    rewrite omap_app. do 2 f_equal.
    change (omap eventOfLine [eventContent (unixOf (now env)) event p])
      with (match eventOfLine (eventContent (unixOf (now env)) event p) with
            | Some y => [y] | None => [] end).
    by rewrite eventOfLine_content.
Qed.

End WorkspaceLogFacts.

(** A close of [/p/a] logged on a log that does not exist yet is the one
    event read back. *)
Lemma readWorkspaceLog_append_witness :
  readWorkspaceLog aliceHome sampleRun
    (addWorkspaceCloseEvent aliceHome sampleRun "/p/a" None).1
  = Some [ {| Timestamp := 1700000000; Event := "close"; evPath := "/p/a" |} ].
Proof.
  assert (Hlog : completeLog None []) by (split; [constructor|by right]).
  assert (Hint : Go.isInt (unixOf (now sampleRun))) by (by vm_compute).
  destruct (readWorkspaceLog_append aliceHome sampleRun sampleRun None []
              "close" "/p/a" ltac:(by eexists) Hlog eq_refl eq_refl Hint
              eq_refl eq_refl eq_refl)
    as (_ & _ & before & Hbefore & Hafter).
  assert (Hread : readWorkspaceLog aliceHome sampleRun None = Some [])
    by reflexivity.
  rewrite Hread in Hbefore. injection Hbefore as <-. exact Hafter.
Defined.

(** ** The state a logged event leaves *)
Section LoggedEvent.
Variable homeDir : option string.

(** X2.  An event appended for a path is read back under the path
    without the white space at its end.  The state derived for that
    path is the new event when its second is later than the second of
    every event the log held for it, and stays what it was when the log
    holds an event of it of the same or a later second; the state of
    every other path is unchanged.  The log must be one of complete
    lines, the event name without a comma, and neither text may hold a
    line break. *)
Theorem appended_event_state (env env' : RunEnv) (file : option string)
    (lines : list string) (event p : string) :
  is_Some homeDir -> completeLog file lines ->
  openOk env = true -> readOk env' = true ->
  Go.isInt (unixOf (now env)) ->
  Go.freeOf "," event = true -> Go.freeOf "010" event = true ->
  Go.freeOf "010" p = true ->
  let e := {| Timestamp := unixOf (now env); Event := event;
              evPath := Go.trimRight p |} in
  exists before after,
    readWorkspaceLog homeDir env' file = Some before /\
    readWorkspaceLog homeDir env'
      (appendWorkspaceEvent homeDir env event p file).1 = Some after /\
    (forall q, q <> Go.trimRight p ->
               lastEventsOf after !! q = lastEventsOf before !! q) /\
    ((forall x, x ∈ before -> evPath x = Go.trimRight p ->
                Timestamp x < Timestamp e) ->
     lastEventsOf after !! Go.trimRight p = Some e) /\
    ((exists x, x ∈ before /\ evPath x = Go.trimRight p /\
                Timestamp e <= Timestamp x) ->
     lastEventsOf after !! Go.trimRight p
     = lastEventsOf before !! Go.trimRight p).
Proof.
  intros Hhome Hlog Hopen Hread Hint Hcomma Hev Hp e.
  destruct (appendWorkspaceEvent_lines homeDir env event p file lines)
    as [_ Hafter]; try done.
  exists (omap eventOfLine lines), (omap eventOfLine lines ++ [e]).
  assert (Hread' : readWorkspaceLog homeDir env'
                     (appendWorkspaceEvent homeDir env event p file).1
                   = Some (omap eventOfLine lines ++ [e])).
  { rewrite (readWorkspaceLog_lines homeDir env' _ _ Hhome Hafter Hread).
    rewrite omap_app. do 2 f_equal.
    change (omap eventOfLine [eventContent (unixOf (now env)) event p])
      with (match eventOfLine (eventContent (unixOf (now env)) event p) with
            | Some y => [y] | None => [] end).
    by rewrite eventOfLine_content. }
  split; [by apply readWorkspaceLog_lines|]. split; [done|].
  set (before := omap eventOfLine lines).
  rewrite lastEventsOf_snoc. unfold lastEventStep. cbn [evPath Timestamp e].
  pose proof (lastEventsOf_spec before (Go.trimRight p)) as Hspec.
  destruct (lastEventsOf before !! Go.trimRight p) as [old|] eqn:Hold.
  - destruct Hspec as (Hpath & pre & post & Heq & Hpre & Hpost).
    assert (Hin : old ∈ before).
    { rewrite Heq. apply elem_of_app. right. by left. }
    destruct (Z.ltb_spec (Timestamp old) (unixOf (now env))) as [Hlt|Hge].
    + split; [intros q Hq; by rewrite lookup_insert_ne|].
      split; [intros _; by rewrite lookup_insert_eq|].
      intros (x & Hx & Hxp & Hxt). cbn [Timestamp e] in Hxt.
      assert (Timestamp x <= Timestamp old); [|lia].
      rewrite Heq in Hx. apply elem_of_app in Hx as [Hx|Hx].
      * specialize (Hpre x Hx Hxp). lia.
      * apply elem_of_cons in Hx as [->|Hx]; [lia|]. by apply Hpost.
    + split; [done|]. split; [|by rewrite Hold].
      intros Hall. specialize (Hall old Hin Hpath). cbn [Timestamp e] in Hall.
      lia.
  - split; [intros q Hq; by rewrite lookup_insert_ne|].
    split; [intros _; by rewrite lookup_insert_eq|].
    intros (x & Hx & Hxp & _). by destruct (Hspec x Hx).
Qed.

End LoggedEvent.

(** An open of [/p/a], given with a space at its end, logged in the
    second of the close of [/p/a] leaves that workspace closed. *)
Lemma appended_event_state_witness :
  exists after,
    readWorkspaceLog aliceHome sampleRun
      (removeWorkspaceCloseEvent aliceHome sampleRun "/p/a "
         (addWorkspaceCloseEvent aliceHome sampleRun "/p/a" None).1).1
    = Some after /\
    lastEventsOf after !! "/p/a"
    = Some {| Timestamp := 1700000000; Event := "close"; evPath := "/p/a" |}.
Proof.
  assert (Hlog : completeLog (addWorkspaceCloseEvent aliceHome sampleRun "/p/a" None).1
                             ["1700000000,close,/p/a"%string]).
  { split; [by repeat constructor|]. by left. }
  assert (Hint : Go.isInt (unixOf (now sampleRun))) by (by vm_compute).
  destruct (appended_event_state aliceHome sampleRun sampleRun _ _
              "open" "/p/a " ltac:(by eexists) Hlog eq_refl eq_refl Hint
              eq_refl eq_refl eq_refl)
    as (before & after & Hbefore & Hafter & _ & _ & Hkeep).
  exists after. split; [exact Hafter|].
  assert (Hread : readWorkspaceLog aliceHome sampleRun
                    (addWorkspaceCloseEvent aliceHome sampleRun "/p/a" None).1
                  = Some [ {| Timestamp := 1700000000; Event := "close";
                              evPath := "/p/a" |} ]) by (by vm_compute).
  rewrite Hread in Hbefore. injection Hbefore as <-.
  assert (Htrim : Go.trimRight "/p/a " = "/p/a"%string) by (by vm_compute).
  rewrite Htrim in Hkeep.
  rewrite Hkeep; [by vm_compute|].
  eexists. split; [by left|]. split; [done|]. by vm_compute.
Defined.

(** ** The list of recently closed workspaces *)
Section RecentlyClosedFacts.
Variable homeDir : option string.
Variable openWindows : string -> bool.
Variable notExist : string -> bool.
Variable cursorHistoryLimit : Z.
Local Abbreviation loop := (closedLoop openWindows notExist cursorHistoryLimit).
Local Abbreviation more := (supplementLoop openWindows notExist cursorHistoryLimit).
Local Abbreviation room := (roomFor cursorHistoryLimit).
Local Abbreviation ok := (listable openWindows notExist).

Lemma listable_false_open (p : string) : openWindows p = true -> ~ ok p.
Proof. intros Ho [Ho' _]. congruence. Qed.

Lemma listable_false_gone (p : string) : notExist p = true -> ~ ok p.
Proof. intros Hn [_ Hn']. congruence. Qed.

Lemma closedLoop_take (closed : list closedWorkspace) :
  forall acc,
    loop closed acc
    = acc ++ take (room (length acc)) (filter ok (path <$> closed)).
Proof.
  induction closed as [|ws rest IH]; intros acc.
  { cbn [closedLoop]. by rewrite fmap_nil, filter_nil, take_nil, app_nil_r. }
  cbn [closedLoop]. rewrite fmap_cons.
  destruct (openWindows (path ws)) eqn:Hopen.
  { rewrite filter_cons_False by by apply listable_false_open. apply IH. }
  destruct (notExist (path ws)) eqn:Hgone.
  { rewrite filter_cons_False by by apply listable_false_gone. apply IH. }
  rewrite filter_cons_True by done.
  rewrite length_app. cbn [length].
  destruct (Z.leb_spec cursorHistoryLimit (Z.of_nat (length acc + 1))) as [Hle|Hgt].
  - unfold roomFor. replace (Z.to_nat _) with 1%nat by lia.
    cbn [take]. by rewrite take_0.
  - rewrite IH, length_app. cbn [length]. rewrite <- app_assoc. f_equal.
    unfold roomFor.
    replace (Z.to_nat (Z.max 1 (cursorHistoryLimit - Z.of_nat (length acc))))
      with (S (Z.to_nat (Z.max 1 (cursorHistoryLimit
                                   - Z.of_nat (length acc + 1))))) by lia.
    done.
Qed.

Lemma closedLoop_first (closed : list closedWorkspace) :
  loop closed []
  = take (Z.to_nat (Z.max 1 cursorHistoryLimit)) (filter ok (path <$> closed)).
Proof.
  rewrite closedLoop_take. cbn [length app]. unfold roomFor. do 2 f_equal. lia.
Qed.

(** X3.  The loop over the workspaces closed according to the log lists
    the first paths, in the order of the sort, that are not open in a
    window and exist, up to the limit and never fewer than one of them:
    with a limit of zero or less it lists exactly the first such path. *)
Theorem closedLoop_limit (closed : list closedWorkspace) :
  closedLoop openWindows notExist cursorHistoryLimit closed []
  = take (Z.to_nat (Z.max 1 cursorHistoryLimit))
         (filter (listable openWindows notExist) (path <$> closed)) /\
  (Z.of_nat (length (closedLoop openWindows notExist cursorHistoryLimit closed []))
   <= Z.max 1 cursorHistoryLimit) /\
  (cursorHistoryLimit <= 1 ->
   closedLoop openWindows notExist cursorHistoryLimit closed []
   = option_list (head (filter (listable openWindows notExist) (path <$> closed)))).
Proof.
  pose proof (closedLoop_first closed) as Heq.
  split; [done|]. split.
  - rewrite Heq, length_take. lia.
  - intros Hle. rewrite Heq. replace (Z.to_nat _) with 1%nat by lia.
    by destruct (filter ok (path <$> closed)).
Qed.

Lemma supplementLoop_take (entries : list string) :
  forall seen acc,
    more entries seen acc
    = acc ++ take (room (length acc)) (eligible openWindows notExist seen entries).
Proof.
  induction entries as [|u rest IH]; intros seen acc.
  { cbn [supplementLoop eligible]. by rewrite take_nil, app_nil_r. }
  cbn [supplementLoop eligible]. cbv zeta.
  destruct (decide (decodedPath u ∈ seen)) as [Hin|Hout]; [apply IH|].
  destruct (openWindows (decodedPath u)); [apply IH|].
  destruct (notExist (decodedPath u)); [apply IH|].
  rewrite length_app. cbn [length].
  destruct (Z.leb_spec cursorHistoryLimit (Z.of_nat (length acc + 1))) as [Hle|Hgt].
  - unfold roomFor. replace (Z.to_nat _) with 1%nat by lia.
    cbn [take]. by rewrite take_0.
  - rewrite IH, length_app. cbn [length]. rewrite <- app_assoc. f_equal.
    unfold roomFor.
    replace (Z.to_nat (Z.max 1 (cursorHistoryLimit - Z.of_nat (length acc))))
      with (S (Z.to_nat (Z.max 1 (cursorHistoryLimit
                                   - Z.of_nat (length acc + 1))))) by lia.
    done.
Qed.

Lemma eligible_spec (entries : list string) :
  forall seen,
    NoDup (eligible openWindows notExist seen entries) /\
    forall p, p ∈ eligible openWindows notExist seen entries ->
              (p ∉ seen) /\ ok p /\ p ∈ decodedPath <$> entries.
Proof.
  induction entries as [|u rest IH]; intros seen.
  { split; [constructor|]. intros p Hp. by apply elem_of_nil in Hp. }
  cbn [eligible]. cbv zeta. rewrite fmap_cons.
  assert (Hskip : forall p, p ∈ eligible openWindows notExist seen rest ->
                    (p ∉ seen) /\ ok p /\ p ∈ decodedPath u :: (decodedPath <$> rest)).
  { intros p Hp. destruct (proj2 (IH seen) p Hp) as (? & ? & ?).
    split; [done|]. split; [done|]. by right. }
  destruct (decide (decodedPath u ∈ seen)) as [Hin|Hout];
    [split; [apply IH|done]|].
  destruct (openWindows (decodedPath u)) eqn:Hopen; [split; [apply IH|done]|].
  destruct (notExist (decodedPath u)) eqn:Hgone; [split; [apply IH|done]|].
  destruct (IH ({[ decodedPath u ]} ∪ seen)) as [Hnd Hall]. split.
  - constructor; [|done]. intros Hp. apply Hall in Hp as (Hp & _).
    apply Hp, elem_of_union. left. by apply elem_of_singleton.
  - intros p Hp. apply elem_of_cons in Hp as [->|Hp].
    + repeat split; try done. by left.
    + destruct (Hall p Hp) as (Hns & Hok & Hin).
      split; [|split; [done|by right]].
      intros Hs. apply Hns, elem_of_union. by right.
Qed.


End RecentlyClosedFacts.

(** With a limit of zero the loop lists the first of two closed
    workspaces. *)
Lemma closedLoop_limit_witness :
  closedLoop noWindow allExist 0 [mkClosed "/p/a" 200; mkClosed "/p/b" 100] []
  = ["/p/a"%string].
Proof.
  destruct (closedLoop_limit noWindow allExist 0
              [mkClosed "/p/a" 200; mkClosed "/p/b" 100]) as (_ & _ & Hone).
  rewrite Hone by lia. by vm_compute.
Defined.


(** ** The key of a port and a process *)
Section HiddenKey.

Lemma Itoa_nonneg_group (z : Z) : 0 <= z -> isGroup (Go.Itoa z) = true.
Proof.
  intros Hz. destruct z as [|p|p]; [done| |lia].
  change (Go.Itoa (Z.pos p)) with (pretty (N.pos p)). apply pretty_N_group.
Qed.

Lemma Itoa_neg (z : Z) :
  z < 0 -> exists g, Go.Itoa z = String "-" g /\ isGroup g = true.
Proof.
  intros Hz. destruct z as [|p|p]; [lia|lia|].
  exists (pretty (N.pos p)). split; [done|]. apply pretty_N_group.
Qed.

(** The text of a number, a dash and a text: the number and the text
    can be read back in one way. *)
Lemma dash_key_inj (x y : Z) (a b : string) :
  Go.Itoa x +:+ "-" +:+ a = Go.Itoa y +:+ "-" +:+ b -> x = y /\ a = b.
Proof.
  change ("-" +:+ a) with (String "-" a). change ("-" +:+ b) with (String "-" b).
  intros Heq.
  destruct (Z.lt_ge_cases x 0) as [Hx|Hx], (Z.lt_ge_cases y 0) as [Hy|Hy].
  - destruct (Itoa_neg x Hx) as (g & Hg & Hgroup).
    destruct (Itoa_neg y Hy) as (g' & Hg' & Hgroup').
    rewrite Hg, Hg', !app_cons in Heq. injection Heq as Heq.
    apply app_sep_inj in Heq as [Hgg ->]; try by apply group_free_dash.
    split; [|done]. apply Itoa_inj. by rewrite Hg, Hg', Hgg.
  - exfalso. destruct (Itoa_neg x Hx) as (g & Hg & _).
    pose proof (Itoa_nonneg_group y Hy) as Hgroup.
    apply isGroup_inv in Hgroup as (c & r & Hc & Hd & _).
    rewrite Hg, Hc, !app_cons in Heq. injection Heq as <- _. done.
  - exfalso. destruct (Itoa_neg y Hy) as (g & Hg & _).
    pose proof (Itoa_nonneg_group x Hx) as Hgroup.
    apply isGroup_inv in Hgroup as (c & r & Hc & Hd & _).
    rewrite Hg, Hc, !app_cons in Heq. injection Heq as -> _. done.
  - apply app_sep_inj in Heq as [Hxy ->];
      try by apply group_free_dash, Itoa_nonneg_group.
    split; [|done]. by apply Itoa_inj.
Qed.

Lemma hiddenKey_inj (a b : PortInfo) :
  hiddenKey a = hiddenKey b -> portPid a = portPid b.
Proof.
  unfold hiddenKey, portPid. intros Heq.
  apply dash_key_inj in Heq as [-> ->]. done.
Qed.

End HiddenKey.

(** ** Maps built entry by entry *)
Section MapLoops.
Context {V W : Type}.

(** A loop that stores a value for the key of each entry visited builds
    the map of those values, whatever the order of the visit. *)
Lemma foldl_insert_fmap (f : V -> W) (m : gmap Z V) (visited : list (Z * V)) :
  rangeInts m visited ->
  foldl (fun acc entry => <[entry.1 := f entry.2]> acc) ∅ visited = f <$> m.
Proof.
  unfold rangeInts. intros Hperm.
  assert (Hnd : NoDup visited.*1).
  { rewrite Hperm. apply NoDup_fst_map_to_list. }
  assert (Hin : forall k v, (k, v) ∈ visited <-> m !! k = Some v).
  { intros k v. rewrite Hperm. apply elem_of_map_to_list. }
  apply map_eq. intros k. apply option_eq. intros w.
  rewrite lookup_fmap, fmap_Some.
  transitivity (exists v, (k, v) ∈ visited /\ w = f v).
  2:{ split; intros (v & Hv & ->); exists v; split; try done; by apply Hin. }
  clear Hperm Hin. revert Hnd. induction visited as [|[k' v'] l IH] using rev_ind.
  { intros _. simpl. rewrite lookup_empty. split; [done|].
    intros (v & Hv & _). by apply elem_of_nil in Hv. }
  rewrite fmap_app, foldl_app. cbn [foldl fst snd fmap list_fmap].
  intros Hnd. apply NoDup_app in Hnd as (Hl & Hfresh & _).
  destruct (decide (k = k')) as [<-|Hne].
  - rewrite lookup_insert_eq. split.
    + intros [= <-]. exists v'. split; [|done]. apply elem_of_app. right. by left.
    + intros (v & Hv & ->). apply elem_of_app in Hv as [Hv|Hv].
      * exfalso. apply (Hfresh k); [|by left].
        apply list_elem_of_fmap. by exists (k, v).
      * apply list_elem_of_singleton in Hv. by injection Hv as ->.
  - rewrite lookup_insert_ne by done. rewrite (IH Hl). split.
    + intros (v & Hv & ->). exists v. split; [|done]. apply elem_of_app. by left.
    + intros (v & Hv & ->). exists v. split; [|done].
      apply elem_of_app in Hv as [Hv|Hv]; [done|].
      apply list_elem_of_singleton in Hv. by injection Hv as -> _.
Qed.

End MapLoops.

(** ** Hidden ports *)
Section HiddenPorts.

(** X5.  [filterHiddenPorts] gives the same map in whatever order the
    ranges are visited: each range keeps its key, with the ports of the
    range that the configuration does not hide, in their order.  No
    port it hides is left, and a configuration whose map is nil or
    empty hides nothing. *)
Theorem filterHiddenPorts_buckets (portsByRange : gmap Z (list PortInfo))
    (config : Config) :
  let filtered :=
    filter (fun port => isHidden config port = false) <$> portsByRange in
  filterHiddenPorts portsByRange config filtered /\
  (forall other, filterHiddenPorts portsByRange config other -> other = filtered) /\
  dom filtered = dom portsByRange /\
  (forall rangeStart kept port,
      filtered !! rangeStart = Some kept -> port ∈ kept ->
      isHidden config port = false /\
      exists ports, portsByRange !! rangeStart = Some ports /\ port ∈ ports) /\
  ((HiddenPorts config = None \/ HiddenPorts config = Some ∅) ->
   filtered = portsByRange).
Proof.
  intros filtered.
  assert (Hall : forall other, filterHiddenPorts portsByRange config other ->
                               other = filtered).
  { intros other (visited & Hvisit & ->).
    by apply (foldl_insert_fmap
                (filter (fun port => isHidden config port = false))). }
  split.
  { exists (map_to_list portsByRange).
    assert (Hvisit : rangeInts portsByRange (map_to_list portsByRange))
      by by unfold rangeInts.
    split; [done|]. symmetry. apply Hall. by eexists. }
  split; [done|]. split; [apply dom_fmap_L|]. split.
  - intros rangeStart kept port Hkept Hport. unfold filtered in Hkept.
    rewrite lookup_fmap in Hkept. apply fmap_Some in Hkept as (ports & Hports & ->).
    apply list_elem_of_filter in Hport as [Hvis Hport].
    split; [done|]. by exists ports.
  - intros Hnone. unfold filtered. rewrite <- (map_fmap_id portsByRange) at 2.
    apply map_fmap_ext. intros k ports _. cbn [id].
    assert (Hvis : forall port, isHidden config port = false).
    { intros port. unfold isHidden. by destruct Hnone as [->| ->]. }
    induction ports as [|p l IH]; [done|].
    by rewrite filter_cons_True, IH by done.
Qed.

End HiddenPorts.

(** ** Port ranges *)
Section PortRanges.

Local Abbreviation inner port :=
  (fun (m : gmap Z (list PortInfo)) rangeStart =>
     if inRange rangeStart port
     then <[rangeStart := default [] (m !! rangeStart) ++ [port]]> m
     else m).

Lemma filterPorts_init (ranges : list Z) (r : Z) :
  foldl (fun (m : gmap Z (list PortInfo)) rangeStart => <[rangeStart := []]> m)
        ∅ ranges !! r
  = if decide (r ∈ ranges) then Some [] else None.
Proof.
  induction ranges as [|a l IH] using rev_ind.
  { simpl. by rewrite lookup_empty. }
  rewrite foldl_app. cbn [foldl].
  destruct (decide (r = a)) as [->|Hne].
  - rewrite lookup_insert_eq. rewrite decide_True; [done|].
    apply elem_of_app. right. by left.
  - rewrite lookup_insert_ne by done. rewrite IH.
    destruct (decide (r ∈ l)) as [Hin|Hout].
    + rewrite decide_True; [done|]. apply elem_of_app. by left.
    + rewrite decide_False; [done|]. intros Hin.
      apply elem_of_app in Hin as [Hin|Hin]; [done|].
      by apply list_elem_of_singleton in Hin.
Qed.

Lemma filterPorts_inner (port : PortInfo) (ranges : list Z) :
  NoDup ranges ->
  forall (m : gmap Z (list PortInfo)) (r : Z),
    foldl (inner port) m ranges !! r
    = if decide (r ∈ ranges /\ inRange r port = true)
      then Some (default [] (m !! r) ++ [port])
      else m !! r.
Proof.
  induction 1 as [|a l Ha Hl IH]; intros m r.
  { cbn [foldl]. rewrite decide_False; [done|].
    intros [Hin _]. by apply elem_of_nil in Hin. }
  cbn [foldl]. rewrite IH.
  destruct (decide (r = a)) as [->|Hne].
  - rewrite (decide_False (P := a ∈ l /\ _)) by by intros [? _].
    destruct (inRange a port) eqn:Hr.
    + rewrite lookup_insert_eq. rewrite decide_True; [done|].
      split; [by left|done].
    + rewrite decide_False; [done|]. by intros [_ ?].
  - assert (Hm : (if inRange a port
                  then <[a := default [] (m !! a) ++ [port]]> m else m) !! r
                 = m !! r).
    { destruct (inRange a port); [by rewrite lookup_insert_ne|done]. }
    rewrite Hm.
    destruct (decide (r ∈ l /\ inRange r port = true)) as [[Hin Hr]|Hno].
    + rewrite decide_True; [done|]. split; [by right|done].
    + rewrite decide_False; [done|]. intros [Hin Hr]. apply Hno.
      split; [|done]. by apply elem_of_cons in Hin as [?|?].
Qed.

Lemma filterPorts_lookup (ports : list PortInfo) (ranges : list Z) (r : Z) :
  NoDup ranges ->
  filterPorts ports ranges !! r
  = if decide (r ∈ ranges)
    then Some (filter (fun port => inRange r port = true) ports)
    else None.
Proof.
  intros Hnd. unfold filterPorts.
  induction ports as [|port l IH] using rev_ind.
  { cbn [foldl]. rewrite filterPorts_init. by destruct (decide (r ∈ ranges)). }
  rewrite foldl_app. cbn [foldl]. rewrite filterPorts_inner by done. rewrite IH.
  rewrite filter_app.
  destruct (decide (r ∈ ranges)) as [Hin|Hout].
  - destruct (inRange r port) eqn:Hr.
    + rewrite decide_True by done. cbn [default].
      by rewrite filter_cons_True, filter_nil by done.
    + rewrite decide_False by (by intros [_ ?]).
      rewrite filter_cons_False, filter_nil by (by rewrite Hr).
      by rewrite app_nil_r.
  - rewrite decide_False; [done|]. by intros [? _].
Qed.

(** X6.  For range starts without repetition, [filterPorts] gives a map
    whose keys are the range starts, each with the ports that lie in
    its thousand, [rangeStart <= port < rangeStart+1000], in the order
    of the input; a range without ports keeps its key with no port, and
    a port outside every range is in no entry. *)
Theorem filterPorts_buckets (ports : list PortInfo) (ranges : list Z) :
  NoDup ranges ->
  (forall rangeStart,
      filterPorts ports ranges !! rangeStart
      = if decide (rangeStart ∈ ranges)
        then Some (filter (fun port => inRange rangeStart port = true) ports)
        else None) /\
  (forall rangeStart, rangeStart ∈ ranges ->
      is_Some (filterPorts ports ranges !! rangeStart)) /\
  (forall rangeStart found port,
      filterPorts ports ranges !! rangeStart = Some found -> port ∈ found ->
      (port ∈ ports) /\ (rangeStart ∈ ranges) /\
      (rangeStart <= Port port) /\ (Port port < intAdd rangeStart 1000)) /\
  (forall rangeStart found,
      filterPorts ports ranges !! rangeStart = Some found -> sublist found ports).
Proof.
  intros Hnd.
  assert (Hlook := fun r => filterPorts_lookup ports ranges r Hnd).
  split; [done|]. split; [|split].
  - intros r Hr. rewrite Hlook, decide_True by done. by eexists.
  - intros r found port Hfound Hport. rewrite Hlook in Hfound.
    destruct (decide (r ∈ ranges)); [|done]. injection Hfound as <-.
    apply list_elem_of_filter in Hport as [Hr Hport].
    unfold inRange in Hr. apply andb_true_iff in Hr as [Hlo Hhi].
    apply Z.leb_le in Hlo. apply Z.ltb_lt in Hhi. done.
  - intros r found Hfound. rewrite Hlook in Hfound.
    destruct (decide (r ∈ ranges)); [|done]. injection Hfound as <-.
    apply sublist_filter.
Qed.

End PortRanges.

(** The three ranges of [main]: port 3000 and port 3999 fall in the
    first, port 8080 in the third, port 5000 in none. *)
Lemma filterPorts_buckets_witness :
  filterPorts [webPort; apiPort; oldPort] [3000; 4000; 8000] !! 8000
  = Some [oldPort].
Proof.
  rewrite (proj1 (filterPorts_buckets [webPort; apiPort; oldPort]
                    [3000; 4000; 8000]
                    ltac:(apply (bool_decide_unpack _); by vm_compute))).
  done.
Defined.

(** With the first sample port hidden, the second is the one left. *)
Lemma filterHiddenPorts_buckets_witness :
  filterHiddenPorts {[ 0 := [webPort; apiPort] ]} hideWeb {[ 0 := [apiPort] ]}.
Proof.
  destruct (filterHiddenPorts_buckets {[ 0 := [webPort; apiPort] ]} hideWeb)
    as [Hrun _].
  by rewrite map_fmap_singleton in Hrun.
Defined.

(** ** The rows of the table *)
Section TableRows.
Variable homeDir : option string.
Local Abbreviation row := (rowOf homeDir).
Local Abbreviation step := (rowStep homeDir).

Lemma rowLoop_shownFirst (sorted : list PortInfo) :
  forall seen rows,
    foldl step (seen, rows) sorted
    = (list_to_set (hiddenKey <$> shownFirst seen sorted) ∪ seen,
       rows ++ (row <$> shownFirst seen sorted)).
Proof.
  induction sorted as [|p l IH]; intros seen rows.
  { cbn [foldl shownFirst]. rewrite !fmap_nil, list_to_set_nil, app_nil_r.
    by rewrite (left_id_L ∅ (∪)). }
  cbn [foldl shownFirst]. unfold rowStep at 2.
  destruct (bool_decide (Path p = "/")); [apply IH|].
  destruct (decide (hiddenKey p ∈ seen)); [apply IH|].
  rewrite IH, !fmap_cons, list_to_set_cons.
  rewrite <- app_assoc. f_equal.
  by rewrite (assoc_L (∪)), (comm_L (∪) _ {[ hiddenKey p ]}).
Qed.

Lemma shownFirst_spec (records : list PortInfo) :
  forall seen,
    NoDup (hiddenKey <$> shownFirst seen records) /\
    sublist (shownFirst seen records) records /\
    (forall r, r ∈ shownFirst seen records ->
               (hiddenKey r ∉ seen) /\ Path r <> "/") /\
    (forall c, c ∈ records -> Path c <> "/" ->
               hiddenKey c ∈ seen \/
               exists r, r ∈ shownFirst seen records /\ hiddenKey r = hiddenKey c).
Proof.
  induction records as [|p l IH]; intros seen.
  { cbn [shownFirst]. split; [constructor|]. split; [constructor|].
    split; intros x Hx; by apply elem_of_nil in Hx. }
  cbn [shownFirst].
  destruct (IH seen) as (Hnd & Hsub & Hall & Hcov).
  destruct (IH ({[ hiddenKey p ]} ∪ seen)) as (Hnd' & Hsub' & Hall' & Hcov').
  destruct (bool_decide (Path p = "/")) eqn:Hroot.
  { apply bool_decide_eq_true in Hroot.
    split; [done|]. split; [by apply sublist_cons|]. split; [done|].
    intros c Hc Hpath. apply elem_of_cons in Hc as [->|Hc]; [done|]. by apply Hcov. }
  apply bool_decide_eq_false in Hroot.
  destruct (decide (hiddenKey p ∈ seen)) as [Hin|Hout].
  { split; [done|]. split; [by apply sublist_cons|]. split; [done|].
    intros c Hc Hpath. apply elem_of_cons in Hc as [->|Hc]; [by left|].
    by apply Hcov. }
  split.
  { rewrite fmap_cons. constructor; [|done]. intros Hin.
    apply list_elem_of_fmap in Hin as (r & Hkey & Hr).
    destruct (Hall' r Hr) as [Hfresh _]. apply Hfresh.
    apply elem_of_union. left. by apply elem_of_singleton. }
  split; [by apply sublist_skip|]. split.
  { intros r Hr. apply elem_of_cons in Hr as [->|Hr]; [done|].
    destruct (Hall' r Hr) as [Hfresh Hpath]. split; [|done].
    intros Hin. apply Hfresh. apply elem_of_union. by right. }
  intros c Hc Hpath. apply elem_of_cons in Hc as [->|Hc].
  { right. exists p. split; [by left|done]. }
  destruct (Hcov' c Hc Hpath) as [Hin|(r & Hr & Hkey)].
  - apply elem_of_union in Hin as [Hin|Hin]; [|by left].
    apply elem_of_singleton in Hin. right. exists p. split; [by left|done].
  - right. exists r. split; [by right|done].
Qed.

(** Records whose keys differ and are not in [seen] all get a row,
    those at the root apart. *)
Lemma shownFirst_filter (records : list PortInfo) :
  forall seen,
    NoDup (hiddenKey <$> records) ->
    (forall r, r ∈ records -> hiddenKey r ∉ seen) ->
    shownFirst seen records = filter (fun p => Path p <> "/") records.
Proof.
  induction records as [|p l IH]; intros seen Hnd Hfresh; [done|].
  rewrite fmap_cons in Hnd. apply NoDup_cons in Hnd as [Hp Hnd].
  cbn [shownFirst].
  destruct (bool_decide (Path p = "/")) eqn:Hroot.
  { apply bool_decide_eq_true in Hroot.
    rewrite filter_cons_False by (by intros ?). apply IH; [done|].
    intros r Hr. apply Hfresh. by right. }
  apply bool_decide_eq_false in Hroot.
  rewrite decide_False by (apply Hfresh; by left).
  rewrite filter_cons_True by done. f_equal. apply IH; [done|].
  intros r Hr Hin. apply elem_of_union in Hin as [Hin|Hin].
  - apply elem_of_singleton in Hin. apply Hp. rewrite <- Hin.
    by apply list_elem_of_fmap_2.
  - revert Hin. apply Hfresh. by right.
Qed.

Lemma NoDup_hiddenKey (records : list PortInfo) :
  NoDup (portPid <$> records) <-> NoDup (hiddenKey <$> records).
Proof.
  induction records as [|p l IH]; [split; constructor|].
  rewrite !fmap_cons, !NoDup_cons, IH.
  split; intros [Hp Hl]; (split; [|done]); intros Hin; apply Hp;
    apply list_elem_of_fmap in Hin as (r & Hkey & Hr);
    apply list_elem_of_fmap; exists r; (split; [|done]).
  - by apply hiddenKey_inj.
  - unfold hiddenKey, portPid in *. by injection Hkey as -> ->.
Qed.

Lemma sublist_lookup_pair {A} (l1 l2 : list A) :
  sublist l1 l2 ->
  forall i j a b, (i < j)%nat -> l1 !! i = Some a -> l1 !! j = Some b ->
    exists i' j', (i' < j')%nat /\ l2 !! i' = Some a /\ l2 !! j' = Some b.
Proof.
  induction 1 as [|x l1 l2 Hsub IH|x l1 l2 Hsub IH]; intros i j a b Hij Hi Hj.
  - done.
  - destruct j as [|j]; [lia|]. destruct i as [|i].
    + cbn in Hi, Hj. injection Hi as ->.
      apply list_elem_of_lookup_2 in Hj. eapply elem_of_sublist in Hj; [|done].
      apply list_elem_of_lookup_1 in Hj as [j' Hj'].
      exists 0%nat, (S j'). split; [lia|done].
    + cbn in Hi, Hj. destruct (IH i j a b) as (i' & j' & ? & ? & ?); [lia|done|done|].
      exists (S i'), (S j'). split; [lia|done].
  - destruct (IH i j a b) as (i' & j' & ? & ? & ?); [done|done|done|].
    exists (S i'), (S j'). split; [lia|done].
Qed.

Lemma collectPorts_concat (visited : list (Z * list PortInfo)) :
  collectPorts visited = mjoin visited.*2.
Proof.
  unfold collectPorts.
  assert (forall acc, foldl (fun allPorts entry => allPorts ++ entry.2) acc visited
                      = acc ++ mjoin visited.*2) as ->; [|done].
  induction visited as [|e l IH]; intros acc.
  - cbn. by rewrite app_nil_r.
  - cbn [foldl]. rewrite IH, fmap_cons. cbn. by rewrite app_assoc.
Qed.

Lemma rangeInts_elem {V} (m : gmap Z V) (visited : list (Z * V)) (k : Z) (v : V) :
  rangeInts m visited -> (k, v) ∈ visited <-> m !! k = Some v.
Proof. unfold rangeInts. intros ->. apply elem_of_map_to_list. Qed.

Lemma collectPorts_elem (m : gmap Z (list PortInfo))
    (visited : list (Z * list PortInfo)) (p : PortInfo) :
  rangeInts m visited ->
  p ∈ collectPorts visited <->
  exists k ports, m !! k = Some ports /\ p ∈ ports.
Proof.
  intros Hvisit. rewrite collectPorts_concat, list_elem_of_join. split.
  - intros (ports & Hp & Hports).
    apply list_elem_of_fmap in Hports as ([k ports'] & -> & Hin).
    exists k, ports'. split; [|done]. by apply (rangeInts_elem m visited).
  - intros (k & ports & Hm & Hp). exists ports. split; [done|].
    apply list_elem_of_fmap. exists (k, ports). split; [done|].
    by apply (rangeInts_elem m visited).
Qed.

Lemma displayPorts_total (portsByRange : gmap Z (list PortInfo))
    (sortOrder : string) :
  exists out, displayPorts homeDir portsByRange sortOrder out.
Proof.
  assert (Hvisit : rangeInts portsByRange (map_to_list portsByRange))
    by by unfold rangeInts.
  destruct (collectPorts (map_to_list portsByRange)) as [|p l] eqn:Hall.
  - exists None, (map_to_list portsByRange). split; [done|]. by rewrite Hall.
  - destruct (sortSlice_total (sortKey sortOrder) (portLess sortOrder)
                (portLess_key sortOrder) (p :: l)) as [sorted Hsorted].
    eexists. exists (map_to_list portsByRange). split; [done|]. rewrite Hall.
    exists sorted. split; [done|reflexivity].
Qed.

(** X7.  The table never shows a port of a process twice and never a
    record whose path is the root; every other record of the map has a
    row for its port and process; the rows stand in the order of the
    sort; and the number of the [Total] line is the number of rows.
    The report that there are no ports is given exactly when every
    range of the map is empty: when some range holds a record the table
    is written, also when no record gets a row. *)
Theorem displayPorts_rows (portsByRange : gmap Z (list PortInfo))
    (sortOrder : string) :
  (exists out, displayPorts homeDir portsByRange sortOrder out) /\
  forall out, displayPorts homeDir portsByRange sortOrder out ->
    (out = None <->
     forall k ports, portsByRange !! k = Some ports -> ports = []) /\
    forall rows total, out = Some (rows, total) ->
      exists shown,
        rows = rowOf homeDir <$> shown /\
        total = Z.of_nat (length rows) /\
        NoDup (portPid <$> shown) /\
        (forall r, r ∈ shown ->
           Path r <> "/" /\
           exists k ports, portsByRange !! k = Some ports /\ r ∈ ports) /\
        (forall k ports c,
           portsByRange !! k = Some ports -> c ∈ ports -> Path c <> "/" ->
           exists r, r ∈ shown /\ portPid r = portPid c) /\
        (forall i j a b, (i < j)%nat -> shown !! i = Some a -> shown !! j = Some b ->
           sortKey sortOrder a <= sortKey sortOrder b).
Proof.
  split; [apply displayPorts_total|].
  intros out (visited & Hvisit & Hout).
  pose proof (collectPorts_elem portsByRange visited) as Hmem.
  destruct (collectPorts visited) as [|p0 l0] eqn:Hall.
  { subst out. split; [|done]. split; [|done]. intros _ k ports Hk.
    destruct ports as [|p l]; [done|]. exfalso.
    assert (Hp : p ∈ @nil PortInfo); [|by apply elem_of_nil in Hp].
    apply Hmem; [done|]. exists k, (p :: l). split; [done|by left]. }
  destruct Hout as (sorted & Hsort & ->).
  split.
  { split; [done|]. intros Hempty. exfalso.
    assert (Hp0 : p0 ∈ p0 :: l0) by left.
    apply (Hmem p0 Hvisit) in Hp0 as (k & ports & Hk & Hin).
    rewrite (Hempty k ports Hk) in Hin. by apply elem_of_nil in Hin. }
  intros rows total [= <- <-].
  rewrite rowLoop_shownFirst. cbn [fst snd app].
  destruct (shownFirst_spec sorted ∅) as (Hnd & Hsub & Hshown & Hcov).
  exists (shownFirst ∅ sorted). split; [done|]. split.
  { rewrite (right_id_L ∅ (∪)), size_list_to_set by done.
    by rewrite !length_fmap. }
  split; [by apply NoDup_hiddenKey|].
  destruct Hsort as [Hperm Hordered].
  split.
  { intros r Hr. split; [by apply Hshown|]. apply (Hmem r Hvisit).
    rewrite Hperm. by eapply elem_of_sublist. }
  split.
  { intros k ports c Hk Hc Hpath.
    destruct (Hcov c) as [Hin|(r & Hr & Hkey)]; [|done|by apply elem_of_empty in Hin|].
    - rewrite <- Hperm. apply (Hmem c Hvisit). by exists k, ports.
    - exists r. split; [done|]. by apply hiddenKey_inj. }
  intros i j a b Hij Hi Hj.
  destruct (sublist_lookup_pair _ _ Hsub i j a b Hij Hi Hj) as (i' & j' & Hij' & Hi' & Hj').
  by apply (sortSlice_ascending (sortKey sortOrder) (portLess sortOrder)
              (portLess_key sortOrder) (p0 :: l0) sorted (conj Hperm Hordered)
              i' j').
Qed.

End TableRows.

(** A map with the first sample record twice and a record at the root:
    the table has one row. *)
Lemma displayPorts_rows_witness :
  exists out,
    displayPorts aliceHome
      {[ 0 := [webPort; webPort;
               mkPortInfo 22 "1" "sshd" "*:22" "root" "/" "9d" 800000] ]}
      "port" out /\
    exists rows, out = Some (rows, 1).
Proof.
  set (m := ({[ 0 := [webPort; webPort;
                      mkPortInfo 22 "1" "sshd" "*:22" "root" "/" "9d" 800000] ]}
             : gmap Z (list PortInfo))).
  destruct (displayPorts_rows aliceHome m "port") as [[out Hrun] Hall].
  exists out. split; [exact Hrun|].
  destruct (Hall out Hrun) as [Hnone Hsome]. destruct out as [[rows total]|].
  - destruct (Hsome rows total eq_refl) as (shown & -> & -> & Hnd & Hin & Hcov & _).
    eexists. do 2 f_equal. rewrite length_fmap.
    destruct (Hcov 0 _ webPort (lookup_singleton_eq _ _) ltac:(by left) ltac:(done))
      as (r & Hr & Hkey).
    assert (Hshown : forall x, x ∈ shown -> x = webPort).
    { intros x Hx. destruct (Hin x Hx) as (Hpath & k & ports & Hk & Hp).
      unfold m in Hk. apply lookup_singleton_Some in Hk as [_ <-].
      each_elem Hp ltac:(done). }
    destruct shown as [|a [|b l]]; [by apply elem_of_nil in Hr|done|].
    exfalso. rewrite (Hshown a), (Hshown b) in Hnd by (by repeat constructor).
    rewrite !fmap_cons in Hnd. apply NoDup_cons in Hnd as [Hnd _].
    apply Hnd. by left.
  - exfalso. by specialize (proj1 Hnone eq_refl 0 _ (lookup_singleton_eq _ _)).
Defined.

(** ** From the listing to the table *)
Section MainFacts.
Context {World : Type}.
Variable lsofCwd : string -> World -> option string * World.
Variable psEtime : string -> World -> option string * World.
Variable homeDir : option string.

(** The enrichment pass leaves the port and the process of every
    record as they are. *)
Lemma enrichLoop_portPid (ports : list PortInfo) :
  forall (c : Caches) (st : World * list Lookup),
    portPid <$> (enrichLoop lsofCwd psEtime ports c st).1 = portPid <$> ports.
Proof.
  induction ports as [|p rest IH]; intros c [w trace]; [done|].
  rewrite enrichLoop_cons. unfold enrichOne.
  destruct (pathCache c !! PID p) as [cp|].
  - unfold ret. cbn [fst snd]. specialize (IH c (w, trace)).
    destruct (enrichLoop lsofCwd psEtime rest c (w, trace)) as [rest' st2].
    cbn [fst] in *. by rewrite !fmap_cons, IH.
  - unfold mbind, Run_bind, bind, mret, Run_ret, ret.
    unfold getWorkingDirectory, getProcessUptime.
    destruct (lsofCwd (PID p) w) as [out1 w1].
    destruct (psEtime (PID p) w1) as [out2 w2]. cbn [fst snd].
    match goal with
    | |- context [enrichLoop lsofCwd psEtime rest ?c' ?st'] =>
        specialize (IH c' st');
        destruct (enrichLoop lsofCwd psEtime rest c' st') as [rest' st2]
    end.
    cbn [fst] in *. by rewrite !fmap_cons, IH.
Qed.

Lemma parseAndEnrich_NoDup (listing : string) (w : World) :
  NoDup (portPid <$> parseAndEnrich lsofCwd psEtime listing w).
Proof.
  unfold parseAndEnrich, enrich. rewrite enrichLoop_portPid.
  rewrite parseOutput_keepFirst. apply keepFirst_NoDup.
Qed.

Lemma isUserPort_path (port : PortInfo) :
  isUserPort homeDir port = true -> Path port <> "N/A" /\ Path port <> "/".
Proof.
  unfold isUserPort.
  destruct (bool_decide (Path port = "N/A")) eqn:Hna; [done|].
  destruct (bool_decide (Path port = "/")) eqn:Hroot; [done|].
  apply bool_decide_eq_false in Hna, Hroot. done.
Qed.

Lemma filter_all {A} (P : A -> Prop) `{!forall x, Decision (P x)} (l : list A) :
  (forall x, x ∈ l -> P x) -> filter P l = l.
Proof.
  induction l as [|x l IH]; intros Hall; [done|].
  rewrite filter_cons_True by (apply Hall; by left).
  f_equal. apply IH. intros y Hy. apply Hall. by right.
Qed.

Lemma NoDup_fmap_sublist {A B} (f : A -> B) (l k : list A) :
  sublist l k -> NoDup (f <$> k) -> NoDup (f <$> l).
Proof.
  intros Hsub Hnd. eapply sublist_NoDup; [done|]. by apply fmap_sublist.
Qed.

(** X8.  In the plain mode of [main] no record is lost to the table's
    check for duplicates: the rows are the records of the listing,
    parsed and enriched, that pass the filters, in an order the sort
    stage gives, those at the root left out.  Without [--all] the
    filter for user ports has already removed the root, so every such
    record has its row and the [Total] line counts them all. *)
Theorem mainTable_rows (showAllPorts : bool) (config : Config)
    (sortOrder listing : string) (w : World) :
  let ports := parseAndEnrich lsofCwd psEtime listing w in
  let userPorts :=
    if showAllPorts then ports
    else filter (fun port => isUserPort homeDir port = true) ports in
  let visible := notHidden config userPorts in
  (exists out,
      mainTable lsofCwd psEtime homeDir showAllPorts config sortOrder listing w out) /\
  forall out,
    mainTable lsofCwd psEtime homeDir showAllPorts config sortOrder listing w out ->
    match out with
    | None => visible = []
    | Some (rows, total) =>
        exists sorted,
          sortStage sortOrder visible sorted /\
          rows = rowOf homeDir <$> filter (fun port => Path port <> "/") sorted /\
          total = Z.of_nat (length rows) /\
          (showAllPorts = false ->
           rows = rowOf homeDir <$> sorted /\
           total = Z.of_nat (length visible))
    end.
Proof.
  intros ports userPorts visible.
  assert (Hfiltered : forall filtered,
            mainFiltered lsofCwd psEtime homeDir showAllPorts config listing w filtered
            <-> filtered = {[ 0 := visible ]}).
  { intros filtered. unfold mainFiltered. fold ports. fold userPorts. split.
    - intros (visited & Hvisit & ->).
      trans (filter (fun port => isHidden config port = false)
               <$> ({[ 0 := userPorts ]} : gmap Z (list PortInfo))).
      + by apply (foldl_insert_fmap
                    (filter (fun port => isHidden config port = false))).
      + by rewrite map_fmap_singleton.
    - intros ->. exists [(0, userPorts)]. split; [|done].
      unfold rangeInts. by rewrite map_to_list_singleton. }
  split.
  { destruct (displayPorts_total homeDir {[ 0 := visible ]} sortOrder) as [out Hout].
    exists out, {[ 0 := visible ]}. split; [by apply Hfiltered|done]. }
  intros out (filtered & Hf & Hout). apply Hfiltered in Hf as ->.
  destruct Hout as (visited & Hvisit & Hout).
  unfold rangeInts in Hvisit. rewrite map_to_list_singleton in Hvisit.
  apply Permutation_singleton_r in Hvisit as ->.
  change (collectPorts [(0, visible)]) with visible in Hout.
  destruct visible as [|p0 l0] eqn:Hvis; [by subst out|].
  rewrite <- Hvis in *. clear p0 l0 Hvis.
  destruct Hout as (sorted & Hsort & ->).
  assert (Hsub : sublist visible ports).
  { unfold visible, notHidden. etrans; [apply sublist_filter|].
    unfold userPorts. destruct showAllPorts; [done|apply sublist_filter]. }
  assert (Hnd : NoDup (hiddenKey <$> sorted)).
  { apply NoDup_hiddenKey. destruct Hsort as [Hperm _]. rewrite <- Hperm.
    eapply NoDup_fmap_sublist; [done|]. apply parseAndEnrich_NoDup. }
  rewrite rowLoop_shownFirst. cbn [fst snd app].
  rewrite (shownFirst_filter sorted ∅ Hnd) by (intros r _; apply not_elem_of_empty).
  exists sorted. split; [done|]. split; [done|]. split.
  { rewrite (right_id_L ∅ (∪)), size_list_to_set.
    - by rewrite !length_fmap.
    - eapply NoDup_fmap_sublist; [apply sublist_filter|done]. }
  intros ->.
  assert (Hall : filter (fun port => Path port <> "/") sorted = sorted).
  { apply filter_all. intros r Hr. destruct Hsort as [Hperm _].
    rewrite <- Hperm in Hr. unfold visible, notHidden, userPorts in Hr.
    apply list_elem_of_filter in Hr as [_ Hr].
    apply list_elem_of_filter in Hr as [Hr _].
    by apply isUserPort_path in Hr as [_ ?]. }
  rewrite Hall. split; [done|].
  rewrite (right_id_L ∅ (∪)), size_list_to_set by done.
  rewrite length_fmap. destruct Hsort as [Hperm _]. by rewrite Hperm.
Qed.

End MainFacts.

(** The sample listing on a machine whose commands answer with a
    directory under the home and an elapsed time: two records, two rows
    and a total of two. *)
Lemma mainTable_rows_witness :
  exists out,
    mainTable (commandPrints ("p501" +:+ newline +:+ "n/Users/alice/app"))
              (commandPrints ("   05:23" +:+ newline))
              aliceHome false noConfig "port" sampleListing tt out /\
    exists rows, out = Some (rows, 2).
Proof.
  destruct (mainTable_rows (commandPrints ("p501" +:+ newline +:+ "n/Users/alice/app"))
              (commandPrints ("   05:23" +:+ newline))
              aliceHome false noConfig "port" sampleListing tt) as [[out Hrun] Hall].
  exists out. split; [exact Hrun|].
  specialize (Hall out Hrun). destruct out as [[rows total]|].
  - destruct Hall as (sorted & _ & _ & _ & Hcount).
    destruct (Hcount eq_refl) as [_ ->]. exists rows. by vm_compute.
  - by vm_compute in Hall.
Defined.

(** ** The interactive model *)
Section InteractiveFacts.
Import Interactive.

Lemma filter_length_remove {A} (f : A -> string) (l : list A) (x : A) :
  NoDup (f <$> l) -> x ∈ l ->
  S (length (filter (fun y => f y <> f x) l)) = length l.
Proof.
  induction l as [|a l IH]; intros Hnd Hx; [by apply elem_of_nil in Hx|].
  rewrite fmap_cons in Hnd. apply NoDup_cons in Hnd as [Ha Hnd].
  destruct (decide (f a = f x)) as [Heq|Hne].
  - rewrite filter_cons_False by (by intros ?). cbn [length]. f_equal.
    rewrite filter_all; [done|]. intros y Hy Hyx. apply Ha.
    rewrite Heq, <- Hyx. by apply list_elem_of_fmap_2.
  - rewrite filter_cons_True by done. cbn [length]. f_equal. apply IH; [done|].
    apply elem_of_cons in Hx as [->|Hx]; done.
Qed.

Lemma filter_filter_comm {A} (P Q : A -> Prop) `{!forall x, Decision (P x)}
    `{!forall x, Decision (Q x)} (l : list A) :
  filter P (filter Q l) = filter Q (filter P l).
Proof.
  rewrite !list_filter_filter. apply list_filter_iff. intros x. tauto.
Qed.

Lemma filter_both {A} (P Q R : A -> Prop) `{!forall x, Decision (P x)}
    `{!forall x, Decision (Q x)} `{!forall x, Decision (R x)} (l : list A) :
  (forall x, R x <-> P x /\ Q x) -> filter R l = filter P (filter Q l).
Proof.
  intros HR. rewrite list_filter_filter. by apply list_filter_iff.
Qed.

Lemma isHidden_insert (hidden : gmap string bool) (k : string) (p : PortInfo) :
  isHidden (mkConfig (Some (<[k := true]> hidden))) p
  = bool_decide (hiddenKey p = k) || isHidden (mkConfig (Some hidden)) p.
Proof.
  unfold isHidden. cbn [HiddenPorts].
  destruct (decide (hiddenKey p = k)) as [->|Hne].
  - by rewrite lookup_insert_eq, bool_decide_eq_true_2.
  - by rewrite lookup_insert_ne, bool_decide_eq_false_2.
Qed.

(** Hiding the port of a row takes the rows of that key from the list
    shown and leaves the others. *)
Lemma getVisiblePorts_hide (m : model) (hidden : gmap string bool)
    (port : PortInfo) (text : string) :
  HiddenPorts (config m) = Some hidden ->
  getVisiblePorts {| ports := ports m; cursor := cursor m;
                     config := mkConfig (Some (<[hiddenKey port := true]> hidden));
                     message := text; showAll := showAll m |}
  = filter (fun p => hiddenKey p <> hiddenKey port) (getVisiblePorts m).
Proof.
  intros Hmap. unfold getVisiblePorts. cbn [ports].
  apply filter_both. intros p. unfold isVisible. cbn [config showAll].
  rewrite isHidden_insert.
  assert (isHidden (config m) p = isHidden (mkConfig (Some hidden)) p) as <-.
  { unfold isHidden. by rewrite Hmap. }
  destruct (decide (hiddenKey p = hiddenKey port)) as [Heq|Hne].
  - rewrite bool_decide_eq_true_2 by done. cbn. split; [done|]. by intros [? _].
  - rewrite bool_decide_eq_false_2 by done. cbn. split; [done|]. by intros [_ ?].
Qed.

Lemma removePort_filter (l : list PortInfo) (port : PortInfo) :
  removePort l port = filter (fun p => portPid p <> portPid port) l.
Proof.
  unfold removePort. apply list_filter_iff. intros p. unfold portPid. split.
  - intros [H|H] [= ? ?]; done.
  - intros H. destruct (decide (Port p = Port port)) as [Hp|Hp]; [|by left].
    right. intros Hq. apply H. by rewrite Hp, Hq.
Qed.

Lemma getVisiblePorts_kill (m : model) (port : PortInfo) (text : string) :
  getVisiblePorts {| ports := removePort (ports m) port; cursor := cursor m;
                     config := config m; message := text; showAll := showAll m |}
  = filter (fun p => portPid p <> portPid port) (getVisiblePorts m).
Proof.
  unfold getVisiblePorts. cbn [ports]. rewrite removePort_filter.
  rewrite filter_filter_comm. done.
Qed.

Lemma selection_Selected (m : model) (port : PortInfo) :
  selection m = Selected port ->
  0 <= cursor m < Z.of_nat (length (getVisiblePorts m)) /\
  getVisiblePorts m !! Z.to_nat (cursor m) = Some port /\
  port ∈ getVisiblePorts m.
Proof.
  unfold selection.
  destruct (0 <? Z.of_nat (length (getVisiblePorts m))) eqn:Hlen; [|done].
  destruct (Z.ltb_spec (cursor m) (Z.of_nat (length (getVisiblePorts m))));
    [|done].
  cbn [andb]. destruct (Z.ltb_spec (cursor m) 0); [done|].
  destruct (getVisiblePorts m !! Z.to_nat (cursor m)) as [p|] eqn:Hp; [|done].
  intros [= ->]. split; [lia|]. split; [done|]. by eapply list_elem_of_lookup_2.
Qed.

Lemma selection_no_panic (m : model) :
  0 <= cursor m -> selection m <> IndexPanic.
Proof.
  intros Hc. unfold selection.
  destruct (0 <? Z.of_nat (length (getVisiblePorts m))); [|done].
  destruct (Z.ltb_spec (cursor m) (Z.of_nat (length (getVisiblePorts m))));
    [|done].
  cbn [andb]. destruct (Z.ltb_spec (cursor m) 0); [lia|].
  destruct (getVisiblePorts m !! Z.to_nat (cursor m)) as [p|] eqn:Hp; [done|].
  apply lookup_ge_None in Hp. lia.
Qed.

Lemma visible_sublist (m : model) : sublist (getVisiblePorts m) (ports m).
Proof. apply sublist_filter. Qed.

(** After a row is taken from the list the cursor is moved back onto
    the list. *)
Lemma adjustCursor_on_row (m : model) (before : nat) :
  0 <= cursor m < Z.of_nat before ->
  S (length (getVisiblePorts m)) = before ->
  cursorOnRow (adjustCursor m) /\
  ports (adjustCursor m) = ports m /\ config (adjustCursor m) = config m.
Proof.
  intros Hc Hlen. unfold adjustCursor.
  destruct (Z.leb_spec (Z.of_nat (length (getVisiblePorts m))) (cursor m)) as [Hle|Hgt];
    [destruct (Z.ltb_spec 0 (cursor m)) as [Hpos|Hzero]|]; cbn [andb].
  - split; [|done]. unfold cursorOnRow.
    change (getVisiblePorts (withCursor m (cursor m - 1))) with (getVisiblePorts m).
    cbn [cursor withCursor]. lia.
  - split; [|done]. unfold cursorOnRow. lia.
  - split; [|done]. unfold cursorOnRow. lia.
Qed.

(** What a message keeps: records without a repeated port and process,
    a map of hidden ports that is not nil, the cursor on a row. *)
Lemma Update_keeps (m : model) (msg : Msg) (cmdErr : option string) :
  NoDup (portPid <$> ports m) -> HiddenPorts (config m) <> None ->
  cursorOnRow m ->
  exists m' quit,
    Update m msg cmdErr = Some (m', quit) /\
    sublist (ports m') (ports m) /\
    HiddenPorts (config m') <> None /\ cursorOnRow m'.
Proof.
  intros Hnd Hmap Hcur. pose proof Hcur as [Hc0 Hc].
  assert (Hsame : exists m' quit, Some (m, false) = Some (m', quit) /\
            sublist (ports m') (ports m) /\
            HiddenPorts (config m') <> None /\ cursorOnRow m').
  { by exists m, false. }
  assert (Htext : forall text, exists m' quit,
            Some (withMessage m text, false) = Some (m', quit) /\
            sublist (ports m') (ports m) /\
            HiddenPorts (config m') <> None /\ cursorOnRow m').
  { intros text. by exists (withMessage m text), false. }
  assert (HndVis : NoDup (hiddenKey <$> getVisiblePorts m)).
  { apply NoDup_hiddenKey. eapply NoDup_fmap_sublist; [apply visible_sublist|done]. }
  destruct msg as [key|]; [|done]. unfold Update.
  destruct (bool_decide (key = "ctrl+c") || bool_decide (key = "q")).
  { by exists m, true. }
  destruct (bool_decide (key = "up") || bool_decide (key = "k")).
  { destruct (Z.ltb_spec 0 (cursor m)) as [Hpos|_]; [|done].
    eexists _, _. split; [done|]. split; [done|]. split; [done|].
    unfold cursorOnRow.
    change (getVisiblePorts (withCursor m (cursor m - 1))) with (getVisiblePorts m).
    cbn [cursor withCursor]. lia. }
  destruct (bool_decide (key = "down") || bool_decide (key = "j")).
  { destruct (Z.ltb_spec (cursor m) (Z.of_nat (length (getVisiblePorts m)) - 1))
      as [Hlt|_]; [|done].
    eexists _, _. split; [done|]. split; [done|]. split; [done|].
    unfold cursorOnRow.
    change (getVisiblePorts (withCursor m (cursor m + 1))) with (getVisiblePorts m).
    cbn [cursor withCursor]. lia. }
  destruct (bool_decide (key = "h")).
  { pose proof (selection_no_panic m Hc0) as Hpanic.
    destruct (selection m) as [|port|] eqn:Hsel; [done| |done].
    apply selection_Selected in Hsel as (Hrange & _ & Hport).
    destruct (HiddenPorts (config m)) as [hidden|] eqn:Hhidden; [|done].
    match goal with
    | |- context [adjustCursor ?m1] =>
        destruct (adjustCursor_on_row m1 (length (getVisiblePorts m)))
          as (Hrow & Hports & Hconfig)
    end.
    - done.
    - rewrite (getVisiblePorts_hide m hidden port _ Hhidden).
      by apply (filter_length_remove hiddenKey).
    - eexists _, _. split; [done|]. rewrite Hports, Hconfig. done. }
  destruct (bool_decide (key = "u")).
  { eexists _, _. split; [done|]. split; [done|]. split; [done|].
    unfold cursorOnRow. cbn [cursor]. lia. }
  destruct (bool_decide (key = "a")).
  { eexists _, _. split; [done|]. split; [done|]. split; [done|].
    unfold cursorOnRow. cbn [cursor]. lia. }
  destruct (bool_decide (key = "K")).
  { pose proof (selection_no_panic m Hc0) as Hpanic.
    destruct (selection m) as [|port|] eqn:Hsel; [done| |done].
    apply selection_Selected in Hsel as (Hrange & _ & Hport).
    destruct cmdErr as [err|]; [apply Htext|].
    match goal with
    | |- context [adjustCursor ?m1] =>
        destruct (adjustCursor_on_row m1 (length (getVisiblePorts m)))
          as (Hrow & Hports & Hconfig)
    end.
    - done.
    - rewrite getVisiblePorts_kill.
      rewrite (list_filter_iff _ (fun p => hiddenKey p <> hiddenKey port)).
      + by apply (filter_length_remove hiddenKey).
      + intros p. split; intros Hne Heq; apply Hne.
        * by apply hiddenKey_inj.
        * unfold hiddenKey, portPid in *. by injection Heq as -> ->.
    - eexists _, _. split; [done|]. rewrite Hports, Hconfig. cbn [ports config].
      split; [apply sublist_filter|done]. }
  destruct (bool_decide (key = "o")); [|done].
  pose proof (selection_no_panic m Hc0) as Hpanic.
  destruct (selection m) as [|port|] eqn:Hsel; [done| |done].
  destruct cmdErr as [err|]; apply Htext.
Qed.

(** X9.  Started on records without a repeated port and process and
    with a map of hidden ports that is not nil, the interactive model
    takes every sequence of keys without a panic, keeps a part of the
    records it started with, and keeps its cursor on a row of the list
    shown, or at the top when the list is empty. *)
Theorem cursor_stays_on_a_row (started : list PortInfo) (loaded : Config)
    (inputs : list (Msg * option string)) :
  NoDup (portPid <$> started) -> HiddenPorts loaded <> None ->
  exists m,
    run (initialModel started loaded) inputs = Some m /\
    sublist (ports m) started /\
    0 <= cursor m /\
    (cursor m = 0 \/ cursor m < Z.of_nat (length (getVisiblePorts m))).
Proof.
  intros Hnd Hmap.
  assert (Hinv : forall m,
            sublist (ports m) started -> HiddenPorts (config m) <> None ->
            cursorOnRow m ->
            exists m', run m inputs = Some m' /\ sublist (ports m') started /\
                       cursorOnRow m').
  { induction inputs as [|[msg cmdErr] rest IH]; intros m Hsub Hm Hcur.
    - by exists m.
    - cbn [run].
      destruct (Update_keeps m msg cmdErr) as (m1 & quit & -> & Hsub1 & Hm1 & Hcur1);
        try done.
      { by eapply NoDup_fmap_sublist. }
      apply IH; try done. by etrans. }
  destruct (Hinv (initialModel started loaded)) as (m & Hrun & Hsub & Hc0 & Hc);
    try done.
  { unfold cursorOnRow. cbn [cursor initialModel]. lia. }
  by exists m.
Qed.

(** X10.  The key [h] on a selected row panics when the map of hidden
    ports is nil.  Otherwise it takes from the list shown the rows of
    the port and process selected and no other row; and the key [u]
    after it shows again every port that is not filtered by its range,
    also those the configuration hid before, with the cursor at the
    top. *)
Theorem hide_then_unhide (m : model) (port : PortInfo)
    (cmdErr cmdErr' : option string) :
  selection m = Selected port ->
  (HiddenPorts (config m) = None -> Update m (KeyMsg "h") cmdErr = None) /\
  (HiddenPorts (config m) <> None ->
   exists m',
     Update m (KeyMsg "h") cmdErr = Some (m', false) /\
     ports m' = ports m /\
     getVisiblePorts m'
     = filter (fun p => portPid p <> portPid port) (getVisiblePorts m) /\
     exists m'',
       Update m' (KeyMsg "u") cmdErr' = Some (m'', false) /\
       ports m'' = ports m /\ cursor m'' = 0 /\
       getVisiblePorts m''
       = filter (fun p => showAll m = true \/ inMonitored p = true) (ports m)).
Proof.
  intros Hsel. unfold Update at 1 2. cbn [bool_decide orb]. 
  rewrite !bool_decide_eq_false_2 by done. cbn [orb].
  rewrite bool_decide_eq_true_2 by done. rewrite Hsel.
  split; [by intros ->|]. intros Hmap.
  destruct (HiddenPorts (config m)) as [hidden|] eqn:Hhidden; [|done].
  eexists. split; [reflexivity|].
  match goal with
  | |- context [adjustCursor ?m1] =>
      assert (Hadj : ports (adjustCursor m1) = ports m1 /\
                     config (adjustCursor m1) = config m1 /\
                     showAll (adjustCursor m1) = showAll m1 /\
                     getVisiblePorts (adjustCursor m1) = getVisiblePorts m1)
  end.
  { unfold adjustCursor. by destruct (_ && _). }
  destruct Hadj as (Hports & Hconfig & Hshow & Hvis).
  split; [by rewrite Hports|]. split.
  { rewrite Hvis, (getVisiblePorts_hide m hidden port _ Hhidden).
    apply list_filter_iff. intros p. split; intros Hne Heq; apply Hne.
    - unfold hiddenKey, portPid in *. by injection Heq as -> ->.
    - by apply hiddenKey_inj. }
  unfold Update. rewrite !bool_decide_eq_false_2 by done. cbn [orb].
  rewrite bool_decide_eq_true_2 by done.
  eexists. split; [reflexivity|]. rewrite Hports, Hshow. cbn [ports cursor showAll].
  split; [done|]. split; [done|].
  unfold getVisiblePorts. cbn [ports]. apply list_filter_iff. intros p.
  unfold isVisible, isHidden. cbn [config HiddenPorts showAll].
  rewrite lookup_empty. cbn [default negb andb].
  destruct (showAll m), (inMonitored p); cbn; split; try done; try by left.
  - by right.
  - by intros [?|?].
Qed.

End InteractiveFacts.

(** Three records, and the keys down, [h] and [K]: the model ends with
    its cursor on a row. *)
Lemma cursor_stays_on_a_row_witness :
  exists m,
    Interactive.run
      (Interactive.initialModel [webPort; apiPort; oldPort] (mkConfig (Some ∅)))
      [(Interactive.KeyMsg "down", None); (Interactive.KeyMsg "h", None);
       (Interactive.KeyMsg "K", None)]
    = Some m /\
    sublist (Interactive.ports m) [webPort; apiPort; oldPort] /\
    0 <= Interactive.cursor m /\
    (Interactive.cursor m = 0 \/
     Interactive.cursor m < Z.of_nat (length (Interactive.getVisiblePorts m))).
Proof.
  apply cursor_stays_on_a_row.
  - apply (bool_decide_unpack _). by vm_compute.
  - done.
Defined.

(** Of two rows the first is hidden: the second is the one shown. *)
Lemma hide_then_unhide_witness :
  exists m',
    Interactive.Update
      (Interactive.initialModel [webPort; apiPort] (mkConfig (Some ∅)))
      (Interactive.KeyMsg "h") None
    = Some (m', false) /\
    Interactive.getVisiblePorts m' = [apiPort].
Proof.
  set (m := Interactive.initialModel [webPort; apiPort] (mkConfig (Some ∅))).
  assert (Hsel : Interactive.selection m = Interactive.Selected webPort)
    by (by vm_compute).
  assert (Hmap : HiddenPorts (Interactive.config m) <> None) by done.
  destruct (hide_then_unhide m webPort None None Hsel) as [_ Hhide].
  destruct (Hhide Hmap) as (m' & Hupdate & _ & Hvisible & _).
  exists m'. split; [exact Hupdate|]. rewrite Hvisible. by vm_compute.
Defined.

(** ** The last event of a path and the view *)
Section LastEventWins.
Variable homeDir : option string.
Variable openWindows : string -> bool.
Variable notExist : string -> bool.
Variable cursorHistoryLimit : Z.

Lemma eligible_length (entries : list string) :
  forall seen,
    (length (eligible openWindows notExist seen entries) <= length entries)%nat.
Proof.
  induction entries as [|u rest IH]; intros seen; [done|].
  cbn [eligible length]. cbv zeta.
  destruct (decide (decodedPath u ∈ seen)); [specialize (IH seen); lia|].
  destruct (openWindows (decodedPath u)); [specialize (IH seen); lia|].
  destruct (notExist (decodedPath u)); [specialize (IH seen); lia|].
  cbn [length]. specialize (IH ({[ decodedPath u ]} ∪ seen)). lia.
Qed.

(** Every folder of the history that can be listed and is not in
    [seen] is among the eligible paths. *)
Lemma eligible_complete (entries : list string) (p : string) :
  forall seen,
    p ∉ seen -> listable openWindows notExist p ->
    p ∈ decodedPath <$> entries ->
    p ∈ eligible openWindows notExist seen entries.
Proof.
  induction entries as [|u rest IH]; intros seen Hnew [Hopen Hgone] Hin.
  { by apply elem_of_nil in Hin. }
  rewrite fmap_cons in Hin. cbn [eligible]. cbv zeta.
  destruct (decide (decodedPath u = p)) as [->|Hne].
  - rewrite decide_False by done. rewrite Hopen, Hgone. left.
  - apply elem_of_cons in Hin as [->|Hin]; [done|].
    destruct (decide (decodedPath u ∈ seen)); [by apply IH|].
    destruct (openWindows (decodedPath u)); [by apply IH|].
    destruct (notExist (decodedPath u)); [by apply IH|].
    right. apply IH; [|done..].
    intros [Hs|Hs]%elem_of_union; [|done].
    apply elem_of_singleton in Hs. congruence.
Qed.

(** The view is the list the log gives and then what the editor's
    history adds to it. *)
Lemma displayCursorHistory_parts (env : RunEnv) (file : option string)
    (history : option (list string)) (recentlyClosed : list string) :
  displayCursorHistory homeDir openWindows notExist cursorHistoryLimit
                       env file history recentlyClosed ->
  exists closed fromLog others,
    closedWorkspaces openWindows notExist cursorHistoryLimit
      (default [] (readWorkspaceLog homeDir env file)) closed fromLog /\
    recentlyClosed = fromLog ++ others /\
    others =
      (if Z.of_nat (length fromLog) <? cursorHistoryLimit
       then match homeDir, history with
            | Some _, Some entries =>
                take (roomFor cursorHistoryLimit (length fromLog))
                     (eligible openWindows notExist (list_to_set fromLog) entries)
            | _, _ => []
            end
       else []).
Proof.
  intros (closed & fromLog & Hrun & ->). exists closed, fromLog.
  destruct (Z.of_nat (length fromLog) <? cursorHistoryLimit);
    [|exists []; by rewrite app_nil_r].
  destruct homeDir; [|exists []; by rewrite app_nil_r].
  destruct history as [entries|]; [|exists []; by rewrite app_nil_r].
  eexists. split; [done|]. split; [|done]. apply supplementLoop_take.
Qed.


End LastEventWins.



(** ** The lines of the listing, parsed *)
Section ListingLines.

Lemma columnByte_plain (c : ascii) : columnByte c = true -> spaceByte c = false.
Proof. unfold columnByte. by intros ?%negb_true_iff. Qed.

Lemma columnByte_solid (c : ascii) : columnByte c = true -> Go.isReSpace c = false.
Proof.
  intros Hc%columnByte_plain. unfold spaceByte in Hc.
  apply orb_false_iff in Hc as [Hc _]. unfold Go.asciiSpace in Hc.
  destruct (Go.isReSpace c) eqn:Hr; [|done]. exfalso.
  unfold Go.isReSpace in Hr.
  repeat match goal with
         | H : (_ || _) = true |- _ => apply orb_true_iff in H as [H|H]
         | H : (_ =? _)%N = true |- _ => apply N.eqb_eq in H; rewrite H in Hc
         end; done.
Qed.

Lemma isColumn_inv (s : string) :
  isColumn s = true -> Go.isEmpty s = false /\ Go.allBytes columnByte s = true.
Proof.
  unfold isColumn. intros [Hne Hs]%andb_true_iff.
  by apply negb_true_iff in Hne.
Qed.

(** A column at the head of a text is the head of its first field. *)
Lemma fieldsFrom_column (w rest : string) :
  Go.allBytes columnByte w = true ->
  Go.fieldsFrom (w +:+ rest) 0
  = (w +:+ (Go.fieldsFrom rest 0).1, (Go.fieldsFrom rest 0).2).
Proof.
  induction w as [|c w IH]; intros Hw.
  - rewrite !app_empty_l. by destruct (Go.fieldsFrom rest 0).
  - cbn [Go.allBytes] in Hw. apply andb_true_iff in Hw as [Hc Hw].
    rewrite !app_cons. cbn [Go.fieldsFrom].
    rewrite spaceWidth_plain by by apply columnByte_plain.
    by rewrite IH.
Qed.

Lemma fieldsFrom_blank (rest : string) :
  Go.fieldsFrom (String " " rest) 0
  = (EmptyString, Go.flush (Go.fieldsFrom rest 0).1 (Go.fieldsFrom rest 0).2).
Proof.
  cbn [Go.fieldsFrom]. change (Go.spaceWidth (String " " rest)) with 1%nat.
  cbv iota. by destruct (Go.fieldsFrom rest 0).
Qed.

Lemma fieldsFrom_blanks (g rest : string) :
  Go.allBytes (fun c => Ascii.eqb c " ") g = true ->
  Go.fieldsFrom (String " " (g +:+ rest)) 0
  = (EmptyString, Go.flush (Go.fieldsFrom rest 0).1 (Go.fieldsFrom rest 0).2).
Proof.
  induction g as [|c g IH]; intros Hg.
  - rewrite app_empty_l. apply fieldsFrom_blank.
  - cbn [Go.allBytes] in Hg. apply andb_true_iff in Hg as [Hc Hg].
    apply Ascii.eqb_eq in Hc as ->. rewrite app_cons, fieldsFrom_blank.
    by rewrite IH.
Qed.

(** A gap ends the field before it. *)
Lemma fieldsFrom_gap (g rest : string) :
  isGap g = true ->
  Go.fieldsFrom (g +:+ rest) 0
  = (EmptyString, Go.flush (Go.fieldsFrom rest 0).1 (Go.fieldsFrom rest 0).2).
Proof.
  unfold isGap. intros [Hne Hg]%andb_true_iff.
  destruct g as [|c g]; [by simpl in Hne|].
  cbn [Go.allBytes] in Hg. apply andb_true_iff in Hg as [Hc Hg].
  apply Ascii.eqb_eq in Hc as ->. rewrite app_cons. by apply fieldsFrom_blanks.
Qed.

(** The fields of a line are its columns. *)
Lemma fieldsFrom_joinColumns (columns : list (string * string))
    (lastColumn : string) :
  Forall (fun cg => isColumn cg.1 = true /\ isGap cg.2 = true) columns ->
  isColumn lastColumn = true ->
  exists hd tl,
    Go.fieldsFrom (joinColumns columns lastColumn) 0 = (hd, tl) /\
    Go.isEmpty hd = false /\
    hd :: tl = columns.*1 ++ [lastColumn].
Proof.
  intros Hcols Hlast. induction Hcols as [|[c g] rest [Hc Hg] Hrest IH].
  - exists lastColumn, []. destruct (isColumn_inv _ Hlast) as [Hne Hall].
    cbn [joinColumns]. split; [|done].
    rewrite <- (app_empty_r lastColumn) at 1.
    rewrite fieldsFrom_column by done. cbn. by rewrite app_empty_r.
  - destruct IH as (hd & tl & Hf & Hne & Heq).
    destruct (isColumn_inv _ Hc) as [Hcne Hcall]. cbn [fst snd] in *.
    exists c, (hd :: tl). cbn [joinColumns].
    rewrite fieldsFrom_column by done. rewrite fieldsFrom_gap by done.
    rewrite Hf. cbn [fst snd]. unfold Go.flush. rewrite Hne.
    rewrite app_empty_r. split; [done|]. split; [done|].
    rewrite fmap_cons. cbn [fst app]. by rewrite Heq.
Qed.

Lemma Fields_joinColumns (columns : list (string * string))
    (lastColumn : string) :
  Forall (fun cg => isColumn cg.1 = true /\ isGap cg.2 = true) columns ->
  isColumn lastColumn = true ->
  Go.Fields (joinColumns columns lastColumn) = columns.*1 ++ [lastColumn].
Proof.
  intros Hcols Hlast.
  destruct (fieldsFrom_joinColumns _ _ Hcols Hlast) as (hd & tl & Hf & Hne & <-).
  unfold Go.Fields. rewrite Hf. unfold Go.flush. by rewrite Hne.
Qed.

Lemma Contains_app_r (a b sub : string) :
  Go.Contains b sub = true -> Go.Contains (a +:+ b) sub = true.
Proof.
  intros Hb. induction a as [|c a IH]; [by rewrite app_empty_l|].
  rewrite app_cons. cbn [Go.Contains]. rewrite IH. apply orb_true_r.
Qed.

Lemma joinColumns_last (columns : list (string * string)) (lastColumn : string) :
  joinColumns columns lastColumn
  = joinColumns columns EmptyString +:+ lastColumn.
Proof.
  induction columns as [|[c g] rest IH]; [by rewrite app_empty_l|].
  cbn [joinColumns]. by rewrite IH, !app_assoc_str.
Qed.

(** The expression of the port matches at a colon only. *)
Lemma matchPortAt_not_colon (c : ascii) (s : string) :
  c <> ":"%char -> matchPortAt (String c s) = None.
Proof.
  intros Hc. destruct c as [[] [] [] [] [] [] [] []]; try done.
Qed.

Lemma findPort_skip (x rest : string) :
  Go.freeOf ":" x = true -> findPort (x +:+ rest) = findPort rest.
Proof.
  induction x as [|c x IH]; intros Hx; [by rewrite app_empty_l|].
  unfold Go.freeOf in Hx. cbn [Go.allBytes] in Hx.
  apply andb_true_iff in Hx as [Hc Hx].
  apply negb_true_iff, Ascii.eqb_neq in Hc.
  rewrite app_cons. cbn [findPort]. rewrite matchPortAt_not_colon by done.
  by apply IH.
Qed.

Lemma span_app (p : ascii -> bool) (a b : string) :
  Go.allBytes p a = true ->
  match b with EmptyString => True | String c _ => p c = false end ->
  Go.span p (a +:+ b) = (a, b).
Proof.
  intros Ha Hb. induction a as [|c a IH].
  - rewrite app_empty_l. destruct b as [|c b]; [done|]. cbn [Go.span]. by rewrite Hb.
  - cbn [Go.allBytes] in Ha. apply andb_true_iff in Ha as [Hc Ha].
    rewrite app_cons. cbn [Go.span]. by rewrite Hc, IH.
Qed.

(** After the digits that follow a colon inside the host comes a byte
    that is no white space. *)
Lemma span_digits_solid (u T : string) :
  Go.allBytes columnByte u = true ->
  exists c r, (Go.span Go.isDigit (u +:+ String ":" T)).2 = String c r /\
              Go.isReSpace c = false.
Proof.
  induction u as [|x u IH]; intros Hu.
  - rewrite app_empty_l. by exists ":"%char, T.
  - cbn [Go.allBytes] in Hu. apply andb_true_iff in Hu as [Hx Hu].
    rewrite app_cons. cbn [Go.span]. destruct (Go.isDigit x).
    + destruct (IH Hu) as (c & r & Heq & Hc).
      destruct (Go.span Go.isDigit (u +:+ String ":" T)) as [a b].
      by exists c, r.
    + exists x, (u +:+ String ":" T). split; [done|]. by apply columnByte_solid.
Qed.

Lemma matchPortAt_host (u T : string) :
  Go.allBytes columnByte u = true ->
  matchPortAt (String ":" (u +:+ String ":" T)) = None.
Proof.
  intros Hu. destruct (span_digits_solid u T Hu) as (c & r & Heq & Hc).
  unfold matchPortAt.
  destruct (Go.span Go.isDigit (u +:+ String ":" T)) as [ds r1].
  cbn [snd] in Heq. subst r1. destruct (Go.isEmpty ds); [done|].
  cbn [Go.span]. by rewrite Hc.
Qed.

Lemma findPort_host (host T : string) :
  Go.allBytes columnByte host = true ->
  findPort (host +:+ String ":" T) = findPort (String ":" T).
Proof.
  induction host as [|c host IH]; intros Hh; [by rewrite app_empty_l|].
  cbn [Go.allBytes] in Hh. apply andb_true_iff in Hh as [Hc Hh].
  rewrite app_cons. cbn [findPort].
  destruct (decide (c = ":"%char)) as [->|Hne].
  - rewrite matchPortAt_host by done. by apply IH.
  - rewrite matchPortAt_not_colon by done. by apply IH.
Qed.

(** At the colon before the port the expression matches the digits. *)
Lemma findPort_port (ds g : string) :
  isGroup ds = true -> isGap g = true ->
  findPort (String ":" (ds +:+ g +:+ "(LISTEN)")) = Some ds.
Proof.
  intros Hgroup Hg. pose proof (isGroup_allDigits _ Hgroup) as Hds.
  assert (Hne : Go.isEmpty ds = false).
  { by destruct (isGroup_inv _ Hgroup) as (c & r & -> & _). }
  unfold isGap in Hg. apply andb_true_iff in Hg as [Hgne Hg].
  destruct g as [|c g]; [by simpl in Hgne|]. cbn [Go.allBytes] in Hg.
  apply andb_true_iff in Hg as [Hc Hg]. apply Ascii.eqb_eq in Hc as ->.
  cbn [findPort]. unfold matchPortAt.
  rewrite (span_app Go.isDigit ds) by done. rewrite Hne.
  rewrite (span_app Go.isReSpace (String " " g) "(LISTEN)").
  - done.
  - cbn [Go.allBytes]. apply andb_true_iff. split; [done|].
    eapply allBytes_weaken; [|done]. by intros c ->%Ascii.eqb_eq.
  - done.
Qed.

Lemma Itoa_port_group (port : Z) : 1 <= port -> isGroup (Go.Itoa port) = true.
Proof.
  intros Hp. destruct port as [|p|p]; [lia| |lia].
  change (Go.Itoa (Z.pos p)) with (pretty (N.pos p)). apply pretty_N_group.
Qed.

(** The parser builds from the line of a listening socket the record of
    that socket. *)
Lemma lineRecord_listenText (l : ListenLine) :
  listenOk l = true -> lineRecord (listenText l) = Some (listenRecord l).
Proof.
  destruct l as [cmd pid user fd type dev size node host port gaps].
  unfold listenOk, listenText, listenRecord, lsColumns, lsName.
  cbn [lsCommand lsPID lsUser lsFD lsType lsDevice lsSize lsNode lsHost lsPort
       lsGaps].
  intros Hok.
  repeat match type of Hok with
         | (_ && _) = true => let H := fresh "H" in apply andb_true_iff in Hok as [Hok H]
         end.
  apply Nat.eqb_eq in Hok.
  destruct gaps as [|g1 [|g2 [|g3 [|g4 [|g5 [|g6 [|g7 [|g8 [|g9 [|? ?]]]]]]]]]];
    try done.
  clear Hok. cbn [forallb] in *.
  repeat match goal with
         | H : (_ && _) = true |- _ => apply andb_true_iff in H as [? ?]
         end.
  assert (Hport : 1 <= port <= 65535) by lia.
  pose proof (Itoa_port_group port ltac:(lia)) as Hds.
  destruct (isColumn_inv host ltac:(done)) as [Hhne Hhall].
  assert (Hname : isColumn (host +:+ ":" +:+ Go.Itoa port) = true).
  { unfold isColumn. apply andb_true_iff. split.
    - destruct host; [done|]. done.
    - rewrite !allBytes_app, Hhall. cbn [Go.allBytes andb].
      pose proof (isGroup_allDigits _ Hds) as Hd. rewrite andb_true_r.
      eapply allBytes_weaken; [|exact Hd].
      intros c Hc. unfold columnByte. apply negb_true_iff, decimal_not_space.
      unfold isDecimalByte. by rewrite Hc. }
  set (columns := zip ([cmd; pid; user; fd; type; dev; size; node]
                       ++ [host +:+ ":" +:+ Go.Itoa port])
                      [g1; g2; g3; g4; g5; g6; g7; g8; g9]).
  assert (Hcols : Forall (fun cg => isColumn cg.1 = true /\ isGap cg.2 = true)
                         columns).
  { unfold columns. cbn [app zip zip_with]. repeat constructor; done. }
  assert (Hfields : Go.Fields (joinColumns columns "(LISTEN)")
                    = [cmd; pid; user; fd; type; dev; size; node;
                       host +:+ ":" +:+ Go.Itoa port; "(LISTEN)"]%string).
  { by rewrite Fields_joinColumns. }
  assert (Hcontains : Go.Contains (joinColumns columns "(LISTEN)") "LISTEN" = true).
  { rewrite joinColumns_last. by apply Contains_app_r. }
  assert (Hfind : findPort (joinColumns columns "(LISTEN)") = Some (Go.Itoa port)).
  { unfold columns. cbn [app zip zip_with joinColumns].
    assert (Hgap : forall g, isGap g = true -> Go.freeOf ":" g = true).
    { intros g [_ Hg]%andb_true_iff. unfold Go.freeOf.
      eapply allBytes_weaken; [|exact Hg]. by intros c ->%Ascii.eqb_eq. }
    rewrite !findPort_skip by (done || by apply Hgap).
    rewrite !app_assoc_str.
    change (":" +:+ Go.Itoa port +:+ g9 +:+ "(LISTEN)")
      with (String ":" (Go.Itoa port +:+ g9 +:+ "(LISTEN)")).
    rewrite findPort_host by done. by apply findPort_port. }
  unfold lineRecord, parseStep. rewrite Hcontains. cbn [negb].
  rewrite Hfields. cbn [length Nat.ltb Nat.leb]. rewrite Hfind.
  unfold Go.Atoi. rewrite ParseInt_Itoa by (unfold Go.isInt, Go.minInt, Go.maxInt; lia).
  rewrite decide_False by apply not_elem_of_empty. done.
Qed.

Lemma lineRecord_no_listen (line : string) :
  Go.Contains line "LISTEN" = false -> lineRecord line = None.
Proof. intros Hc. unfold lineRecord, parseStep. by rewrite Hc. Qed.

(** Every record of the parser is the record of a listening socket the
    listing shows. *)
Lemma parseOutput_listen (listing : string) (p : PortInfo) :
  Forall listingLine (Go.Split listing "010") ->
  p ∈ parseOutput listing ->
  exists l, listenOk l = true /\ listenText l ∈ Go.Split listing "010" /\
            p = listenRecord l.
Proof.
  intros Hlines Hp.
  assert (Hc : p ∈ lineRecords listing).
  { eapply (sublist_subseteq (parseOutput listing)); [|done].
    rewrite parseOutput_keepFirst. apply keepFirst_sublist. }
  apply list_elem_of_omap in Hc as (line & Hline & Hrec).
  rewrite Forall_forall in Hlines.
  destruct (Hlines line Hline) as [Hno|(l & Hok & ->)].
  - by rewrite lineRecord_no_listen in Hrec.
  - rewrite lineRecord_listenText in Hrec by done. injection Hrec as <-.
    by exists l.
Qed.

End ListingLines.

(** ** Ports and uptimes along the pipeline *)
Section PipelinePorts.
Context {World : Type}.
Variable lsofCwd : string -> World -> option string * World.
Variable psEtime : string -> World -> option string * World.

(** The enrichment leaves the fields of the parser as they are. *)
Lemma enrichLoop_fields (ports : list PortInfo) :
  forall (c : Caches) (st : World * list Lookup),
    Forall2 (fun r p => parsedFields r = parsedFields p)
            (enrichLoop lsofCwd psEtime ports c st).1 ports.
Proof.
  induction ports as [|p rest IH]; intros c [w trace].
  - constructor.
  - rewrite enrichLoop_cons. unfold enrichOne.
    destruct (pathCache c !! PID p) as [cp|].
    + unfold ret. cbn [fst snd]. specialize (IH c (w, trace)).
      destruct (enrichLoop lsofCwd psEtime rest c (w, trace)) as [rest' st2].
      by constructor.
    + unfold mbind, Run_bind, bind, mret, Run_ret, ret.
      unfold getWorkingDirectory, getProcessUptime.
      destruct (lsofCwd (PID p) w) as [out1 w1].
      destruct (psEtime (PID p) w1) as [out2 w2]. cbn [fst snd] in *.
      match goal with
      | |- context [enrichLoop lsofCwd psEtime rest ?c' ?st'] =>
          specialize (IH c' st');
          destruct (enrichLoop lsofCwd psEtime rest c' st') as [rest' st2]
      end.
      by constructor.
Qed.

(** C9: on a listing as [lsof] prints it, where every line that mentions
    [LISTEN] is the line of a listening socket with a TCP port, every
    record of the parse-and-enrich pipeline carries the port, command,
    process, user and address of such a line, so that its port is the
    decimal the listing shows and lies between 1 and 65535; its seconds
    of uptime are not negative when the elapsed times [ps] prints have
    at most fourteen bytes once trimmed; and every listening socket of
    the listing has a record with its port and process. *)
Theorem parseAndEnrich_ranges (listing : string) (w : World) :
  Forall listingLine (Go.Split listing "010") ->
  (forall r, r ∈ parseAndEnrich lsofCwd psEtime listing w ->
     (exists l, listenOk l = true /\ listenText l ∈ Go.Split listing "010" /\
                parsedFields r = parsedFields (listenRecord l)) /\
     1 <= Port r <= 65535 /\
     ((forall pid w',
          match (psEtime pid w').1 with
          | Some o => (String.length (Go.TrimSpace o) <= 14)%nat
          | None => True
          end) ->
      0 <= UptimeSeconds r)) /\
  (forall l, listenOk l = true -> listenText l ∈ Go.Split listing "010" ->
     exists r, r ∈ parseAndEnrich lsofCwd psEtime listing w /\
               Port r = lsPort l /\ PID r = lsPID l).
Proof.
  unfold parseAndEnrich, enrich. intros Hlines.
  pose proof (enrichLoop_fields (parseOutput listing) emptyCaches (w, [])) as Hall.
  split.
  - intros r Hr. apply list_elem_of_lookup in Hr as [i Hi].
    destruct (Forall2_lookup_l _ _ _ i r Hall Hi) as (p & Hp & Hfields).
    assert (Hin : p ∈ parseOutput listing) by (apply list_elem_of_lookup; eauto).
    destruct (parseOutput_listen listing p Hlines Hin) as (l & Hok & Hline & ->).
    split; [by exists l|]. split.
    + assert (Hport : Port r = lsPort l) by (by injection Hfields).
      rewrite Hport. unfold listenOk in Hok.
      repeat match type of Hok with
             | (_ && _) = true =>
                 let H := fresh "H" in apply andb_true_iff in Hok as [Hok H]
             end.
      lia.
    + intros Hshort.
      assert (Hempty : forall pid v,
                 uptimeSecondsCache emptyCaches !! pid = Some v -> 0 <= v).
      { intros pid v. cbn. by rewrite lookup_empty. }
      pose proof (enrichLoop_ranges lsofCwd psEtime Hshort (parseOutput listing)
                    emptyCaches (w, []) Hempty) as Hranges.
      by destruct (Forall2_lookup_l _ _ _ i r Hranges Hi) as (p' & _ & _ & Hup).
  - intros l Hok Hline.
    assert (Hc : listenRecord l ∈ lineRecords listing).
    { apply list_elem_of_omap. exists (listenText l). split; [done|].
      by apply lineRecord_listenText. }
    rewrite parseOutput_keepFirst in Hall |- *.
    destruct (keepFirst_covers _ ∅ _ Hc) as [Hin|(p & Hp & Hkey)];
      [by apply elem_of_empty in Hin|].
    apply list_elem_of_lookup in Hp as [i Hi].
    destruct (Forall2_lookup_r _ _ _ i p Hall Hi) as (r & Hr & Hfields).
    exists r. split; [apply list_elem_of_lookup; eauto|].
    injection Hfields as Hport _ Hpid _ _. injection Hkey as Hport' Hpid'.
    split; congruence.
Qed.

End PipelinePorts.

(** The sample listing on a machine whose commands answer with a
    directory and an elapsed time of five minutes. *)
Lemma parseAndEnrich_ranges_witness :
  Forall (fun r => 1 <= Port r <= 65535 /\ 0 <= UptimeSeconds r)
         (parseAndEnrich (commandPrints ("p501" +:+ newline +:+ "n/Users/alice/app"))
                         (commandPrints ("   05:23" +:+ newline))
                         sampleListing tt).
Proof.
  assert (Hlines : Forall listingLine (Go.Split sampleListing "010")).
  { assert (Hsplit : Go.Split sampleListing "010"
                     = ["COMMAND PID USER FD TYPE DEVICE SIZE/OFF NODE NAME";
                        listenText (sampleListen "23u" "IPv4" "127.0.0.1" 3000);
                        listenText (sampleListen "24u" "IPv6" "[::1]" 3000);
                        listenText (sampleListen "25u" "IPv4" "127.0.0.1" 9229);
                        ""]%string) by (by vm_compute).
    rewrite Hsplit.
    apply Forall_cons. split; [left; by vm_compute|].
    do 3 (apply Forall_cons;
          split; [right; eexists; split; [|reflexivity]; by vm_compute|]).
    apply Forall_cons. split; [by left|]. constructor. }
  apply Forall_forall. intros r Hr.
  destruct (proj1 (parseAndEnrich_ranges
                     (commandPrints ("p501" +:+ newline +:+ "n/Users/alice/app"))
                     (commandPrints ("   05:23" +:+ newline))
                     sampleListing tt Hlines) r Hr) as (_ & Hport & Hup).
  split; [done|]. apply Hup. intros pid w'. vm_compute. lia.
Defined.

(** ** Insertion sort, as [sort.Slice] runs it on a short slice *)
Section InsertionSort.
Context {A : Type} (key : A -> Z) (less : A -> A -> bool).
Hypothesis less_key : forall a b, less a b = (key a <? key b).

Lemma Less_adjacent (pre : list A) (y x : A) (post : list A) :
  Sort.Less less (pre ++ y :: x :: post) (S (length pre)) (length pre)
  = Some (less x y).
Proof.
  unfold Sort.Less.
  rewrite (lookup_app_r pre _ (S (length pre))) by lia.
  rewrite (lookup_app_r pre _ (length pre)) by lia.
  replace (S (length pre) - length pre)%nat with 1%nat by lia.
  by rewrite Nat.sub_diag.
Qed.

Lemma Swap_adjacent (pre : list A) (y x : A) (post : list A) :
  Sort.Swap (pre ++ y :: x :: post) (S (length pre)) (length pre)
  = Some (pre ++ x :: y :: post).
Proof.
  unfold Sort.Swap.
  rewrite (lookup_app_r pre _ (S (length pre))) by lia.
  rewrite (lookup_app_r pre _ (length pre)) by lia.
  replace (S (length pre) - length pre)%nat with 1%nat by lia.
  rewrite Nat.sub_diag. cbn.
  rewrite (insert_app_r_alt pre _ (S (length pre))) by lia.
  replace (S (length pre) - length pre)%nat with 1%nat by lia. cbn.
  rewrite (insert_app_r_alt pre _ (length pre)) by lia.
  by rewrite Nat.sub_diag.
Qed.

(** The inner loop puts the element at [j] in among those before it. *)
Lemma insertionInner_sink (rl : list A) :
  forall (x : A) (post : list A),
    Sort.insertionInner less (reverse rl ++ x :: post) 0 (length rl)
    = Some (reverse (sink less x rl) ++ post).
Proof.
  induction rl as [|y rl IH]; intros x post; [done|].
  cbn [length Sort.insertionInner sink].
  rewrite decide_True by lia.
  rewrite reverse_cons, <- app_assoc. cbn [app].
  rewrite <- (length_reverse rl).
  rewrite Less_adjacent. cbn [mbind option_bind].
  destruct (less x y).
  - rewrite Swap_adjacent. cbn [mbind option_bind]. rewrite length_reverse, IH.
    by rewrite reverse_cons, <- app_assoc.
  - by rewrite !reverse_cons, <- !app_assoc.
Qed.

Lemma sink_length (x : A) (rl : list A) :
  length (sink less x rl) = S (length rl).
Proof.
  induction rl as [|y rl IH]; [done|]. cbn [sink].
  destruct (less x y); cbn [length]; by rewrite ?IH.
Qed.

Lemma insertionOuter_sink (rest : list A) :
  forall rl : list A,
    Sort.insertionOuter less (reverse rl ++ rest) 0 (length rl) (length rest)
    = Some (reverse (sinkAll less rl rest)).
Proof.
  induction rest as [|x rest IH]; intros rl.
  - cbn. by rewrite app_nil_r.
  - cbn [length Sort.insertionOuter]. rewrite insertionInner_sink.
    cbn [mbind option_bind].
    rewrite <- sink_length with (x := x). apply IH.
Qed.

Lemma insertionSort_sink (data : list A) :
  Sort.insertionSort_func less data 0 (length data)
  = Some (reverse (sinkAll less [] data)).
Proof.
  unfold Sort.insertionSort_func. destruct data as [|x rest]; [done|].
  cbn [length]. replace (S (length rest) - (0 + 1))%nat with (length rest) by lia.
  apply (insertionOuter_sink rest [x]).
Qed.

(** On at most twelve elements [sort.Slice] is this insertion sort. *)
Lemma Slice_short (xorshiftNext : Z -> Z) (data : list A) :
  (length data <= 12)%nat ->
  Sort.Slice less xorshiftNext data = Some (reverse (sinkAll less [] data)).
Proof.
  intros Hlen. unfold Sort.Slice. cbn [Sort.pdqsort_func].
  rewrite Nat.sub_0_r, decide_True by done. apply insertionSort_sink.
Qed.

Lemma sink_Permutation (x : A) (rl : list A) : sink less x rl ≡ₚ x :: rl.
Proof.
  induction rl as [|y rl IH]; [done|]. cbn [sink].
  destruct (less x y); [|done]. rewrite IH. apply Permutation_swap.
Qed.

Lemma sinkAll_Permutation (data : list A) :
  forall rl, sinkAll less rl data ≡ₚ rl ++ data.
Proof.
  unfold sinkAll. induction data as [|x data IH]; intros rl.
  - by rewrite app_nil_r.
  - cbn [foldl]. rewrite IH, sink_Permutation. cbn [app].
    apply Permutation_middle.
Qed.

(** Putting an element in keeps the list in order. *)
Lemma sink_sorted (x : A) (rl : list A) :
  StronglySorted (fun a b => key b <= key a) rl ->
  StronglySorted (fun a b => key b <= key a) (sink less x rl).
Proof.
  induction 1 as [|y rl Hs IH Hall].
  - repeat constructor.
  - cbn [sink]. rewrite less_key. destruct (Z.ltb_spec (key x) (key y)) as [Hlt|Hge].
    + constructor; [done|]. rewrite sink_Permutation. constructor; [lia|done].
    + constructor; [by constructor|]. constructor; [done|].
      eapply Forall_impl; [exact Hall|]. intros z Hz. cbv beta in *. lia.
Qed.

Lemma sinkAll_sorted (data : list A) :
  forall rl,
    StronglySorted (fun a b => key b <= key a) rl ->
    StronglySorted (fun a b => key b <= key a) (sinkAll less rl data).
Proof.
  unfold sinkAll. induction data as [|x data IH]; intros rl Hrl; [done|].
  cbn [foldl]. by apply IH, sink_sorted.
Qed.

Lemma reverse_sorted (l : list A) :
  StronglySorted (fun a b => key b <= key a) l ->
  Sorted (keyLe key) (reverse l).
Proof.
  intros Hl. apply StronglySorted_Sorted.
  induction Hl as [|x l Hs IH Hall]; [constructor|].
  rewrite reverse_cons. apply StronglySorted_app_2; [|done|repeat constructor].
  intros a b Ha Hb. apply list_elem_of_singleton in Hb as ->.
  rewrite elem_of_reverse in Ha. rewrite Forall_forall in Hall.
  unfold keyLe. by apply Hall.
Qed.

(** An element goes past elements of another key only. *)
Lemma filter_sink (k : Z) (x : A) (rl : list A) :
  filter (fun a => key a = k) (sink less x rl)
  = filter (fun a => key a = k) (x :: rl).
Proof.
  induction rl as [|y rl IH]; [done|]. cbn [sink]. rewrite less_key.
  destruct (Z.ltb_spec (key x) (key y)) as [Hlt|Hge]; [|done].
  rewrite (filter_cons _ y), IH, !(filter_cons _ x), (filter_cons _ y).
  destruct (decide (key y = k)) as [Hy|Hy]; [|done].
  destruct (decide (key x = k)) as [Hx|Hx]; [lia|done].
Qed.

Lemma filter_sinkAll (k : Z) (data : list A) :
  forall rl,
    filter (fun a => key a = k) (sinkAll less rl data)
    = filter (fun a => key a = k) (reverse data ++ rl).
Proof.
  unfold sinkAll. induction data as [|x data IH]; intros rl; [done|].
  cbn [foldl]. rewrite IH, reverse_cons, <- app_assoc. cbn [app].
  rewrite !filter_app. f_equal. apply filter_sink.
Qed.

(** What the insertion sort returns: the elements in ascending order of
    their keys, those of one key in the order they had. *)
Lemma sinkAll_stable (data : list A) :
  data ≡ₚ reverse (sinkAll less [] data) /\
  Runtime.sortedBy less (reverse (sinkAll less [] data)) /\
  forall k, filter (fun a => key a = k) (reverse (sinkAll less [] data))
            = filter (fun a => key a = k) data.
Proof.
  split; [|split].
  - by rewrite reverse_Permutation, sinkAll_Permutation.
  - apply (keys_sortedBy key less less_key), reverse_sorted, sinkAll_sorted.
    constructor.
  - intros k. rewrite filter_reverse, filter_sinkAll, app_nil_r.
    by rewrite filter_reverse, reverse_involutive.
Qed.

End InsertionSort.

(** ** Final sort stage, as it runs *)
Section SortStageRun.
Variable xorshiftNext : Z -> Z.


End SortStageRun.


